(** * Shoulder presentation evaluation: the posture-scoring engine

    A shallow embedding of [lib/postureMetrics.ts] (the scoring functions)
    and of the smoothing and score-buffer blocks of the render loop of
    [components/CameraInput.tsx], with the properties of the engine proved
    over it; then of the label parser [lib/labelParser.ts], of the end of
    [process] in [hooks/usePoseLandmarker.ts] and of the error, tint and
    badge of [components/ImageUpload.tsx] and
    [components/ScoreDisplay.tsx].

    The scoring functions are pure and return in the option monad, [None]
    standing for a thrown [TypeError].  The smoothing block mutates the
    landmark objects it is given, so it runs on a heap of objects; the
    score buffer is a finite map from metric name to array.

    ** Numbers

    A JavaScript [number] is modelled by [number] below: [NaN], the two
    infinities, or a finite value carried as a real.  Arithmetic on finite
    values is exact and overflows to an infinity beyond [MAX_VALUE]; the
    special values follow IEEE 754.  Two things are left out: rounding of
    finite results, and the sign of zero (every [Math.atan2] argument of
    the source goes through [Math.abs], and no divisor of the source can
    be zero, so the sign of zero is never observed).  Decimal literals
    ([0.3], [1e-6], [0.2]) stand for the decimal itself.  Since rounding
    is left out, a result given as a real number is the result of this
    model; the further properties are kept to branches, ranges,
    relations between results and values that the doubles give exactly
    (0, 1, 90, a quotient of equal numbers). *)

From Stdlib Require Import Reals Lra Lia Ascii.
From stdpp Require Import base option list gmap strings sorting functions.

(** ** JavaScript numbers *)

Inductive number : Type :=
  | NaN
  | PInf
  | NInf
  | Fin (r : R).

(** [Number.MAX_VALUE], (2 - 2^-52) * 2^1023. *)
Definition MAX_VALUE : R := ((2 - / 2 ^ 52) * 2 ^ 1023)%R.

(** The finite real [r] as a result: an infinity when it is out of range. *)
Definition overflow (r : R) : number :=
  if Rlt_dec MAX_VALUE r then PInf
  else if Rlt_dec r (- MAX_VALUE) then NInf
  else Fin r.

(** The infinity that has the sign of [r]; [NaN] for zero. *)
Definition inf_of_sign (r : R) : number :=
  if Rlt_dec 0 r then PInf else if Rlt_dec r 0 then NInf else NaN.

Definition neg (a : number) : number :=
  match a with
  | NaN => NaN
  | PInf => NInf
  | NInf => PInf
  | Fin r => Fin (- r)
  end.

Definition add (a b : number) : number :=
  match a, b with
  | NaN, _ | _, NaN => NaN
  | PInf, NInf | NInf, PInf => NaN
  | PInf, _ | _, PInf => PInf
  | NInf, _ | _, NInf => NInf
  | Fin r, Fin s => overflow (r + s)
  end.

Definition sub (a b : number) : number := add a (neg b).

Definition mul (a b : number) : number :=
  match a, b with
  | NaN, _ | _, NaN => NaN
  | PInf, PInf | NInf, NInf => PInf
  | PInf, NInf | NInf, PInf => NInf
  | PInf, Fin r | Fin r, PInf => inf_of_sign r
  | NInf, Fin r | Fin r, NInf => inf_of_sign (- r)
  | Fin r, Fin s => overflow (r * s)
  end.

Definition div (a b : number) : number :=
  match a, b with
  | NaN, _ | _, NaN => NaN
  | Fin r, Fin s =>
      if Req_dec_T s 0 then inf_of_sign r else overflow (r / s)
  | Fin _, _ => Fin 0
  | PInf, Fin s => if Rlt_dec s 0 then NInf else PInf
  | NInf, Fin s => if Rlt_dec s 0 then PInf else NInf
  | _, _ => NaN
  end.

(** [a < b]; false as soon as one side is [NaN]. *)
Definition lt (a b : number) : bool :=
  match a, b with
  | NaN, _ | _, NaN => false
  | _, NInf => false
  | NInf, _ => true
  | PInf, _ => false
  | Fin _, PInf => true
  | Fin r, Fin s => if Rlt_dec r s then true else false
  end.

(** [a > b]. *)
Definition gt (a b : number) : bool := lt b a.

Module Math.

Definition PI : number := Fin Rtrigo1.PI.

Definition abs (a : number) : number :=
  match a with
  | NaN => NaN
  | PInf | NInf => PInf
  | Fin r => Fin (Rabs r)
  end.

Definition sqrt (a : number) : number :=
  match a with
  | NaN | NInf => NaN
  | PInf => PInf
  | Fin r => if Rlt_dec r 0 then NaN else Fin (R_sqrt.sqrt r)
  end.

(** [Math.hypot] of two arguments: an infinite argument wins over a
    [NaN] one; the square root of the sum of squares is taken without
    intermediate overflow. *)
Definition hypot (a b : number) : number :=
  match a, b with
  | PInf, _ | NInf, _ | _, PInf | _, NInf => PInf
  | NaN, _ | _, NaN => NaN
  | Fin r, Fin s => overflow (R_sqrt.sqrt (r * r + s * s))
  end.

(** [Math.atan2 y x], the angle of the point [(x, y)]. *)
Definition atan2 (y x : number) : number :=
  match y, x with
  | NaN, _ | _, NaN => NaN
  | PInf, PInf => Fin (Rtrigo1.PI / 4)
  | PInf, NInf => Fin (3 * Rtrigo1.PI / 4)
  | NInf, PInf => Fin (- (Rtrigo1.PI / 4))
  | NInf, NInf => Fin (- (3 * Rtrigo1.PI / 4))
  | PInf, Fin _ => Fin (Rtrigo1.PI / 2)
  | NInf, Fin _ => Fin (- (Rtrigo1.PI / 2))
  | Fin _, PInf => Fin 0
  | Fin r, NInf => if Rlt_dec r 0 then Fin (- Rtrigo1.PI) else Fin Rtrigo1.PI
  | Fin r, Fin s =>
      if Rlt_dec 0 s then Fin (atan (r / s))
      else if Rlt_dec s 0 then
        if Rlt_dec r 0 then Fin (atan (r / s) - Rtrigo1.PI)
        else Fin (atan (r / s) + Rtrigo1.PI)
      else if Rlt_dec 0 r then Fin (Rtrigo1.PI / 2)
      else if Rlt_dec r 0 then Fin (- (Rtrigo1.PI / 2))
      else Fin 0
  end.

End Math.

Module Number.

Definition isFinite (a : number) : bool :=
  match a with Fin _ => true | _ => false end.

Definition isNaN (a : number) : bool :=
  match a with NaN => true | _ => false end.

End Number.

(** ** lib/postureMetrics.ts *)

(** Minimal landmark as returned by the pose model; [visibility] is
    optional. *)
Record Landmark : Type := mkLandmark {
  x : number;
  y : number;
  z : number;
  visibility : option number;
}.

(** [PoseLandmarks]: a sparse map from landmark index to landmark. *)
Abbreviation PoseLandmarks := (gmap nat Landmark).

Definition L_SHOULDER : nat := 11.
Definition R_SHOULDER : nat := 12.

Definition VIS_THRESHOLD : number := Fin 0.3.
Definition EPSILON : number := Fin 1e-6.

(** [a ?? d]. *)
Definition nullish (a : option number) (d : number) : number := default d a.

(** Landmark exists and is above [VIS_THRESHOLD]. *)
Definition isVisible (l : option Landmark) : bool :=
  match l with
  | None => false
  | Some l => gt (nullish (visibility l) (Fin 1)) VIS_THRESHOLD
  end.

Module Snapshot.
(** The [{x, y, z, v}] echo of a shoulder in the debug record. *)
Record t : Type := mk { x : number; y : number; z : number; v : number }.
End Snapshot.

Record HorizontalScoreDebug : Type := mkDebug {
  score : number;
  angleDeg : number;
  dx : number;
  dz : number;
  visSym : number;
  left : Snapshot.t;
  right : Snapshot.t;
}.

(** Fallback object for undefined cases. *)
Definition blank : HorizontalScoreDebug :=
  {| score := Fin 0; angleDeg := Fin 90; dx := Fin 0; dz := Fin 0;
     visSym := Fin 0;
     left := Snapshot.mk NaN NaN NaN (Fin 0);
     right := Snapshot.mk NaN NaN NaN (Fin 0) |}.

(** The functions of the engine return in the option monad: [None] is a
    [TypeError] thrown by reading a property of [undefined].  [ls ← ls]
    stands at the first property read of [ls]. *)
Definition horizontalScoreDetailed (lm : PoseLandmarks)
    : option HorizontalScoreDebug :=
  let ls := lm !! L_SHOULDER in
  let rs := lm !! R_SHOULDER in
  if negb (isVisible ls) || negb (isVisible rs) then Some blank else
  ls ← ls;
  if negb (Number.isFinite (z ls)) then Some blank else
  rs ← rs;
  if negb (Number.isFinite (z rs)) then Some blank else
  let dx := sub (x ls) (x rs) in
  let dz := sub (z ls) (z rs) in
  let len := Math.hypot dx dz in
  if lt len EPSILON then Some blank else
  let absDx := Math.abs dx in
  let absDz := Math.abs dz in
  let geom := div absDx len in
  let visSym :=
    sub (Fin 1)
      (Math.abs (sub (nullish (visibility ls) (Fin 1))
                     (nullish (visibility rs) (Fin 1)))) in
  let angle := div (mul (Math.atan2 absDz absDx) (Fin 180)) Math.PI in
  Some {| score := mul geom visSym;
          angleDeg := angle;
          dx := absDx;
          dz := absDz;
          visSym := visSym;
          left := Snapshot.mk (x ls) (y ls) (z ls)
                    (nullish (visibility ls) (Fin 0));
          right := Snapshot.mk (x rs) (y rs) (z rs)
                    (nullish (visibility rs) (Fin 0)) |}.

Definition horizontalScore (lm : PoseLandmarks) : option number :=
  d ← horizontalScoreDetailed lm; Some (score d).

Definition shoulderTiltScore (lm : PoseLandmarks) : option number :=
  let ls := lm !! L_SHOULDER in
  let rs := lm !! R_SHOULDER in
  if negb (isVisible ls) || negb (isVisible rs) then Some (Fin 0) else
  ls ← ls;
  rs ← rs;
  let dx := sub (x ls) (x rs) in
  let dy := sub (y ls) (y rs) in
  if lt (Math.abs dx) EPSILON && lt (Math.abs dy) EPSILON then Some (Fin 0) else
  let angle := Math.atan2 (Math.abs dy) (Math.abs dx) in
  Some (sub (Fin 1) (div angle (div Math.PI (Fin 2)))).

Definition shoulderSquareness (lm : PoseLandmarks) : option number :=
  sYaw ← horizontalScore lm;
  sRoll ← shoulderTiltScore lm;
  let q := Math.sqrt (mul sYaw sRoll) in
  Some (if Number.isNaN q then Fin 0 else q).

(** The object literal returned by [computeAllMetrics], as its entries in
    insertion order (the order [Object.entries] gives them in).  [q] is
    computed and left out of the result. *)
Definition computeAllMetrics (lm : PoseLandmarks)
    : option (list (string * number)) :=
  sYaw ← horizontalScore lm;
  sRoll ← shoulderTiltScore lm;
  let q := Math.sqrt (mul sYaw sRoll) in
  Some [ ("horizontalScore"%string, sYaw); ("shoulderTiltScore"%string, sRoll) ].

(** ** components/CameraInput.tsx: landmark smoothing

    The smoothing block mutates landmark objects in place and keeps a
    reference to the first pose object, so objects and references are
    explicit: a heap of landmark objects and of pose objects (index to
    landmark reference), both addressed by [loc]. *)

Definition loc : Type := nat.

Record heap : Type := mkHeap {
  landmarks : loc → Landmark;
  poses : loc → gmap nat loc;
}.

(** The pose a reference denotes: what a reader of the object sees. *)
Definition deref (h : heap) (pose : loc) : PoseLandmarks :=
  landmarks h <$> poses h pose.

Definition SMOOTH_ALPHA : number := Fin 0.2.

(** [s.x = v], [s.y = v], [s.z = v] and [pose[idx] = s]. *)
Definition set_x (h : heap) (s : loc) (v : number) : heap :=
  let o := landmarks h s in
  mkHeap (<[s := mkLandmark v (y o) (z o) (visibility o)]> (landmarks h))
         (poses h).

Definition set_y (h : heap) (s : loc) (v : number) : heap :=
  let o := landmarks h s in
  mkHeap (<[s := mkLandmark (x o) v (z o) (visibility o)]> (landmarks h))
         (poses h).

Definition set_z (h : heap) (s : loc) (v : number) : heap :=
  let o := landmarks h s in
  mkHeap (<[s := mkLandmark (x o) (y o) v (visibility o)]> (landmarks h))
         (poses h).

Definition set_entry (h : heap) (pose : loc) (idx : nat) (s : loc) : heap :=
  mkHeap (landmarks h) (<[pose := <[idx := s]> (poses h pose)]> (poses h)).

(** The keys a [for (const idx in pose)] visits: ascending. *)
Definition keys (m : gmap nat loc) : list nat :=
  merge_sort (≤) (map_to_list m).*1.

(** [SMOOTH_ALPHA * p + (1 - SMOOTH_ALPHA) * s]. *)
Definition ema (p s : number) : number :=
  add (mul SMOOTH_ALPHA p) (mul (sub (Fin 1) SMOOTH_ALPHA) s).

(** The body of the smoothing loop for one index; [cur] is
    [smoothedPoseRef.current].  The index is a key of [pose], so the
    first lookup finds a landmark. *)
Definition smooth_entry (cur pose : loc) (h : heap) (idx : nat) : heap :=
  match poses h pose !! idx with
  | None => h
  | Some p =>
      let s := default p (poses h cur !! idx) in
      let h := set_x h s (ema (x (landmarks h p)) (x (landmarks h s))) in
      let h := set_y h s (ema (y (landmarks h p)) (y (landmarks h s))) in
      let h := set_z h s (ema (z (landmarks h p)) (z (landmarks h s))) in
      set_entry h cur idx s
  end.

Module LandmarkSmoother.

(** The state: the heap and [smoothedPoseRef.current] ([None] is
    [null], the state after a reset). *)
Definition state : Type := heap * option loc.

(** The smoothing block of the render loop, run on the raw frame
    [pose]. *)
Definition update (σ : state) (pose : loc) : state :=
  match σ.2 with
  | None => (σ.1, Some pose)
  | Some cur =>
      (foldl (smooth_entry cur pose) σ.1 (keys (poses σ.1 pose)), Some cur)
  end.

(** [smoothedPose], the pose handed to the scoring functions. *)
Definition output (σ : state) : PoseLandmarks :=
  match σ.2 with
  | None => ∅
  | Some cur => deref σ.1 cur
  end.

(** The block run on the successive frames of a session (a pass of the
    render loop in which no pose is detected does not reach the block and
    is not a frame here). *)
Definition run (σ : state) (frames : list loc) : state :=
  foldl update σ frames.

End LandmarkSmoother.

(** ** components/CameraInput.tsx: score buffer *)

Definition BUFFER_SIZE : nat := 30.

Module ScoreAggregator.

(** [bufferRef.current]. *)
Abbreviation buffers := (gmap string (list number)).

(** One round of the buffer loop: [buffer[k] = buffer[k] ?? []], push,
    and shift when the length exceeds [BUFFER_SIZE]. *)
Definition observe (buffer : buffers) (k : string) (v : number) : buffers :=
  let arr := default [] (buffer !! k) in
  let arr := arr ++ [v] in
  let arr := if decide (BUFFER_SIZE < length arr) then tail arr else arr in
  <[k := arr]> buffer.

(** The loop over [Object.entries(raw)]. *)
Definition observeAll (buffer : buffers) (raw : list (string * number))
    : buffers :=
  foldl (λ b kv, observe b kv.1 kv.2) buffer raw.

(** [arr.reduce((a, b) => a + b, 0) / arr.length]. *)
Definition mean (arr : list number) : number :=
  div (foldl add (Fin 0) arr) (Fin (INR (length arr))).

Definition avgScores (buffer : buffers) : gmap string number :=
  mean <$> buffer.

End ScoreAggregator.

(** One pass of [renderLoop] on a detected pose: the new state, the
    averaged scores handed to [onScores] and the debug record handed to
    [onDebug]. *)
Definition renderLoop (σ : LandmarkSmoother.state)
    (buffer : ScoreAggregator.buffers) (pose : loc)
    : option (LandmarkSmoother.state * ScoreAggregator.buffers
              * gmap string number * HorizontalScoreDebug) :=
  let σ := LandmarkSmoother.update σ pose in
  let smoothedPose := LandmarkSmoother.output σ in
  raw ← computeAllMetrics smoothedPose;
  hDebug ← horizontalScoreDetailed smoothedPose;
  let buffer := ScoreAggregator.observeAll buffer raw in
  Some (σ, buffer, ScoreAggregator.avgScores buffer, hDebug).

(** ** Vocabulary of the properties *)

(** [a <= b]; false as soon as one side is [NaN]. *)
Definition le (a b : number) : bool :=
  match a, b with
  | NaN, _ | _, NaN => false
  | NInf, _ | _, PInf => true
  | _, NInf | PInf, _ => false
  | Fin r, Fin s => if Rle_dec r s then true else false
  end.

(** A number in the interval [0,1]: finite, hence not [NaN]. *)
Definition in01 (a : number) : Prop :=
  ∃ r : R, a = Fin r ∧ (0 <= r <= 1)%R.

(** A number that [Math.abs] can return for an argument other than
    [NaN]. *)
Definition nonneg (a : number) : Prop :=
  a = PInf ∨ ∃ r : R, a = Fin r ∧ (0 <= r)%R.

(** A shoulder slot that is absent or whose visibility is at most 0.3. *)
Definition unusable (o : option Landmark) : Prop :=
  match o with
  | None => True
  | Some l => le (nullish (visibility l) (Fin 1)) VIS_THRESHOLD = true
  end.

(** ** Sample poses *)

Definition shoulder (a b c : R) (v : R) : Landmark :=
  mkLandmark (Fin a) (Fin b) (Fin c) (Some (Fin v)).

(** A left shoulder the detector is unsure of. *)
Definition pose_dim_left : PoseLandmarks :=
  <[L_SHOULDER := shoulder 0.4 0.5 0 0.2]>
    (<[R_SHOULDER := shoulder 0.6 0.5 0 1]> ∅).

(** Square-on shoulders, and the same pose with a nose landmark. *)
Definition pose_frontal : PoseLandmarks :=
  <[L_SHOULDER := shoulder 0.4 0.5 0 1]>
    (<[R_SHOULDER := shoulder 0.6 0.5 0 1]> ∅).

Definition pose_frontal_nose : PoseLandmarks :=
  <[0 := shoulder 0.5 0.3 0 0.1]> pose_frontal.

(** The pose with the landmarks stored at indices 11 and 12 exchanged
    (an absent one stays absent, at the other index). *)
Definition swapShoulders (lm : PoseLandmarks) : PoseLandmarks :=
  partial_alter (λ _, lm !! R_SHOULDER) L_SHOULDER
    (partial_alter (λ _, lm !! L_SHOULDER) R_SHOULDER lm).

(** A landmark with finite coordinates and, when it has one, a
    visibility in [0,1]; a pose whose present landmarks are all so. *)
Definition valid_landmark (l : Landmark) : Prop :=
  Number.isFinite (x l) = true
  ∧ Number.isFinite (y l) = true
  ∧ Number.isFinite (z l) = true
  ∧ ∀ v, visibility l = Some v → in01 v.

Definition valid_pose (lm : PoseLandmarks) : Prop :=
  ∀ i l, lm !! i = Some l → valid_landmark l.

(** The difference of the shoulders' x coordinates does not overflow. *)
Definition x_gap_finite (lm : PoseLandmarks) : Prop :=
  ∀ ls rs, lm !! L_SHOULDER = Some ls → lm !! R_SHOULDER = Some rs →
    Number.isFinite (sub (x ls) (x rs)) = true.

(** Shoulders at the two ends of the range of finite numbers. *)
Definition pose_far_apart : PoseLandmarks :=
  <[L_SHOULDER := shoulder MAX_VALUE 0.5 0 1]>
    (<[R_SHOULDER := shoulder (- MAX_VALUE) 0.5 0 1]> ∅).

(** The values observed for the metric [k], in order, among the entries
    handed to the buffer loop. *)
Definition values_for (k : string) (entries : list (string * number))
    : list number :=
  (filter (λ kv : string * number, kv.1 = k) entries).*2.

(** The last [BUFFER_SIZE] elements of a sequence. *)
Definition window (l : list number) : list number :=
  drop (length l - BUFFER_SIZE) l.

(** The value a finite number carries. *)
Definition to_R (a : number) : R :=
  match a with Fin r => r | _ => 0%R end.

(** Ten scores 0 followed by thirty scores 1, for one metric. *)
Definition forty_scores : list (string * number) :=
  replicate 10 ("horizontalScore"%string, Fin 0)
  ++ replicate 30 ("horizontalScore"%string, Fin 1).

(** ** Objects of a session *)

(** The landmark [s] after one round of the smoothing loop against the
    raw landmark [p]: the position is averaged, the other fields of [s]
    stay. *)
Definition smoothed (p s : Landmark) : Landmark :=
  mkLandmark (ema (x p) (x s)) (ema (y p) (y s)) (ema (z p) (z s))
    (visibility s).

(** No landmark object sits at two indices of the pose object. *)
Definition distinct_objects (m : gmap nat loc) : Prop :=
  ∀ i j l, m !! i = Some l → m !! j = Some l → i = j.

(** No landmark object belongs to both pose objects. *)
Definition separate (m1 m2 : gmap nat loc) : Prop :=
  ∀ i j l, m1 !! i = Some l → m2 !! j = Some l → False.

(** The raw frame [pose] is a fresh object for the smoother whose state
    is the pose object [cur]: another pose object, made of landmark
    objects of its own. *)
Definition fresh_frame (h : heap) (cur pose : loc) : Prop :=
  pose ≠ cur
  ∧ distinct_objects (poses h cur)
  ∧ distinct_objects (poses h pose)
  ∧ separate (poses h cur) (poses h pose).

(** The raw frame [pose] is fresh for the smoother in state [σ]; after a
    reset any frame is. *)
Definition fresh_for (σ : LandmarkSmoother.state) (pose : loc) : Prop :=
  match σ.2 with
  | None => True
  | Some cur => fresh_frame σ.1 cur pose
  end.

(** The frames of a session are fresh objects: each frame is a pose
    object of its own, and a landmark object occurs once, in one frame at
    one index. *)
Definition fresh_frames (h : heap) (frames : list loc) : Prop :=
  NoDup frames
  ∧ ∀ f g i j l, f ∈ frames → g ∈ frames →
      poses h f !! i = Some l → poses h g !! j = Some l → f = g ∧ i = j.

(** A heap with three pose objects: 100 holds both shoulders (landmark
    objects 0 and 1), 101 holds a right shoulder only (landmark object 2)
    and 102 a left shoulder the detector is unsure of (landmark
    object 3). *)
Definition sample_heap : heap :=
  mkHeap
    (λ l, match l with
          | 0 => shoulder 0.4 0.5 0 1
          | 1 => shoulder 0.6 0.5 0 1
          | 2 => shoulder 0.7 0.5 0 1
          | _ => shoulder 0.5 0.5 0 0.1
          end)
    (λ q, match q with
          | 100 => <[L_SHOULDER := 0]> (<[R_SHOULDER := 1]> ∅)
          | 101 => <[R_SHOULDER := 2]> ∅
          | 102 => <[L_SHOULDER := 3]> ∅
          | _ => ∅
          end).

(** The landmark object the loop smooths at index [i] of the raw frame
    [pose]: the one the state holds there, else the raw one. *)
Definition target (h : heap) (cur pose : loc) (i : nat) : option loc :=
  (λ p, default p (poses h cur !! i)) <$> poses h pose !! i.

(** ** Vocabulary of the further properties *)

(** The shoulders [ls] and [rs] of [lm] pass every guard of
    [horizontalScoreDetailed], and their distance in the X-Z plane is a
    finite number (no difference overflowed). *)
Definition measurable (lm : PoseLandmarks) (ls rs : Landmark) : Prop :=
  lm !! L_SHOULDER = Some ls ∧ lm !! R_SHOULDER = Some rs
  ∧ isVisible (Some ls) = true ∧ isVisible (Some rs) = true
  ∧ Number.isFinite (z ls) = true ∧ Number.isFinite (z rs) = true
  ∧ ∃ ℓ : R,
      Math.hypot (sub (x ls) (x rs)) (sub (z ls) (z rs)) = Fin ℓ
      ∧ (1e-6 <= ℓ)%R.

(** Shoulders in profile: same x, depths 0.2 apart. *)
Definition pose_profile : PoseLandmarks :=
  <[L_SHOULDER := shoulder 0.5 0.5 0.1 1]>
    (<[R_SHOULDER := shoulder 0.5 0.5 (-0.1) 1]> ∅).

(** Shoulders for which the detector gave no visibility. *)
Definition pose_no_visibility : PoseLandmarks :=
  <[L_SHOULDER := mkLandmark (Fin 0.4) (Fin 0.5) (Fin 0) None]>
    (<[R_SHOULDER := mkLandmark (Fin 0.6) (Fin 0.5) (Fin 0) None]> ∅).

(** The frontal pose lower in the image, and deeper with a lower
    visibility. *)
Definition pose_frontal_low : PoseLandmarks :=
  <[L_SHOULDER := shoulder 0.4 0.8 0 1]>
    (<[R_SHOULDER := shoulder 0.6 0.8 0 1]> ∅).

Definition pose_frontal_deep : PoseLandmarks :=
  <[L_SHOULDER := shoulder 0.4 0.5 0.3 0.9]>
    (<[R_SHOULDER := shoulder 0.6 0.5 0.3 0.9]> ∅).

(** ** The smoother on pose values *)

(** One update of the smoother read on the poses the objects denote: an
    index of the raw pose is smoothed against the state (against itself
    when the state lacks it), the other indices of the state stay. *)
Definition smooth_pose (st raw : PoseLandmarks) : PoseLandmarks :=
  merge (λ s p, match p with
                | Some p => Some (smoothed p (default p s))
                | None => s
                end) st raw.

(** The state [cur] and the frames [fs] still to come are pose objects
    of their own, and a landmark object occurs once among them. *)
Definition session (h : heap) (cur : loc) (fs : list loc) : Prop :=
  (cur ∉ fs) ∧ NoDup fs
  ∧ distinct_objects (poses h cur)
  ∧ (∀ f g j j' l, f ∈ fs → g ∈ fs →
       poses h f !! j = Some l → poses h g !! j' = Some l → f = g ∧ j = j')
  ∧ (∀ f, f ∈ fs → separate (poses h cur) (poses h f)).

(** A number whose value lies in the interval [lo, hi]. *)
Definition within (lo hi : R) (a : number) : Prop :=
  ∃ r : R, a = Fin r ∧ (lo <= r <= hi)%R.

(** ** The score buffer between two passes *)

(** Every array of the buffer holds between 1 and [BUFFER_SIZE] values;
    every value of the buffer is a score in [0,1]. *)
Definition buffer_ok (b : ScoreAggregator.buffers) : Prop :=
  ∀ k arr, b !! k = Some arr → 1 ≤ length arr ≤ BUFFER_SIZE.

Definition scores_ok (b : ScoreAggregator.buffers) : Prop :=
  ∀ k arr, b !! k = Some arr → Forall in01 arr.

Definition sample_buffer : ScoreAggregator.buffers :=
  {[ "horizontalScore"%string := [Fin 1; Fin 0] ]}.

(** ** The passes of a session *)

(** The passes of the render loop on the poses detected in a session,
    each pass scheduling the next. *)
Fixpoint renderLoops (σ : LandmarkSmoother.state)
    (buffer : ScoreAggregator.buffers) (frames : list loc)
    : option (LandmarkSmoother.state * ScoreAggregator.buffers) :=
  match frames with
  | [] => Some (σ, buffer)
  | pose :: frames =>
      r ← renderLoop σ buffer pose;
      renderLoops r.1.1.1 r.1.1.2 frames
  end.

(** The smoothed poses the passes score, in order. *)
Fixpoint smoothed_poses (σ : LandmarkSmoother.state) (frames : list loc)
    : list PoseLandmarks :=
  match frames with
  | [] => []
  | pose :: frames =>
      LandmarkSmoother.output (LandmarkSmoother.update σ pose)
      :: smoothed_poses (LandmarkSmoother.update σ pose) frames
  end.

(** ** lib/labelParser.ts

    A string is the list of its UTF-16 code units.  [code] gives the
    code unit of an ASCII character and [units] the string of an ASCII
    text, so that [units "0.7"] is the JavaScript string '0.7'. *)

Definition code (c : ascii) : N := N_of_ascii c.

Definition units (s : string) : list N :=
  code <$> String.list_ascii_of_string s.

(** The object literal [ALIAS], and [ALIAS[ch]] ([None] is
    [undefined]). *)
Definition ALIAS : list (N * list N) :=
  [ (code "I", units "1"); (code "i", units "1"); (code "l", units "1");
    (code "|", units "1"); (code "!", units "1");
    (code "O", units "0"); (code "o", units "0") ].

Fixpoint property (o : list (N * list N)) (k : N) : option (list N) :=
  match o with
  | [] => None
  | (k', v) :: o => if decide (k' = k) then Some v else property o k
  end.

(** [s.replace(pat, rep)] for one-unit strings: the first occurrence
    only. *)
Fixpoint replace_first (pat rep : N) (s : list N) : list N :=
  match s with
  | [] => []
  | c :: s => if decide (c = pat) then rep :: s
              else c :: replace_first pat rep s
  end.

(** The code units [trim] strips: white space (TAB, VT, FF, SP, NBSP,
    the other space separators, ZWNBSP) and line terminators (LF, CR, LS,
    PS). *)
Definition isWhiteSpace (c : N) : bool :=
  bool_decide (c ∈ [9; 10; 11; 12; 13; 32; 160; 5760; 8192; 8193; 8194;
                     8195; 8196; 8197; 8198; 8199; 8200; 8201; 8202; 8232;
                     8233; 8239; 8287; 12288; 65279]%N).

Fixpoint trimStart (s : list N) : list N :=
  match s with
  | [] => []
  | c :: s' => if isWhiteSpace c then trimStart s' else s
  end.

Definition trimEnd (s : list N) : list N :=
  reverse (trimStart (reverse s)).

Definition trim (s : list N) : list N := trimEnd (trimStart s).

Definition norm (raw : list N) : list N :=
  trim (replace_first (code ",") (code ".") raw
          ≫= λ ch, default [ch] (property ALIAS ch)).

(** Regular expressions, and [/^r$/.test(s)] by derivatives. *)
Inductive regex : Type :=
  | Never
  | Eps
  | Chr (c : N)
  | Range (lo hi : N)
  | Seq (r s : regex)
  | Alt (r s : regex)
  | Star (r : regex).

Definition Plus (r : regex) : regex := Seq r (Star r).
Definition Opt (r : regex) : regex := Alt r Eps.

Fixpoint nullable (r : regex) : bool :=
  match r with
  | Never | Chr _ | Range _ _ => false
  | Eps | Star _ => true
  | Seq r s => nullable r && nullable s
  | Alt r s => nullable r || nullable s
  end.

Fixpoint deriv (c : N) (r : regex) : regex :=
  match r with
  | Never | Eps => Never
  | Chr c' => if decide (c = c') then Eps else Never
  | Range lo hi => if decide (lo ≤ c ≤ hi)%N then Eps else Never
  | Seq r s =>
      if nullable r then Alt (Seq (deriv c r) s) (deriv c s)
      else Seq (deriv c r) s
  | Alt r s => Alt (deriv c r) (deriv c s)
  | Star r => Seq (deriv c r) (Star r)
  end.

Definition test (r : regex) (s : list N) : bool :=
  nullable (foldl (λ r c, deriv c r) r s).

(** The four patterns of [parseLabelToken]:
    [/^0+(\.0+)?$/], [/^0\.[0-9]$/], [/^0[0-9]$/] and
    [/^[2-9][0-9]*$/]. *)
Definition RE_zero : regex :=
  Seq (Plus (Chr (code "0")))
      (Opt (Seq (Chr (code ".")) (Plus (Chr (code "0"))))).

Definition RE_one_decimal : regex :=
  Seq (Chr (code "0")) (Seq (Chr (code ".")) (Range (code "0") (code "9"))).

Definition RE_zero_digit : regex :=
  Seq (Chr (code "0")) (Range (code "0") (code "9")).

Definition RE_first_digit : regex :=
  Seq (Range (code "2") (code "9")) (Star (Range (code "0") (code "9"))).

(** [ToNumber] on a string, for the strings the parser converts:
    unsigned decimal literals without exponent ([7], [0.4], [.5], [5.]).
    A string that is no such literal reads as [NaN] here; signs,
    exponents, other radices and surrounding white space are left out,
    no call of the source meets them. *)
Definition digit (c : N) : option nat :=
  if decide (code "0" ≤ c ≤ code "9")%N
  then Some (N.to_nat (c - code "0")) else None.

Fixpoint digits_value (acc : nat) (s : list N) : option nat :=
  match s with
  | [] => Some acc
  | c :: s => d ← digit c; digits_value (10 * acc + d) s
  end.

Fixpoint before_dot (s : list N) : list N :=
  match s with
  | [] => []
  | c :: s => if decide (c = code ".") then [] else c :: before_dot s
  end.

Definition to_number (s : list N) : number :=
  let ip := before_dot s in
  let fp := drop (S (length ip)) s in
  if decide (s = []) then Fin 0
  else if decide (ip = [] ∧ fp = []) then NaN
  else match digits_value 0 ip, digits_value 0 fp with
       | Some i, Some f => overflow (INR i + INR f / 10 ^ length fp)
       | _, _ => NaN
       end.

(** [+s[i]]: the number of the one-unit string at index [i], [NaN] when
    there is none ([+undefined]). *)
Definition unit_to_number (s : list N) (i : nat) : number :=
  match s !! i with
  | Some c => to_number [c]
  | None => NaN
  end.

Definition startsWith (s prefix : list N) : bool :=
  bool_decide (prefix `prefix_of` s).

(** [parseLabelToken]: [None] is [null]. *)
Definition parseLabelToken (raw : list N) : option number :=
  let tok := norm raw in
  if decide (tok = []) then None
  else if test RE_zero tok then Some (Fin 0)
  else if startsWith tok (units "1") then Some (Fin 1)
  else if test RE_one_decimal tok then Some (to_number tok)
  else if test RE_zero_digit tok then
    Some (div (unit_to_number tok 1) (Fin 10))
  else if test RE_first_digit tok then
    Some (div (unit_to_number tok 0) (Fin 10))
  else None.

(** The strings a regular expression denotes. *)
Inductive star_lang (L : list N → Prop) : list N → Prop :=
  | star_nil : star_lang L []
  | star_app (s1 s2 : list N) :
      L s1 → star_lang L s2 → star_lang L (s1 ++ s2).

Fixpoint lang (r : regex) (s : list N) : Prop :=
  match r with
  | Never => False
  | Eps => s = []
  | Chr c => s = [c]
  | Range lo hi => ∃ c, s = [c] ∧ (lo ≤ c ≤ hi)%N
  | Seq r1 r2 => ∃ s1 s2, s = s1 ++ s2 ∧ lang r1 s1 ∧ lang r2 s2
  | Alt r1 r2 => lang r1 s ∨ lang r2 s
  | Star r => star_lang (lang r) s
  end.

(** The code unit of the decimal digit [d]. *)
Definition digit_unit (d : nat) : N := (code "0" + N.of_nat d)%N.

(** A code unit that is a decimal digit; a look-alike of the digit 1. *)
Definition is_digit (c : N) : Prop := (code "0" ≤ c ≤ code "9")%N.

Definition looks_like_1 (c : N) : Prop :=
  c ∈ [code "1"; code "I"; code "i"; code "l"; code "|"; code "!"].

(** White space as [trim] sees it; the units of a plain decimal
    literal. *)
Definition is_ws (c : N) : Prop := isWhiteSpace c = true.

Definition plain (c : N) : Prop := is_digit c ∨ c = code ".".

(** ** hooks/usePoseLandmarker.ts

    The end of [process], from the answer of the detector on:
    [landmarks] is [result?.landmarks] ([None] when the result or the
    field is missing), the detected poses, each the array of its
    landmarks. *)
Definition process {A : Type} (landmarks : option (list (list A)))
    : option (gmap nat A) :=
  match landmarks with
  | Some (landmarkArray :: _) => Some (map_seq 0 landmarkArray)
  | _ => None
  end.

(** ** components/ImageUpload.tsx and components/ScoreDisplay.tsx *)

(** The error of an analysed image against its label ([None] is [null],
    no label was read). *)
Definition abs_error (manual_score : option number)
    (horizontalScore : number) : option number :=
  m ← manual_score; Some (Math.abs (sub m horizontalScore)).

(** The tint of the card of an image. *)
Definition getTint (d : option number) : string :=
  match d with
  | None => "#ffffff"
  | Some d =>
      if le d (Fin 0.10) then "#e8fbe8"
      else if le d (Fin 0.25) then "#e6f1ff"
      else if le d (Fin 0.50) then "#fff9d9"
      else "#ffecec"
  end.

(** The badge of the error row of [ScoreDisplay]; the row is rendered
    only when there is an error to show. *)
Definition badge (delta : option number) : option string :=
  d ← delta; Some (if le d (Fin 0.25) then "✅" else "❌")%string.

(** A heap for a session in which the left shoulder gets occluded: the
    frame 200 shows both shoulders with visibility 1 (landmark objects 0
    and 1), the frame 201 shows the left one with visibility 0.1 and the
    right one unchanged (landmark objects 2 and 3). *)
Definition occlusion_heap : heap :=
  mkHeap
    (λ l, match l with
          | 0 => shoulder 0.4 0.5 0 1
          | 1 => shoulder 0.6 0.5 0 1
          | 2 => shoulder 0.5 0.5 0 0.1
          | _ => shoulder 0.6 0.5 0 1
          end)
    (λ q, match q with
          | 200 => <[L_SHOULDER := 0]> (<[R_SHOULDER := 1]> ∅)
          | 201 => <[L_SHOULDER := 2]> (<[R_SHOULDER := 3]> ∅)
          | _ => ∅
          end).

(** A landmark of a detected pose: coordinates within [-100, 100]
    (they are normalised, about [0,1]) and, when it has one, a visibility
    in [0,1]; a pose whose landmarks are all so. *)
Definition bounded_landmark (l : Landmark) : Prop :=
  within (-100) 100 (x l) ∧ within (-100) 100 (y l)
  ∧ within (-100) 100 (z l)
  ∧ ∀ v, visibility l = Some v → in01 v.

Definition bounded_pose (lm : PoseLandmarks) : Prop :=
  ∀ i l, lm !! i = Some l → bounded_landmark l.

(** * Properties *)

(** ** Numbers *)

Lemma pow2_ge_1 (n : nat) : (1 <= 2 ^ n)%R.
Proof. apply pow_R1_Rle. lra. Qed.

Lemma MAX_VALUE_ge : (3 <= MAX_VALUE)%R.
Proof.
  unfold MAX_VALUE.
  assert (H52 : (1 <= 2 ^ 51)%R) by apply pow2_ge_1.
  assert (H1022 : (1 <= 2 ^ 1022)%R) by apply pow2_ge_1.
  replace (2 ^ 52)%R with (2 * 2 ^ 51)%R by (simpl; lra).
  replace (2 ^ 1023)%R with (2 * 2 ^ 1022)%R by (change 1023 with (S 1022); simpl; lra).
  assert (Hinv : (/ (2 * 2 ^ 51) <= / 2)%R).
  { apply Rinv_le_contravar; lra. }
  nra.
Qed.

Lemma overflow_Fin (r : R) :
  (- MAX_VALUE <= r <= MAX_VALUE)%R → overflow r = Fin r.
Proof.
  intros [Hlo Hhi]. unfold overflow.
  destruct (Rlt_dec MAX_VALUE r); [lra|].
  destruct (Rlt_dec r (- MAX_VALUE)); [lra|]. reflexivity.
Qed.

Lemma overflow_small (r : R) : (-3 <= r <= 3)%R → overflow r = Fin r.
Proof. intros H. apply overflow_Fin. pose proof MAX_VALUE_ge. lra. Qed.

Lemma le_gt_false (a b : number) : le a b = true → gt a b = false.
Proof.
  unfold gt, le, lt. destruct a, b; try done.
  destruct (Rle_dec r r0), (Rlt_dec r0 r); try done. lra.
Qed.

(** ** The scoring functions return *)

Lemma isVisible_Some (o : option Landmark) :
  isVisible o = true → ∃ l, o = Some l ∧ gt (nullish (visibility l) (Fin 1)) VIS_THRESHOLD = true.
Proof. destruct o as [l|]; [eauto | done]. Qed.

Lemma unusable_not_visible (o : option Landmark) :
  unusable o → isVisible o = false.
Proof. destruct o as [l|]; [apply le_gt_false | done]. Qed.

(** For a visibility that is a number, a present landmark is usable
    exactly when it is not unusable. *)
Lemma isVisible_iff (l : Landmark) :
  isVisible (Some l) = true
  ↔ ¬ unusable (Some l) ∧ nullish (visibility l) (Fin 1) ≠ NaN.
Proof.
  simpl. unfold gt. destruct (nullish (visibility l) (Fin 1)) as [| | |r];
    simpl; try (by intuition).
  destruct (Rlt_dec 0.3 r), (Rle_dec r 0.3); try lra; by intuition.
Qed.

Lemma horizontalScoreDetailed_total (lm : PoseLandmarks) :
  is_Some (horizontalScoreDetailed lm).
Proof.
  unfold horizontalScoreDetailed.
  destruct (isVisible (lm !! L_SHOULDER)) eqn:Hl; [|by eexists].
  destruct (isVisible (lm !! R_SHOULDER)) eqn:Hr; [|by eexists].
  apply isVisible_Some in Hl as (ls & -> & _).
  apply isVisible_Some in Hr as (rs & -> & _). simpl.
  destruct (Number.isFinite (z ls)); [|by eexists].
  destruct (Number.isFinite (z rs)); [|by eexists]. simpl.
  destruct (lt _ _); by eexists.
Qed.

Lemma horizontalScore_total (lm : PoseLandmarks) :
  is_Some (horizontalScore lm).
Proof.
  unfold horizontalScore.
  destruct (horizontalScoreDetailed_total lm) as [d ->]. by eexists.
Qed.

Lemma shoulderTiltScore_total (lm : PoseLandmarks) :
  is_Some (shoulderTiltScore lm).
Proof.
  unfold shoulderTiltScore.
  destruct (isVisible (lm !! L_SHOULDER)) eqn:Hl; [|by eexists].
  destruct (isVisible (lm !! R_SHOULDER)) eqn:Hr; [|by eexists].
  apply isVisible_Some in Hl as (ls & -> & _).
  apply isVisible_Some in Hr as (rs & -> & _). simpl.
  destruct (_ && _); by eexists.
Qed.

Lemma computeAllMetrics_total (lm : PoseLandmarks) :
  is_Some (computeAllMetrics lm).
Proof.
  unfold computeAllMetrics.
  destruct (horizontalScore_total lm) as [h ->].
  destruct (shoulderTiltScore_total lm) as [t ->]. by eexists.
Qed.

(** ** The blank record *)

(** C2. When landmark 11 or 12 is absent or has visibility at most 0.3,
    or a shoulder's depth is not finite, or the shoulders are closer than
    1e-6 in the X-Z plane, [horizontalScoreDetailed] returns (it does not
    throw) the blank record: score 0, angle 90, dx 0, dz 0, visSym 0, and
    both echoes at x = y = z = NaN, v = 0. *)
Theorem horizontalScoreDetailed_blank (lm : PoseLandmarks) :
  unusable (lm !! L_SHOULDER) ∨ unusable (lm !! R_SHOULDER)
  ∨ (∃ ls, lm !! L_SHOULDER = Some ls ∧ Number.isFinite (z ls) = false)
  ∨ (∃ rs, lm !! R_SHOULDER = Some rs ∧ Number.isFinite (z rs) = false)
  ∨ (∃ ls rs, lm !! L_SHOULDER = Some ls ∧ lm !! R_SHOULDER = Some rs
       ∧ lt (Math.hypot (sub (x ls) (x rs)) (sub (z ls) (z rs))) EPSILON = true) →
  horizontalScoreDetailed lm =
    Some {| score := Fin 0; angleDeg := Fin 90; dx := Fin 0; dz := Fin 0;
            visSym := Fin 0;
            left := Snapshot.mk NaN NaN NaN (Fin 0);
            right := Snapshot.mk NaN NaN NaN (Fin 0) |}.
Proof.
  intros H. fold blank. unfold horizontalScoreDetailed.
  destruct (isVisible (lm !! L_SHOULDER)) eqn:Hl; [|done].
  destruct (isVisible (lm !! R_SHOULDER)) eqn:Hr; [|done].
  destruct H as [H|[H|H]].
  { apply unusable_not_visible in H. congruence. }
  { apply unusable_not_visible in H. congruence. }
  apply isVisible_Some in Hl as (ls & Els & _).
  apply isVisible_Some in Hr as (rs & Ers & _).
  rewrite Els, Ers in *. simpl.
  destruct H as [(l & [= <-] & Hz)|[(r & [= <-] & Hz)|(l & r & [= <-] & [= <-] & Hlen)]].
  - by rewrite Hz.
  - rewrite Hz. by destruct (Number.isFinite (z ls)).
  - rewrite Hlen.
    destruct (Number.isFinite (z ls)); [|done].
    by destruct (Number.isFinite (z rs)).
Qed.

Lemma horizontalScoreDetailed_blank_witness :
  unusable (pose_dim_left !! L_SHOULDER)
  ∧ horizontalScoreDetailed pose_dim_left = Some blank.
Proof.
  assert (H : unusable (pose_dim_left !! L_SHOULDER)).
  { unfold pose_dim_left. rewrite lookup_insert_eq. simpl.
    destruct (Rle_dec 0.2 0.3); [reflexivity | lra]. }
  split; [exact H|].
  apply (horizontalScoreDetailed_blank pose_dim_left). left. exact H.
Defined.

(** ** The general-purpose result *)

(** C7. [computeAllMetrics] returns exactly the two entries
    [horizontalScore] and [shoulderTiltScore] (no combined score), whose
    values are those of [horizontalScore] and [shoulderTiltScore], and
    [horizontalScore] is the [score] field of [horizontalScoreDetailed]. *)
Theorem computeAllMetrics_entries (lm : PoseLandmarks) :
  ∃ d sRoll,
    horizontalScoreDetailed lm = Some d
    ∧ horizontalScore lm = Some (score d)
    ∧ shoulderTiltScore lm = Some sRoll
    ∧ computeAllMetrics lm =
        Some [ ("horizontalScore"%string, score d);
               ("shoulderTiltScore"%string, sRoll) ].
Proof.
  destruct (horizontalScoreDetailed_total lm) as [d Hd].
  destruct (shoulderTiltScore_total lm) as [t Ht].
  exists d, t.
  unfold computeAllMetrics, horizontalScore. rewrite Hd, Ht. done.
Qed.

(** ** Only the shoulders are read *)

(** C10. Two poses that agree on indices 11 and 12 (same landmark, or
    absent from both) get equal results from all five functions: no
    other index is read. *)
Theorem scores_depend_on_shoulders_only (lm1 lm2 : PoseLandmarks) :
  lm1 !! L_SHOULDER = lm2 !! L_SHOULDER →
  lm1 !! R_SHOULDER = lm2 !! R_SHOULDER →
  horizontalScoreDetailed lm1 = horizontalScoreDetailed lm2
  ∧ horizontalScore lm1 = horizontalScore lm2
  ∧ shoulderTiltScore lm1 = shoulderTiltScore lm2
  ∧ shoulderSquareness lm1 = shoulderSquareness lm2
  ∧ computeAllMetrics lm1 = computeAllMetrics lm2.
Proof.
  intros Hl Hr.
  assert (Hd : horizontalScoreDetailed lm1 = horizontalScoreDetailed lm2).
  { unfold horizontalScoreDetailed. by rewrite Hl, Hr. }
  assert (Hh : horizontalScore lm1 = horizontalScore lm2).
  { unfold horizontalScore. by rewrite Hd. }
  assert (Ht : shoulderTiltScore lm1 = shoulderTiltScore lm2).
  { unfold shoulderTiltScore. by rewrite Hl, Hr. }
  repeat split; try done.
  - unfold shoulderSquareness. by rewrite Hh, Ht.
  - unfold computeAllMetrics. by rewrite Hh, Ht.
Qed.

Lemma scores_depend_on_shoulders_only_witness :
  pose_frontal_nose !! 0 ≠ pose_frontal !! 0
  ∧ horizontalScoreDetailed pose_frontal_nose = horizontalScoreDetailed pose_frontal
  ∧ horizontalScore pose_frontal_nose = horizontalScore pose_frontal
  ∧ shoulderTiltScore pose_frontal_nose = shoulderTiltScore pose_frontal
  ∧ shoulderSquareness pose_frontal_nose = shoulderSquareness pose_frontal
  ∧ computeAllMetrics pose_frontal_nose = computeAllMetrics pose_frontal.
Proof.
  split.
  - unfold pose_frontal_nose. rewrite lookup_insert_eq.
    unfold pose_frontal, L_SHOULDER, R_SHOULDER.
    rewrite !lookup_insert_ne by done. by rewrite lookup_empty.
  - apply (scores_depend_on_shoulders_only pose_frontal_nose pose_frontal);
      unfold pose_frontal_nose, L_SHOULDER, R_SHOULDER;
      by rewrite lookup_insert_ne.
Defined.

(** ** Exchanging the shoulders *)

Lemma neg_overflow (r : R) : neg (overflow r) = overflow (- r).
Proof.
  pose proof MAX_VALUE_ge. unfold overflow.
  destruct (Rlt_dec MAX_VALUE r), (Rlt_dec r (- MAX_VALUE)),
    (Rlt_dec MAX_VALUE (- r)), (Rlt_dec (- r) (- MAX_VALUE));
    simpl; try reflexivity; lra.
Qed.

Lemma sub_swap (a b : number) : sub b a = neg (sub a b).
Proof.
  unfold sub. destruct a as [| | |r], b as [| | |s]; simpl; try reflexivity.
  rewrite neg_overflow. f_equal. lra.
Qed.

Lemma abs_neg (a : number) : Math.abs (neg a) = Math.abs a.
Proof. destruct a; simpl; try reflexivity. by rewrite Rabs_Ropp. Qed.

Lemma hypot_neg (a b : number) : Math.hypot (neg a) (neg b) = Math.hypot a b.
Proof.
  destruct a as [| | |r], b as [| | |s]; simpl; try reflexivity.
  do 2 f_equal. lra.
Qed.

Lemma swapShoulders_left (lm : PoseLandmarks) :
  swapShoulders lm !! L_SHOULDER = lm !! R_SHOULDER.
Proof. unfold swapShoulders. by rewrite lookup_partial_alter_eq. Qed.

Lemma swapShoulders_right (lm : PoseLandmarks) :
  swapShoulders lm !! R_SHOULDER = lm !! L_SHOULDER.
Proof.
  unfold swapShoulders.
  rewrite lookup_partial_alter_ne by done. by rewrite lookup_partial_alter_eq.
Qed.

(** C9. Exchanging the landmarks stored at indices 11 and 12 (positions
    and visibilities together) changes neither [horizontalScore] nor
    [shoulderTiltScore]. *)
Theorem scores_swap_invariant (lm : PoseLandmarks) :
  horizontalScore (swapShoulders lm) = horizontalScore lm
  ∧ shoulderTiltScore (swapShoulders lm) = shoulderTiltScore lm.
Proof.
  split.
  - unfold horizontalScore, horizontalScoreDetailed.
    rewrite swapShoulders_left, swapShoulders_right.
    destruct (isVisible (lm !! L_SHOULDER)) eqn:Hl;
      destruct (isVisible (lm !! R_SHOULDER)) eqn:Hr; try done.
    apply isVisible_Some in Hl as (ls & -> & _).
    apply isVisible_Some in Hr as (rs & -> & _). simpl.
    destruct (Number.isFinite (z ls)), (Number.isFinite (z rs)); try done.
    simpl.
    rewrite (sub_swap (x ls) (x rs)), (sub_swap (z ls) (z rs)).
    rewrite (sub_swap (nullish (visibility ls) (Fin 1))
                      (nullish (visibility rs) (Fin 1))).
    rewrite hypot_neg, !abs_neg.
    by destruct (lt _ EPSILON).
  - unfold shoulderTiltScore.
    rewrite swapShoulders_left, swapShoulders_right.
    destruct (isVisible (lm !! L_SHOULDER)) eqn:Hl;
      destruct (isVisible (lm !! R_SHOULDER)) eqn:Hr; try done.
    apply isVisible_Some in Hl as (ls & -> & _).
    apply isVisible_Some in Hr as (rs & -> & _). simpl.
    rewrite (sub_swap (x ls) (x rs)), (sub_swap (y ls) (y rs)).
    by rewrite !abs_neg.
Qed.

(** ** The fields of the debug record *)

Lemma le_lt_false (a b : number) : le a b = true → lt b a = false.
Proof. apply le_gt_false. Qed.

(** The record computed once the guards are passed. *)
Lemma horizontalScoreDetailed_usable (lm : PoseLandmarks) (ls rs : Landmark) :
  lm !! L_SHOULDER = Some ls → lm !! R_SHOULDER = Some rs →
  isVisible (Some ls) = true → isVisible (Some rs) = true →
  Number.isFinite (z ls) = true → Number.isFinite (z rs) = true →
  lt (Math.hypot (sub (x ls) (x rs)) (sub (z ls) (z rs))) EPSILON = false →
  horizontalScoreDetailed lm =
    Some {| score :=
              mul (div (Math.abs (sub (x ls) (x rs)))
                       (Math.hypot (sub (x ls) (x rs)) (sub (z ls) (z rs))))
                  (sub (Fin 1)
                     (Math.abs (sub (nullish (visibility ls) (Fin 1))
                                    (nullish (visibility rs) (Fin 1)))));
            angleDeg :=
              div (mul (Math.atan2 (Math.abs (sub (z ls) (z rs)))
                                   (Math.abs (sub (x ls) (x rs))))
                       (Fin 180)) Math.PI;
            dx := Math.abs (sub (x ls) (x rs));
            dz := Math.abs (sub (z ls) (z rs));
            visSym :=
              sub (Fin 1)
                (Math.abs (sub (nullish (visibility ls) (Fin 1))
                               (nullish (visibility rs) (Fin 1))));
            left := Snapshot.mk (x ls) (y ls) (z ls)
                      (nullish (visibility ls) (Fin 0));
            right := Snapshot.mk (x rs) (y rs) (z rs)
                       (nullish (visibility rs) (Fin 0)) |}.
Proof.
  intros El Er Hl Hr Hzl Hzr Hlen. unfold horizontalScoreDetailed.
  rewrite El, Er, Hl, Hr. simpl. rewrite Hzl, Hzr. simpl. by rewrite Hlen.
Qed.

Lemma sqrt_sum_squares_0 (r : R) : R_sqrt.sqrt (r * r + 0 * 0) = Rabs r.
Proof.
  replace (r * r + 0 * 0)%R with (Rsqr r) by (unfold Rsqr; lra).
  apply sqrt_Rsqr_abs.
Qed.

(** The sample pose [pose_frontal] passes every guard; its shoulders are
    0.2 apart. *)
Lemma pose_frontal_left :
  pose_frontal !! L_SHOULDER = Some (shoulder 0.4 0.5 0 1).
Proof. unfold pose_frontal. by rewrite lookup_insert_eq. Qed.

Lemma pose_frontal_right :
  pose_frontal !! R_SHOULDER = Some (shoulder 0.6 0.5 0 1).
Proof.
  unfold pose_frontal. rewrite lookup_insert_ne by done.
  by rewrite lookup_insert_eq.
Qed.

Lemma shoulder_visible (a b c : R) : isVisible (Some (shoulder a b c 1)) = true.
Proof. simpl. unfold gt. simpl. destruct (Rlt_dec 0.3 1); [done | lra]. Qed.

Lemma pose_frontal_len :
  Math.hypot (sub (Fin 0.4) (Fin 0.6)) (sub (Fin 0) (Fin 0)) = Fin 0.2.
Proof.
  unfold sub. simpl. rewrite !overflow_small by lra. simpl.
  replace (0 + - 0)%R with 0%R by lra. rewrite sqrt_sum_squares_0.
  replace (Rabs (0.4 + - (0.6))) with 0.2%R
    by (unfold Rabs; destruct (Rcase_abs _); lra).
  apply overflow_small. lra.
Qed.

Lemma pose_frontal_len_ge :
  le EPSILON (Math.hypot (sub (Fin 0.4) (Fin 0.6)) (sub (Fin 0) (Fin 0))) = true.
Proof.
  rewrite pose_frontal_len. simpl. destruct (Rle_dec 1e-6 0.2); [done | lra].
Qed.

(** C8, as amended. When both shoulders are usable, both depths finite
    and the shoulders at least 1e-6 apart in the X-Z plane, the record
    carries the absolute gaps dx = |Lx - Rx| and dz = |Lz - Rz| (never a
    negative one), and score = (|Lx - Rx| / len) * visSym. *)
Theorem horizontalScoreDetailed_fields (lm : PoseLandmarks) (ls rs : Landmark) :
  lm !! L_SHOULDER = Some ls → lm !! R_SHOULDER = Some rs →
  isVisible (Some ls) = true → isVisible (Some rs) = true →
  Number.isFinite (z ls) = true → Number.isFinite (z rs) = true →
  le EPSILON (Math.hypot (sub (x ls) (x rs)) (sub (z ls) (z rs))) = true →
  ∃ d, horizontalScoreDetailed lm = Some d
    ∧ dx d = Math.abs (sub (x ls) (x rs))
    ∧ dz d = Math.abs (sub (z ls) (z rs))
    ∧ visSym d =
        sub (Fin 1)
          (Math.abs (sub (nullish (visibility ls) (Fin 1))
                         (nullish (visibility rs) (Fin 1))))
    ∧ score d =
        mul (div (Math.abs (sub (x ls) (x rs)))
                 (Math.hypot (sub (x ls) (x rs)) (sub (z ls) (z rs))))
            (visSym d).
Proof.
  intros El Er Hl Hr Hzl Hzr Hlen. apply le_lt_false in Hlen.
  eexists. split.
  - by apply (horizontalScoreDetailed_usable lm ls rs).
  - done.
Qed.

Lemma horizontalScoreDetailed_fields_witness :
  ∃ d, horizontalScoreDetailed pose_frontal = Some d
    ∧ dx d = Math.abs (sub (Fin 0.4) (Fin 0.6))
    ∧ dz d = Math.abs (sub (Fin 0) (Fin 0))
    ∧ visSym d = sub (Fin 1) (Math.abs (sub (Fin 1) (Fin 1)))
    ∧ score d =
        mul (div (Math.abs (sub (Fin 0.4) (Fin 0.6)))
                 (Math.hypot (sub (Fin 0.4) (Fin 0.6)) (sub (Fin 0) (Fin 0))))
            (visSym d).
Proof.
  apply (horizontalScoreDetailed_fields pose_frontal
           (shoulder 0.4 0.5 0 1) (shoulder 0.6 0.5 0 1)).
  - exact pose_frontal_left.
  - exact pose_frontal_right.
  - apply shoulder_visible.
  - apply shoulder_visible.
  - reflexivity.
  - reflexivity.
  - exact pose_frontal_len_ge.
Defined.

(** C8, as stated, fails: on [pose_frontal] every premise holds, the
    difference Lx - Rx is -0.2, and the record's [dx] is 0.2. *)
Lemma horizontalScoreDetailed_dx_signed_counterexample :
  ¬ (∀ (lm : PoseLandmarks) (ls rs : Landmark),
       lm !! L_SHOULDER = Some ls → lm !! R_SHOULDER = Some rs →
       isVisible (Some ls) = true → isVisible (Some rs) = true →
       Number.isFinite (z ls) = true → Number.isFinite (z rs) = true →
       le EPSILON (Math.hypot (sub (x ls) (x rs)) (sub (z ls) (z rs))) = true →
       ∃ d, horizontalScoreDetailed lm = Some d
         ∧ dx d = sub (x ls) (x rs)
         ∧ dz d = sub (z ls) (z rs)
         ∧ score d =
             mul (div (Math.abs (sub (x ls) (x rs)))
                      (Math.hypot (sub (x ls) (x rs)) (sub (z ls) (z rs))))
                 (visSym d)).
Proof.
  intros H.
  destruct (H pose_frontal (shoulder 0.4 0.5 0 1) (shoulder 0.6 0.5 0 1)
              pose_frontal_left pose_frontal_right
              (shoulder_visible _ _ _) (shoulder_visible _ _ _)
              eq_refl eq_refl pose_frontal_len_ge)
    as (d & Hd & Hdx & _).
  rewrite (horizontalScoreDetailed_usable pose_frontal
             (shoulder 0.4 0.5 0 1) (shoulder 0.6 0.5 0 1)) in Hd;
    [ | exact pose_frontal_left | exact pose_frontal_right
      | apply shoulder_visible | apply shoulder_visible | done | done
      | apply le_lt_false, pose_frontal_len_ge ].
  injection Hd as <-. simpl in Hdx.
  unfold sub in Hdx. simpl in Hdx. rewrite overflow_small in Hdx by lra.
  simpl in Hdx. injection Hdx as Hdx.
  pose proof (Rabs_pos (0.4 + - (0.6))). lra.
Qed.

(** ** The tilt score *)

Lemma div_PI_2 : div Math.PI (Fin 2) = Fin (PI / 2).
Proof.
  unfold Math.PI. simpl. destruct (Req_dec_T 2 0) as [E|_]; [lra|].
  apply overflow_small. pose proof PI_RGT_0. pose proof PI_4. lra.
Qed.

Lemma atan_nonneg (t : R) : (0 <= t)%R → (0 <= atan t)%R.
Proof.
  intros [Ht| <-].
  - apply atan_increasing in Ht. rewrite atan_0 in Ht. lra.
  - rewrite atan_0. lra.
Qed.

Lemma abs_nonneg (a : number) : a ≠ NaN → nonneg (Math.abs a).
Proof.
  destruct a as [| | |r]; intros H; try done; try (by left).
  right. exists (Rabs r). split; [done | apply Rabs_pos].
Qed.

Lemma atan2_quadrant (b a : number) :
  nonneg b → nonneg a →
  ∃ θ : R, Math.atan2 b a = Fin θ ∧ (0 <= θ <= PI / 2)%R.
Proof.
  pose proof PI_RGT_0.
  intros [->|(r & -> & Hr)] [->|(s & -> & Hs)]; simpl.
  - eexists; split; [done | lra].
  - eexists; split; [done | lra].
  - eexists; split; [done | lra].
  - destruct (Rlt_dec 0 s) as [Hs'|Hs'].
    + eexists; split; [done|].
      pose proof (atan_bound (r / s)).
      assert (0 <= r / s)%R.
      { apply Rmult_le_pos; [done|]. left. by apply Rinv_0_lt_compat. }
      pose proof (atan_nonneg _ H1). lra.
    + destruct (Rlt_dec s 0); [lra|].
      destruct (Rlt_dec 0 r); [eexists; split; [done | lra]|].
      destruct (Rlt_dec r 0); [lra|].
      eexists; split; [done | lra].
Qed.

(** The score of an angle of the first quadrant. *)
Lemma tilt_of_angle (θ : R) :
  (0 <= θ <= PI / 2)%R →
  sub (Fin 1) (div (Fin θ) (div Math.PI (Fin 2))) = Fin (1 + - (θ / (PI / 2)))
  ∧ (0 <= 1 + - (θ / (PI / 2)) <= 1)%R.
Proof.
  intros Hθ. pose proof PI2_RGT_0 as Hc.
  assert (Hq : (0 <= θ / (PI / 2) <= 1)%R).
  { assert (E : (θ / (PI / 2) * (PI / 2) = θ)%R) by (field; lra).
    split; nra. }
  split; [|lra].
  rewrite div_PI_2. simpl.
  destruct (Req_dec_T (PI / 2) 0) as [E|_]; [lra|].
  rewrite overflow_small by lra. unfold sub. simpl.
  apply overflow_small. lra.
Qed.

Lemma shoulderTiltScore_usable (lm : PoseLandmarks) (ls rs : Landmark) :
  lm !! L_SHOULDER = Some ls → lm !! R_SHOULDER = Some rs →
  isVisible (Some ls) = true → isVisible (Some rs) = true →
  shoulderTiltScore lm =
    Some (if lt (Math.abs (sub (x ls) (x rs))) EPSILON
             && lt (Math.abs (sub (y ls) (y rs))) EPSILON
          then Fin 0
          else sub (Fin 1)
                 (div (Math.atan2 (Math.abs (sub (y ls) (y rs)))
                                  (Math.abs (sub (x ls) (x rs))))
                      (div Math.PI (Fin 2)))).
Proof.
  intros El Er Hl Hr. unfold shoulderTiltScore.
  rewrite El, Er, Hl, Hr. simpl. by destruct (_ && _).
Qed.

Lemma shoulderTiltScore_not_visible (lm : PoseLandmarks) :
  isVisible (lm !! L_SHOULDER) = false ∨ isVisible (lm !! R_SHOULDER) = false →
  shoulderTiltScore lm = Some (Fin 0).
Proof.
  intros H. unfold shoulderTiltScore.
  destruct H as [-> | ->]; [done|].
  by destruct (isVisible (lm !! L_SHOULDER)).
Qed.

Lemma lt_EPSILON_zero : lt (Fin 0) EPSILON = true.
Proof. simpl. destruct (Rlt_dec 0 1e-6); [done | lra]. Qed.

(** The formula on a level line that is not degenerate. *)
Lemma tilt_level (a : number) :
  a ≠ NaN → lt (Math.abs a) EPSILON = false →
  sub (Fin 1)
    (div (Math.atan2 (Math.abs (Fin 0)) (Math.abs a)) (div Math.PI (Fin 2)))
  = Fin 1.
Proof.
  intros Ha Hlt.
  assert (Hθ : Math.atan2 (Math.abs (Fin 0)) (Math.abs a) = Fin 0).
  { destruct a as [| | |r]; try done. simpl. rewrite Rabs_R0.
    simpl in Hlt.
    destruct (Rlt_dec (Rabs r) 1e-6) as [|Hr']; [done|].
    destruct (Rlt_dec 0 (Rabs r)) as [_|Hr'']; [|lra].
    unfold Rdiv. by rewrite Rmult_0_l, atan_0. }
  rewrite Hθ. pose proof PI2_RGT_0.
  destruct (tilt_of_angle 0) as [-> _]; [lra|].
  f_equal. field. lra.
Qed.

(** The formula on a vertical line. *)
Lemma tilt_upright (b : number) :
  b ≠ Fin 0 → b ≠ NaN →
  sub (Fin 1)
    (div (Math.atan2 (Math.abs b) (Math.abs (Fin 0))) (div Math.PI (Fin 2)))
  = Fin 0.
Proof.
  intros Hb0 HbN.
  assert (Hθ : Math.atan2 (Math.abs b) (Math.abs (Fin 0)) = Fin (PI / 2)).
  { destruct b as [| | |r]; try done. simpl. rewrite Rabs_R0.
    destruct (Rlt_dec 0 0); [lra|].
    assert (0 < Rabs r)%R.
    { apply Rabs_pos_lt. intros ->. done. }
    destruct (Rlt_dec 0 (Rabs r)); [done | lra]. }
  rewrite Hθ. pose proof PI2_RGT_0.
  destruct (tilt_of_angle (PI / 2)) as [-> _]; [lra|].
  f_equal. field. lra.
Qed.

(** C5. [shoulderTiltScore] is 0 when a shoulder is unusable (absent or
    visibility at most 0.3; more generally, not passing [isVisible]) and
    when both |Lx - Rx| and |Ly - Ry| are below 1e-6; otherwise, for
    usable shoulders, it is 1 - atan2(|Ly - Ry|, |Lx - Rx|) / (π/2),
    which is 1 for a level shoulder line and 0 for a vertical one. *)
Theorem shoulderTiltScore_spec (lm : PoseLandmarks) :
  (unusable (lm !! L_SHOULDER) ∨ unusable (lm !! R_SHOULDER) →
   shoulderTiltScore lm = Some (Fin 0))
  ∧ (isVisible (lm !! L_SHOULDER) = false
     ∨ isVisible (lm !! R_SHOULDER) = false →
     shoulderTiltScore lm = Some (Fin 0))
  ∧ ∀ ls rs : Landmark,
      lm !! L_SHOULDER = Some ls → lm !! R_SHOULDER = Some rs →
      let dx := sub (x ls) (x rs) in
      let dy := sub (y ls) (y rs) in
      (lt (Math.abs dx) EPSILON = true ∧ lt (Math.abs dy) EPSILON = true →
       shoulderTiltScore lm = Some (Fin 0))
      ∧ (isVisible (Some ls) = true → isVisible (Some rs) = true →
         (¬ (lt (Math.abs dx) EPSILON = true
             ∧ lt (Math.abs dy) EPSILON = true) →
          shoulderTiltScore lm =
            Some (sub (Fin 1)
                    (div (Math.atan2 (Math.abs dy) (Math.abs dx))
                         (div Math.PI (Fin 2))))
          ∧ (dy = Fin 0 → dx ≠ NaN → shoulderTiltScore lm = Some (Fin 1)))
         ∧ (dx = Fin 0 → dy ≠ Fin 0 → dy ≠ NaN →
            shoulderTiltScore lm = Some (Fin 0))).
Proof.
  split; [|split].
  - intros H. apply shoulderTiltScore_not_visible.
    destruct H as [H|H]; apply unusable_not_visible in H; auto.
  - apply shoulderTiltScore_not_visible.
  - intros ls rs El Er dx dy. split.
    + intros [Hx Hy].
      destruct (isVisible (Some ls)) eqn:Hl; cycle 1.
      { apply shoulderTiltScore_not_visible. left. by rewrite El. }
      destruct (isVisible (Some rs)) eqn:Hr; cycle 1.
      { apply shoulderTiltScore_not_visible. right. by rewrite Er. }
      rewrite (shoulderTiltScore_usable lm ls rs) by done.
      fold dx dy. by rewrite Hx, Hy.
    + intros Hl Hr.
      rewrite (shoulderTiltScore_usable lm ls rs) by done. fold dx dy.
      split.
      * intros Hnd.
        destruct (lt (Math.abs dx) EPSILON) eqn:Hx;
          destruct (lt (Math.abs dy) EPSILON) eqn:Hy; cbn [andb];
          try (exfalso; by apply Hnd).
        -- split; [done|]. intros Edy _. exfalso.
           rewrite Edy in Hy. simpl in Hy. rewrite Rabs_R0 in Hy.
           pose proof lt_EPSILON_zero as H0. simpl in H0. congruence.
        -- split; [done|]. intros Edy Hdx. rewrite Edy. f_equal.
           by apply tilt_level.
        -- split; [done|]. intros Edy _. exfalso.
           rewrite Edy in Hy. simpl in Hy. rewrite Rabs_R0 in Hy.
           pose proof lt_EPSILON_zero as H0. simpl in H0. congruence.
      * intros Edx Hdy0 HdyN. rewrite Edx.
        destruct (lt (Math.abs (Fin 0)) EPSILON
                  && lt (Math.abs dy) EPSILON); [done|].
        f_equal. by apply tilt_upright.
Qed.

Lemma shoulderTiltScore_spec_witness :
  shoulderTiltScore pose_frontal = Some (Fin 1).
Proof.
  destruct (shoulderTiltScore_spec pose_frontal) as (_ & _ & H).
  destruct (H _ _ pose_frontal_left pose_frontal_right) as [_ H2].
  destruct (H2 (shoulder_visible _ _ _) (shoulder_visible _ _ _)) as [H3 _].
  destruct H3 as [_ H4].
  - intros [Hx _]. simpl in Hx. unfold sub in Hx. simpl in Hx.
    rewrite overflow_small in Hx by lra. simpl in Hx.
    destruct (Rlt_dec (Rabs (0.4 + - (0.6))) 1e-6) as [Hlt|]; [|done].
    unfold Rabs in Hlt. destruct (Rcase_abs _); lra.
  - apply H4.
    + simpl. unfold sub. simpl. rewrite overflow_small by lra. f_equal. lra.
    + simpl. unfold sub. simpl. by rewrite overflow_small by lra.
Defined.

(** ** The worked examples of the specification *)

Lemma Rabs_gap : Rabs (0.4 + - (0.6)) = 0.2%R.
Proof. unfold Rabs. destruct (Rcase_abs _); lra. Qed.

Lemma mul_Fin (r s : R) :
  (-3 <= r * s <= 3)%R → mul (Fin r) (Fin s) = Fin (r * s).
Proof. intros H. simpl. by apply overflow_small. Qed.

Lemma div_Fin (r s : R) :
  s ≠ 0%R → (-3 <= r / s <= 3)%R → div (Fin r) (Fin s) = Fin (r / s).
Proof.
  intros Hs H. simpl. destruct (Req_dec_T s 0); [done|].
  by apply overflow_small.
Qed.

Lemma tilt_frontal : shoulderTiltScore pose_frontal = Some (Fin 1).
Proof.
  rewrite (shoulderTiltScore_usable pose_frontal
             (shoulder 0.4 0.5 0 1) (shoulder 0.6 0.5 0 1));
    [ | exact pose_frontal_left | exact pose_frontal_right
      | apply shoulder_visible | apply shoulder_visible ].
  unfold shoulder. cbn [x y].
  assert (Hx : lt (Math.abs (sub (Fin 0.4) (Fin 0.6))) EPSILON = false).
  { unfold sub. simpl. rewrite overflow_small by lra. simpl.
    rewrite Rabs_gap. destruct (Rlt_dec 0.2 1e-6); [lra | done]. }
  rewrite Hx. cbn [andb]. f_equal.
  assert (Hy : sub (Fin 0.5) (Fin 0.5) = Fin 0).
  { unfold sub. simpl. rewrite overflow_small by lra. f_equal. lra. }
  rewrite Hy. apply tilt_level; [|done].
  unfold sub. simpl. by rewrite overflow_small by lra.
Qed.

(** L = (0.4, 0.5, 0, v = 1) and R = (0.6, 0.5, 0, v = 1): the record
    shows dx = 0.2, dz = 0, score 1 and angle 0; the tilt score and the
    squareness are 1. *)
Example pose_frontal_scores :
  (∃ d, horizontalScoreDetailed pose_frontal = Some d
     ∧ dx d = Fin 0.2 ∧ dz d = Fin 0 ∧ score d = Fin 1
     ∧ angleDeg d = Fin 0)
  ∧ horizontalScore pose_frontal = Some (Fin 1)
  ∧ shoulderTiltScore pose_frontal = Some (Fin 1)
  ∧ shoulderSquareness pose_frontal = Some (Fin 1).
Proof.
  assert (Hdx : Math.abs (sub (Fin 0.4) (Fin 0.6)) = Fin 0.2).
  { unfold sub. simpl. rewrite overflow_small by lra. simpl.
    by rewrite Rabs_gap. }
  assert (Hdz : Math.abs (sub (Fin 0) (Fin 0)) = Fin 0).
  { unfold sub. simpl. rewrite overflow_small by lra. simpl.
    replace (0 + - 0)%R with 0%R by lra. by rewrite Rabs_R0. }
  assert (Hsym : sub (Fin 1) (Math.abs (sub (Fin 1) (Fin 1))) = Fin 1).
  { unfold sub. simpl. rewrite overflow_small by lra. simpl.
    replace (1 + - (1))%R with 0%R by lra. rewrite Rabs_R0.
    rewrite overflow_small by lra. f_equal. lra. }
  assert (Hscore : mul (div (Fin 0.2) (Fin 0.2)) (Fin 1) = Fin 1).
  { assert (E : (0.2 / 0.2 = 1)%R) by lra.
    rewrite div_Fin, E, mul_Fin by lra. f_equal. lra. }
  assert (Hangle :
    div (mul (Math.atan2 (Fin 0) (Fin 0.2)) (Fin 180)) Math.PI = Fin 0).
  { pose proof PI_RGT_0.
    assert (Hθ : Math.atan2 (Fin 0) (Fin 0.2) = Fin 0).
    { simpl. destruct (Rlt_dec 0 0.2) as [_|N]; [|lra].
      replace (0 / 0.2)%R with 0%R by lra. by rewrite atan_0. }
    assert (E : (0 * 180 / PI = 0)%R) by (field; lra).
    rewrite Hθ, mul_Fin by lra. unfold Math.PI.
    rewrite div_Fin by lra. by rewrite E. }
  assert (Hd : horizontalScoreDetailed pose_frontal =
    Some {| score := Fin 1; angleDeg := Fin 0; dx := Fin 0.2; dz := Fin 0;
            visSym := Fin 1;
            left := Snapshot.mk (Fin 0.4) (Fin 0.5) (Fin 0) (Fin 1);
            right := Snapshot.mk (Fin 0.6) (Fin 0.5) (Fin 0) (Fin 1) |}).
  { rewrite (horizontalScoreDetailed_usable pose_frontal
               (shoulder 0.4 0.5 0 1) (shoulder 0.6 0.5 0 1));
      [ | exact pose_frontal_left | exact pose_frontal_right
        | apply shoulder_visible | apply shoulder_visible | done | done
        | apply le_lt_false, pose_frontal_len_ge ].
    unfold shoulder. cbn [x y z visibility nullish default].
    change (Datatypes.id (Fin 1)) with (Fin 1).
    by rewrite Hdx, Hdz, Hsym, pose_frontal_len, Hscore, Hangle. }
  split; [|split; [|split]].
  - eexists. split; [exact Hd|]. done.
  - unfold horizontalScore. by rewrite Hd.
  - exact tilt_frontal.
  - unfold shoulderSquareness, horizontalScore.
    rewrite Hd, tilt_frontal. simpl.
    rewrite overflow_small by lra. simpl.
    destruct (Rlt_dec (1 * 1) 0) as [N|_]; [lra|]. simpl.
    do 2 f_equal. replace (1 * 1)%R with 1%R by lra. apply sqrt_1.
Qed.

(** ** The range of the scores *)

Lemma overflow_not_NaN (r : R) : overflow r ≠ NaN.
Proof.
  unfold overflow.
  by destruct (Rlt_dec MAX_VALUE r), (Rlt_dec r (- MAX_VALUE)).
Qed.

Lemma sub_Fin_not_NaN (a b : number) :
  Number.isFinite a = true → Number.isFinite b = true → sub a b ≠ NaN.
Proof.
  destruct a, b; try done. intros _ _. unfold sub. simpl.
  apply overflow_not_NaN.
Qed.

Lemma in01_Fin (r : R) : (0 <= r <= 1)%R → in01 (Fin r).
Proof. intros H. by exists r. Qed.

Lemma visibility_in01 (l : Landmark) :
  valid_landmark l → in01 (nullish (visibility l) (Fin 1)).
Proof.
  intros (_ & _ & _ & Hv). destruct (visibility l) as [v|]; simpl.
  - by apply Hv.
  - apply in01_Fin. lra.
Qed.

Lemma visSym_in01 (a b : number) :
  in01 a → in01 b → in01 (sub (Fin 1) (Math.abs (sub a b))).
Proof.
  intros (r & -> & Hr) (s & -> & Hs). unfold sub. simpl.
  rewrite overflow_small by lra. simpl.
  assert (Habs : (0 <= Rabs (r + - s) <= 1)%R).
  { split; [apply Rabs_pos|]. apply Rabs_le. lra. }
  rewrite overflow_small by lra. apply in01_Fin. lra.
Qed.

Lemma mul_in01 (a b : number) : in01 a → in01 b → in01 (mul a b).
Proof.
  intros (r & -> & Hr) (s & -> & Hs). simpl.
  assert (0 <= r * s <= 1)%R by nra.
  rewrite overflow_small by lra. by apply in01_Fin.
Qed.

Lemma abs_le_hypot (r s : R) : (Rabs r <= R_sqrt.sqrt (r * r + s * s))%R.
Proof.
  rewrite <- (sqrt_Rsqr_abs r). apply sqrt_le_1_alt. unfold Rsqr. nra.
Qed.

(** The cosine term: the x gap over a length that passed the
    degeneracy guard. *)
Lemma geom_in01 (r : R) (b : number) :
  b ≠ NaN →
  lt (Math.hypot (Fin r) b) EPSILON = false →
  in01 (div (Math.abs (Fin r)) (Math.hypot (Fin r) b)).
Proof.
  intros Hb Hlen. destruct b as [| | |s]; try done.
  - apply in01_Fin. lra.
  - apply in01_Fin. lra.
  - simpl in *. pose proof (abs_le_hypot r s) as Hle.
    pose proof (Rabs_pos r) as Hpos.
    set (ℓ := R_sqrt.sqrt (r * r + s * s)) in *.
    unfold overflow in *.
    destruct (Rlt_dec MAX_VALUE ℓ); [apply in01_Fin; lra|].
    destruct (Rlt_dec ℓ (- MAX_VALUE)).
    { pose proof MAX_VALUE_ge. lra. }
    simpl in Hlen.
    destruct (Rlt_dec ℓ 1e-6) as [|Hge]; [done|].
    destruct (Req_dec_T ℓ 0) as [E|_]; [lra|].
    assert (Hq : (0 <= Rabs r / ℓ <= 1)%R).
    { assert (E : (Rabs r / ℓ * ℓ = Rabs r)%R) by (field; lra).
      split; nra. }
    pose proof MAX_VALUE_ge.
    destruct (Rlt_dec MAX_VALUE (Rabs r / ℓ)); [lra|].
    destruct (Rlt_dec (Rabs r / ℓ) (- MAX_VALUE)); [lra|].
    by apply in01_Fin.
Qed.

(** An x gap that overflowed gives no score. *)
Lemma score_of_infinite_gap (a b v : number) :
  a = PInf ∨ a = NInf →
  lt (Math.hypot a b) EPSILON = false
  ∧ mul (div (Math.abs a) (Math.hypot a b)) v = NaN.
Proof. intros [-> | ->]; by destruct b. Qed.

Lemma horizontalScore_usable (lm : PoseLandmarks) (ls rs : Landmark) :
  lm !! L_SHOULDER = Some ls → lm !! R_SHOULDER = Some rs →
  isVisible (Some ls) = true → isVisible (Some rs) = true →
  Number.isFinite (z ls) = true → Number.isFinite (z rs) = true →
  horizontalScore lm =
    Some (if lt (Math.hypot (sub (x ls) (x rs)) (sub (z ls) (z rs))) EPSILON
          then Fin 0
          else mul (div (Math.abs (sub (x ls) (x rs)))
                        (Math.hypot (sub (x ls) (x rs)) (sub (z ls) (z rs))))
                   (sub (Fin 1)
                      (Math.abs (sub (nullish (visibility ls) (Fin 1))
                                     (nullish (visibility rs) (Fin 1)))))).
Proof.
  intros El Er Hl Hr Hzl Hzr. unfold horizontalScore, horizontalScoreDetailed.
  rewrite El, Er, Hl, Hr. simpl. rewrite Hzl, Hzr. simpl.
  by destruct (lt _ EPSILON).
Qed.

Lemma horizontalScore_not_visible (lm : PoseLandmarks) :
  isVisible (lm !! L_SHOULDER) = false ∨ isVisible (lm !! R_SHOULDER) = false →
  horizontalScore lm = Some (Fin 0).
Proof.
  intros H. unfold horizontalScore, horizontalScoreDetailed.
  destruct H as [-> | ->]; [done|].
  by destruct (isVisible (lm !! L_SHOULDER)).
Qed.

(** [horizontalScore] on a valid pose: a score in [0,1], or [NaN] when
    the x gap of two usable shoulders overflowed. *)
Lemma horizontalScore_valid (lm : PoseLandmarks) :
  valid_pose lm →
  ∃ h, horizontalScore lm = Some h
    ∧ (in01 h
       ∨ h = NaN
         ∧ ∃ ls rs, lm !! L_SHOULDER = Some ls ∧ lm !! R_SHOULDER = Some rs
             ∧ Number.isFinite (sub (x ls) (x rs)) = false).
Proof.
  intros Hv.
  destruct (isVisible (lm !! L_SHOULDER)) eqn:Hl; cycle 1.
  { rewrite horizontalScore_not_visible by auto.
    eexists; split; [done|]. left. apply in01_Fin. lra. }
  destruct (isVisible (lm !! R_SHOULDER)) eqn:Hr; cycle 1.
  { rewrite horizontalScore_not_visible by auto.
    eexists; split; [done|]. left. apply in01_Fin. lra. }
  destruct (lm !! L_SHOULDER) as [ls|] eqn:El; [|done].
  destruct (lm !! R_SHOULDER) as [rs|] eqn:Er; [|done].
  pose proof (Hv _ _ El) as Vl. pose proof (Hv _ _ Er) as Vr.
  pose proof (visSym_in01 _ _ (visibility_in01 _ Vl) (visibility_in01 _ Vr))
    as Hsym.
  destruct Vl as (Fxl & _ & Fzl & _), Vr as (Fxr & _ & Fzr & _).
  rewrite (horizontalScore_usable lm ls rs) by done.
  pose proof (sub_Fin_not_NaN _ _ Fxl Fxr) as Hdx.
  pose proof (sub_Fin_not_NaN _ _ Fzl Fzr) as Hdz.
  destruct (sub (x ls) (x rs)) as [| | |r] eqn:Edx; [done| | |].
  - destruct (score_of_infinite_gap PInf (sub (z ls) (z rs))
      (sub (Fin 1)
         (Math.abs (sub (nullish (visibility ls) (Fin 1))
                        (nullish (visibility rs) (Fin 1))))))
      as [-> ->]; [by left|].
    eexists; split; [done|]. right. split; [done|].
    exists ls, rs. by rewrite Edx.
  - destruct (score_of_infinite_gap NInf (sub (z ls) (z rs))
      (sub (Fin 1)
         (Math.abs (sub (nullish (visibility ls) (Fin 1))
                        (nullish (visibility rs) (Fin 1))))))
      as [-> ->]; [by right|].
    eexists; split; [done|]. right. split; [done|].
    exists ls, rs. by rewrite Edx.
  - destruct (lt (Math.hypot (Fin r) (sub (z ls) (z rs))) EPSILON) eqn:Hlen.
    + eexists; split; [done|]. left. apply in01_Fin. lra.
    + eexists; split; [done|]. left.
      apply mul_in01; [by apply geom_in01 | done].
Qed.

Lemma shoulderTiltScore_valid (lm : PoseLandmarks) :
  valid_pose lm → ∃ t, shoulderTiltScore lm = Some t ∧ in01 t.
Proof.
  intros Hv.
  destruct (isVisible (lm !! L_SHOULDER)) eqn:Hl; cycle 1.
  { rewrite shoulderTiltScore_not_visible by auto.
    eexists; split; [done|]. apply in01_Fin. lra. }
  destruct (isVisible (lm !! R_SHOULDER)) eqn:Hr; cycle 1.
  { rewrite shoulderTiltScore_not_visible by auto.
    eexists; split; [done|]. apply in01_Fin. lra. }
  destruct (lm !! L_SHOULDER) as [ls|] eqn:El; [|done].
  destruct (lm !! R_SHOULDER) as [rs|] eqn:Er; [|done].
  rewrite (shoulderTiltScore_usable lm ls rs) by done.
  destruct (Hv _ _ El) as (Fxl & Fyl & _), (Hv _ _ Er) as (Fxr & Fyr & _).
  destruct (_ && _).
  { eexists; split; [done|]. apply in01_Fin. lra. }
  destruct (atan2_quadrant (Math.abs (sub (y ls) (y rs)))
              (Math.abs (sub (x ls) (x rs)))) as (θ & -> & Hθ).
  { by apply abs_nonneg, sub_Fin_not_NaN. }
  { by apply abs_nonneg, sub_Fin_not_NaN. }
  destruct (tilt_of_angle θ Hθ) as [-> Hrange].
  eexists; split; [done|]. by apply in01_Fin.
Qed.

Lemma shoulderSquareness_valid (lm : PoseLandmarks) :
  valid_pose lm → ∃ q, shoulderSquareness lm = Some q ∧ in01 q.
Proof.
  intros Hv. unfold shoulderSquareness.
  destruct (horizontalScore_valid lm Hv) as (h & -> & Hh).
  destruct (shoulderTiltScore_valid lm Hv) as (t & -> & Ht). simpl.
  destruct Hh as [Hh | [-> _]].
  - destruct (mul_in01 _ _ Hh Ht) as (p & -> & Hp). simpl.
    destruct (Rlt_dec p 0); [lra|]. simpl.
    eexists; split; [done|]. apply in01_Fin. split; [apply sqrt_pos|].
    rewrite <- sqrt_1. apply sqrt_le_1_alt. lra.
  - simpl. eexists; split; [done|]. apply in01_Fin. lra.
Qed.

(** C1, as amended. On a pose whose present landmarks have finite x, y, z
    and a visibility in [0,1], [shoulderTiltScore] and
    [shoulderSquareness] return a value in [0,1] (never [NaN]), and so
    does [horizontalScore] whenever the difference Lx - Rx of the
    shoulders' x coordinates is itself finite. *)
Theorem scores_in_unit_interval (lm : PoseLandmarks) :
  valid_pose lm →
  (∃ t, shoulderTiltScore lm = Some t ∧ in01 t)
  ∧ (∃ q, shoulderSquareness lm = Some q ∧ in01 q)
  ∧ (x_gap_finite lm → ∃ h, horizontalScore lm = Some h ∧ in01 h).
Proof.
  intros Hv. split; [by apply shoulderTiltScore_valid|].
  split; [by apply shoulderSquareness_valid|].
  intros Hgap. destruct (horizontalScore_valid lm Hv) as (h & Eh & Hh).
  exists h. split; [done|].
  destruct Hh as [Hh | (_ & ls & rs & El & Er & Hinf)]; [done|].
  rewrite (Hgap ls rs El Er) in Hinf. done.
Qed.

Lemma valid_shoulder (a b c v : R) :
  (0 <= v <= 1)%R → valid_landmark (shoulder a b c v).
Proof.
  intros Hv. repeat split; try done.
  simpl. intros w [= <-]. by apply in01_Fin.
Qed.

Lemma valid_pose_empty : valid_pose ∅.
Proof. intros i l. by rewrite lookup_empty. Qed.

Lemma valid_pose_insert (i : nat) (l : Landmark) (lm : PoseLandmarks) :
  valid_landmark l → valid_pose lm → valid_pose (<[i := l]> lm).
Proof.
  intros Hl Hlm j l'. rewrite lookup_insert_Some.
  intros [[_ <-] | [_ Hj]]; [done | by eapply Hlm].
Qed.

Lemma valid_pose_frontal : valid_pose pose_frontal.
Proof.
  unfold pose_frontal.
  repeat apply valid_pose_insert; try apply valid_pose_empty;
    apply valid_shoulder; lra.
Qed.

Lemma x_gap_finite_frontal : x_gap_finite pose_frontal.
Proof.
  intros ls rs. rewrite pose_frontal_left, pose_frontal_right.
  intros [= <-] [= <-]. unfold sub. simpl. by rewrite overflow_small by lra.
Qed.

Lemma scores_in_unit_interval_witness :
  valid_pose pose_frontal ∧ x_gap_finite pose_frontal
  ∧ (∃ t, shoulderTiltScore pose_frontal = Some t ∧ in01 t)
  ∧ (∃ q, shoulderSquareness pose_frontal = Some q ∧ in01 q)
  ∧ (∃ h, horizontalScore pose_frontal = Some h ∧ in01 h).
Proof.
  split; [exact valid_pose_frontal|]. split; [exact x_gap_finite_frontal|].
  destruct (scores_in_unit_interval pose_frontal valid_pose_frontal)
    as (Ht & Hq & Hh).
  split; [exact Ht|]. split; [exact Hq|]. exact (Hh x_gap_finite_frontal).
Defined.

(** The pose [pose_far_apart] has finite coordinates and visibilities 1,
    and its x gap overflows. *)
Lemma valid_pose_far_apart : valid_pose pose_far_apart.
Proof.
  unfold pose_far_apart.
  repeat apply valid_pose_insert; try apply valid_pose_empty;
    apply valid_shoulder; lra.
Qed.

Lemma horizontalScore_far_apart : horizontalScore pose_far_apart = Some NaN.
Proof.
  rewrite (horizontalScore_usable pose_far_apart
             (shoulder MAX_VALUE 0.5 0 1) (shoulder (- MAX_VALUE) 0.5 0 1)).
  - assert (Hdx : sub (Fin MAX_VALUE) (Fin (- MAX_VALUE)) = PInf).
    { unfold sub. simpl. unfold overflow. pose proof MAX_VALUE_ge.
      destruct (Rlt_dec MAX_VALUE (MAX_VALUE + - - MAX_VALUE)); [done | lra]. }
    unfold shoulder. cbn [x z visibility]. rewrite Hdx.
    match goal with
    | |- context [mul (div _ (Math.hypot _ ?b)) ?v] =>
        destruct (score_of_infinite_gap PInf b v) as [-> ->]; [by left|]
    end.
    done.
  - unfold pose_far_apart. by rewrite lookup_insert_eq.
  - unfold pose_far_apart. rewrite lookup_insert_ne by done.
    by rewrite lookup_insert_eq.
  - apply shoulder_visible.
  - apply shoulder_visible.
  - done.
  - done.
Qed.

(** C1, as stated, fails: [pose_far_apart] has finite x, y, z and
    visibilities in [0,1], and its [horizontalScore] is [NaN]. *)
Lemma horizontalScore_NaN_counterexample :
  ¬ (∀ lm : PoseLandmarks, valid_pose lm →
       (∃ h, horizontalScore lm = Some h ∧ in01 h)
       ∧ (∃ t, shoulderTiltScore lm = Some t ∧ in01 t)
       ∧ (∃ q, shoulderSquareness lm = Some q ∧ in01 q)).
Proof.
  intros H.
  destruct (H pose_far_apart valid_pose_far_apart) as [(h & Eh & Hh) _].
  rewrite horizontalScore_far_apart in Eh. injection Eh as <-.
  by destruct Hh as (r & ? & _).
Qed.

(** ** The score buffer *)

Import ScoreAggregator.

Lemma MAX_VALUE_ge_1024 : (1024 <= MAX_VALUE)%R.
Proof.
  unfold MAX_VALUE.
  assert (H52 : (1 <= 2 ^ 51)%R) by apply pow2_ge_1.
  assert (H1013 : (1 <= 2 ^ 1013)%R) by apply pow2_ge_1.
  replace (2 ^ 52)%R with (2 * 2 ^ 51)%R by (simpl; lra).
  replace (2 ^ 1023)%R with (2 ^ 10 * 2 ^ 1013)%R
    by (rewrite <- pow_add; reflexivity).
  assert (Hinv : (/ (2 * 2 ^ 51) <= / 2)%R).
  { apply Rinv_le_contravar; lra. }
  replace (2 ^ 10)%R with 1024%R by (simpl; lra).
  nra.
Qed.

Lemma overflow_1024 (r : R) : (-1024 <= r <= 1024)%R → overflow r = Fin r.
Proof. intros H. apply overflow_Fin. pose proof MAX_VALUE_ge_1024. lra. Qed.

(** One round of the loop on the array of its key: push, then shift when
    the array got longer than [BUFFER_SIZE]. *)
Lemma observe_same (buffer : buffers) (k : string) (v : number) :
  observe buffer k v !! k =
    Some (let arr := default [] (buffer !! k) ++ [v] in
          if decide (BUFFER_SIZE < length arr) then tail arr else arr).
Proof. unfold observe. by rewrite lookup_insert_eq. Qed.

Lemma observe_other (buffer : buffers) (k k' : string) (v : number) :
  k' ≠ k → observe buffer k' v !! k = buffer !! k.
Proof. intros Hne. unfold observe. by rewrite lookup_insert_ne. Qed.

Lemma window_short (l : list number) :
  length l ≤ BUFFER_SIZE → window l = l.
Proof. intros H. unfold window. by replace (_ - _) with 0 by lia. Qed.

Lemma length_window (l : list number) : length (window l) ≤ BUFFER_SIZE.
Proof. unfold window. rewrite length_drop. lia. Qed.

(** Push, then shift when the array got too long: the window of the
    array with the new value. *)
Lemma observe_window (b : list number) (v : number) :
  length b ≤ BUFFER_SIZE →
  (if decide (BUFFER_SIZE < length (b ++ [v])) then tail (b ++ [v])
   else b ++ [v])
  = window (b ++ [v]).
Proof.
  intros Hb. unfold window. rewrite length_app. simpl.
  destruct (decide (BUFFER_SIZE < length b + 1)) as [Hlt|Hge].
  - replace (length b + 1 - BUFFER_SIZE) with 1 by lia.
    by destruct b.
  - by replace (length b + 1 - BUFFER_SIZE) with 0 by lia.
Qed.

Lemma window_push (b : list number) (v : number) (vs : list number) :
  length b ≤ BUFFER_SIZE →
  window (window (b ++ [v]) ++ vs) = window (b ++ v :: vs).
Proof.
  intros Hb. replace (b ++ v :: vs) with ((b ++ [v]) ++ vs)
    by (by rewrite <- app_assoc).
  unfold window at 2.
  destruct (decide (length (b ++ [v]) ≤ BUFFER_SIZE)) as [Hle|Hgt].
  - by replace (length (b ++ [v]) - BUFFER_SIZE) with 0 by lia.
  - rewrite length_app in Hgt. cbn [length] in Hgt.
    assert (Hlen : length b = BUFFER_SIZE) by lia.
    replace (length (b ++ [v]) - BUFFER_SIZE) with 1
      by (rewrite length_app; cbn [length]; lia).
    unfold window. rewrite !length_app, length_drop, length_app.
    cbn [length].
    replace (length b + 1 - 1 + length vs - BUFFER_SIZE) with (length vs)
      by lia.
    replace (length b + 1 + length vs - BUFFER_SIZE) with (1 + length vs)
      by lia.
    rewrite <- drop_drop. f_equal.
    symmetry. apply drop_app_le. rewrite length_app. cbn [length]. lia.
Qed.

Lemma values_for_cons (k k' : string) (v : number)
    (entries : list (string * number)) :
  values_for k ((k', v) :: entries) =
    if decide (k' = k) then v :: values_for k entries
    else values_for k entries.
Proof.
  unfold values_for. rewrite filter_cons. simpl.
  by destruct (decide (k' = k)).
Qed.

(** After the loop has run on [entries], the array of [k] is the window
    of what it held followed by the values observed for [k]. *)
Lemma observeAll_window (k : string) (entries : list (string * number))
    (buffer : buffers) :
  length (default [] (buffer !! k)) ≤ BUFFER_SIZE →
  observeAll buffer entries !! k =
    match values_for k entries with
    | [] => buffer !! k
    | vs => Some (window (default [] (buffer !! k) ++ vs))
    end.
Proof.
  revert buffer. induction entries as [|[k' v] entries IH]; intros buffer Hb.
  - done.
  - change (observeAll buffer ((k', v) :: entries))
      with (observeAll (observe buffer k' v) entries).
    rewrite values_for_cons.
    destruct (decide (k' = k)) as [->|Hne].
    + pose proof (observe_same buffer k v) as Hk. simpl in Hk.
      rewrite (observe_window _ v Hb) in Hk.
      rewrite IH by (rewrite Hk; apply length_window).
      rewrite Hk. simpl.
      destruct (values_for k entries) as [|w ws]; [done|].
      by rewrite window_push.
    + rewrite IH by (by rewrite observe_other).
      by rewrite observe_other.
Qed.

(** On scores (numbers in [0,1]) the running sum never overflows and
    [mean] is the arithmetic mean of the reals. *)
Lemma foldl_add_scores (l : list number) (acc : R) :
  Forall in01 l → (0 <= acc)%R → (acc + INR (length l) <= 1024)%R →
  foldl add (Fin acc) l = Fin (foldl Rplus acc (to_R <$> l))
  ∧ (acc <= foldl Rplus acc (to_R <$> l) <= acc + INR (length l))%R.
Proof.
  intros Hl. revert acc. induction Hl as [|a l (r & -> & Hr) _ IH];
    intros acc Hacc Hbound.
  - simpl. split; [done | lra].
  - cbn [length] in *. rewrite S_INR in *.
    pose proof (pos_INR (length l)).
    rewrite fmap_cons. cbn [foldl to_R add].
    rewrite overflow_1024 by lra.
    destruct (IH (acc + r)%R) as [-> Hsum]; [lra | lra |].
    split; [done | lra].
Qed.

Lemma mean_scores (l : list number) :
  Forall in01 l → 0 < length l ≤ 1024 →
  mean l = Fin (foldl Rplus 0%R (to_R <$> l) / INR (length l)).
Proof.
  intros Hl [Hpos Hlen]. unfold mean.
  assert (HposR : (0 < INR (length l))%R) by (apply lt_0_INR; lia).
  assert (HlenR : (INR (length l) <= 1024)%R).
  { replace 1024%R with (INR 1024) by (rewrite INR_IZR_INZ; done).
    by apply le_INR. }
  destruct (foldl_add_scores l 0%R) as [-> Hsum]; [done | lra | lra |].
  set (S := foldl Rplus 0%R (to_R <$> l)) in *. simpl.
  destruct (Req_dec_T (INR (length l)) 0) as [E|_]; [lra|].
  apply overflow_small.
  assert (E : (S / INR (length l) * INR (length l) = S)%R) by (field; lra).
  split; nra.
Qed.

(** C4. After 40 values have been observed for a metric, its buffer
    holds exactly 30 entries, samples 11 to 40, and the mean reported for
    it is their arithmetic mean; each round appends the value and drops
    the oldest one only when the length exceeds 30.  The buffer the 40
    values meet may be new or hold up to 30 older values. *)
Theorem buffer_holds_last_30 (k : string) (buffer : buffers)
    (entries : list (string * number)) :
  length (default [] (buffer !! k)) ≤ 30 →
  length (values_for k entries) = 40 →
  let vs := values_for k entries in
  let buffer' := observeAll buffer entries in
  buffer' !! k = Some (drop 10 vs)
  ∧ length (drop 10 vs) = 30
  ∧ avgScores buffer' !! k =
      Some (div (foldl add (Fin 0) (drop 10 vs)) (Fin 30))
  ∧ (Forall in01 vs →
     avgScores buffer' !! k =
       Some (Fin (foldl Rplus 0%R (to_R <$> drop 10 vs) / 30)))
  ∧ ∀ (b : buffers) (v : number),
      observe b k v !! k =
        Some (if decide (30 < length (default [] (b !! k) ++ [v]))
              then tail (default [] (b !! k) ++ [v])
              else default [] (b !! k) ++ [v]).
Proof.
  intros Hold Hlen. cbv zeta.
  pose proof (observeAll_window k entries buffer Hold) as Hwin.
  set (buffer' := observeAll buffer entries) in *. clearbody buffer'.
  set (old := default [] (buffer !! k)) in *. clearbody old.
  revert Hwin Hlen. generalize (values_for k entries). intros vs Hwin Hlen.
  assert (Hk : buffer' !! k = Some (drop 10 vs)).
  { rewrite Hwin. destruct vs as [|v vs'] eqn:E; [done|].
    rewrite <- E in *. f_equal. unfold window.
    rewrite length_app, Hlen.
    replace (length old + 40 - BUFFER_SIZE) with (length old + 10)
      by (unfold BUFFER_SIZE; lia).
    apply drop_app_add. }
  assert (Hlen' : length (drop 10 vs) = 30).
  { rewrite length_drop, Hlen. done. }
  assert (H30 : INR 30 = 30%R) by (rewrite INR_IZR_INZ; done).
  split; [done|]. split; [done|].
  split; [|split].
  - unfold avgScores. rewrite lookup_fmap, Hk. simpl.
    unfold mean. by rewrite Hlen', H30.
  - intros Hvs. unfold avgScores. rewrite lookup_fmap, Hk. simpl.
    rewrite mean_scores.
    + by rewrite Hlen', H30.
    + by apply Forall_drop.
    + rewrite Hlen'. lia.
  - intros b v. apply observe_same.
Qed.

Lemma values_for_forty_scores :
  values_for "horizontalScore" forty_scores
  = replicate 10 (Fin 0) ++ replicate 30 (Fin 1).
Proof. reflexivity. Qed.

Lemma buffer_holds_last_30_witness :
  length (default [] ((∅ : buffers) !! "horizontalScore"%string)) ≤ 30
  ∧ length (values_for "horizontalScore" forty_scores) = 40
  ∧ observeAll ∅ forty_scores !! "horizontalScore"%string
    = Some (replicate 30 (Fin 1))
  ∧ avgScores (observeAll ∅ forty_scores) !! "horizontalScore"%string
    = Some (Fin 1).
Proof.
  assert (H0 : length (default []
                        ((∅ : buffers) !! "horizontalScore"%string)) ≤ 30)
    by (rewrite lookup_empty; simpl; lia).
  assert (H40 : length (values_for "horizontalScore" forty_scores) = 40)
    by reflexivity.
  destruct (buffer_holds_last_30 "horizontalScore" ∅ forty_scores H0 H40)
    as (Hbuf & _ & _ & Hmean & _).
  split; [exact H0|]. split; [exact H40|]. split; [exact Hbuf|].
  rewrite Hmean.
  - rewrite values_for_forty_scores. simpl. do 2 f_equal. lra.
  - rewrite values_for_forty_scores. apply Forall_app. split.
    + apply Forall_replicate, in01_Fin. lra.
    + apply Forall_replicate, in01_Fin. lra.
Defined.

(** The mean of the first 30 of these samples is another number: the
    window is the last 30. *)
Lemma mean_first_30_differs :
  mean (take 30 (values_for "horizontalScore" forty_scores)) ≠ Fin 1.
Proof.
  rewrite values_for_forty_scores, mean_scores.
  - simpl. intros [= E]. lra.
  - simpl. repeat constructor; apply in01_Fin; lra.
  - simpl. lia.
Qed.

(** ** The landmark smoother *)

Import LandmarkSmoother.

Lemma one_minus_alpha : sub (Fin 1) SMOOTH_ALPHA = Fin 0.8.
Proof.
  unfold sub, SMOOTH_ALPHA. simpl. rewrite overflow_small by lra.
  f_equal. lra.
Qed.

Lemma ema_eq (p s : number) :
  ema p s = add (mul (Fin 0.2) p) (mul (Fin 0.8) s).
Proof. unfold ema. by rewrite one_minus_alpha. Qed.

(** One round of the loop: the landmark object [s] is smoothed against
    [p] (the same object when the index is new) and stored at [idx]. *)
Lemma smooth_entry_spec (cur pose : loc) (h : heap) (idx : nat) (p : loc) :
  poses h pose !! idx = Some p →
  let s := default p (poses h cur !! idx) in
  let h' := smooth_entry cur pose h idx in
  (∀ l, landmarks h' l =
          if decide (l = s) then smoothed (landmarks h p) (landmarks h s)
          else landmarks h l)
  ∧ (∀ q, poses h' q =
            if decide (q = cur) then <[idx := s]> (poses h cur)
            else poses h q).
Proof.
  intros Hp s h'. subst h'. unfold smooth_entry. rewrite Hp. fold s.
  clearbody s. split.
  - intros l. cbn [landmarks set_entry set_z set_y set_x].
    destruct (decide (l = s)) as [->|Hl].
    + rewrite !fn_lookup_insert. unfold smoothed.
      destruct (decide (p = s)) as [Hps|Hps].
      * subst p. by rewrite !fn_lookup_insert.
      * by rewrite !fn_lookup_insert_ne by done.
    + by rewrite !fn_lookup_insert_ne by done.
  - intros q. cbn [poses set_entry set_z set_y set_x].
    destruct (decide (q = cur)) as [->|Hq].
    + by rewrite fn_lookup_insert.
    + by rewrite fn_lookup_insert_ne.
Qed.

Lemma elem_of_keys (m : gmap nat loc) (i : nat) :
  i ∈ keys m ↔ is_Some (m !! i).
Proof.
  unfold keys. rewrite merge_sort_Permutation, list_elem_of_fmap.
  split.
  - intros ([j l] & -> & H). apply elem_of_map_to_list in H. by exists l.
  - intros [l H]. exists (i, l). split; [done|].
    by apply elem_of_map_to_list.
Qed.

Lemma NoDup_keys (m : gmap nat loc) : NoDup (keys m).
Proof.
  unfold keys. rewrite merge_sort_Permutation.
  apply NoDup_fst_map_to_list.
Qed.

Section smoothing_loop.

Variables (h0 : heap) (cur pose : loc).
Hypothesis Hfresh : fresh_frame h0 cur pose.

Lemma target_cases (i : nat) (s : loc) :
  target h0 cur pose i = Some s →
  is_Some (poses h0 pose !! i)
  ∧ (poses h0 cur !! i = Some s
     ∨ poses h0 cur !! i = None ∧ poses h0 pose !! i = Some s).
Proof.
  unfold target. destruct (poses h0 pose !! i) as [p|]; [|done].
  simpl. split; [by eexists|].
  destruct (poses h0 cur !! i) as [s'|]; simpl in *; naive_solver.
Qed.

(** Two indices are smoothed in two landmark objects. *)
Lemma target_inj (i j : nat) (s : loc) :
  target h0 cur pose i = Some s → target h0 cur pose j = Some s → i = j.
Proof.
  destruct Hfresh as (_ & Hcur & Hpose & Hsep).
  intros [_ Hi]%target_cases [_ Hj]%target_cases.
  destruct Hi as [Hi|[_ Hi]], Hj as [Hj|[_ Hj]].
  - by eapply Hcur.
  - by destruct (Hsep i j s).
  - by destruct (Hsep j i s).
  - by eapply Hpose.
Qed.

(** A raw landmark object is smoothed at its own index only. *)
Lemma target_raw (i j : nat) (p : loc) :
  poses h0 pose !! i = Some p → target h0 cur pose j = Some p → i = j.
Proof.
  destruct Hfresh as (_ & Hcur & Hpose & Hsep).
  intros Hi [_ Hj]%target_cases.
  destruct Hj as [Hj|[_ Hj]].
  - by destruct (Hsep j i p).
  - by eapply Hpose.
Qed.

(** A landmark object of the state is smoothed at its own index only. *)
Lemma target_state (i j : nat) (s : loc) :
  poses h0 cur !! i = Some s → target h0 cur pose j = Some s → i = j.
Proof.
  destruct Hfresh as (_ & Hcur & Hpose & Hsep).
  intros Hi [_ Hj]%target_cases.
  destruct Hj as [Hj|[_ Hj]].
  - by eapply Hcur.
  - by destruct (Hsep i j s).
Qed.

(** The heap after the loop has visited the indices [ks]. *)
Lemma smoothing_loop_spec (ks : list nat) :
  NoDup ks → (∀ i, i ∈ ks → is_Some (poses h0 pose !! i)) →
  let h' := foldl (smooth_entry cur pose) h0 ks in
  (∀ q, q ≠ cur → poses h' q = poses h0 q)
  ∧ (∀ i, poses h' cur !! i =
            if decide (i ∈ ks) then target h0 cur pose i
            else poses h0 cur !! i)
  ∧ (∀ i p s, i ∈ ks → poses h0 pose !! i = Some p →
       target h0 cur pose i = Some s →
       landmarks h' s = smoothed (landmarks h0 p) (landmarks h0 s))
  ∧ (∀ l, (∀ i, i ∈ ks → target h0 cur pose i ≠ Some l) →
       landmarks h' l = landmarks h0 l).
Proof.
  induction ks as [|i ks IH] using rev_ind; intros Hnd Hin.
  - simpl. split; [done|]. split; [|split; [|done]].
    + intros i. by destruct (decide (i ∈ [])) as [?%elem_of_nil|].
    + by intros i p s ?%elem_of_nil.
  - apply list.NoDup_app in Hnd as (Hnd & Hni & _).
    assert (Hi : i ∉ ks).
    { intros Hi. apply (Hni i Hi). by apply list_elem_of_singleton. }
    destruct IH as (P1 & P2 & P3 & P4); [done| |].
    { intros j Hj. apply Hin, elem_of_app. by left. }
    rewrite foldl_snoc. cbv zeta.
    set (hk := foldl (smooth_entry cur pose) h0 ks) in *.
    destruct (Hin i) as [p Hp].
    { apply elem_of_app. right. by apply list_elem_of_singleton. }
    assert (Hne : pose ≠ cur) by apply Hfresh.
    assert (Hpk : poses hk pose !! i = Some p) by (by rewrite P1).
    assert (Hck : poses hk cur !! i = poses h0 cur !! i).
    { rewrite P2. by destruct (decide (i ∈ ks)). }
    assert (Ht : target h0 cur pose i
                 = Some (default p (poses hk cur !! i))).
    { unfold target. by rewrite Hp, Hck. }
    destruct (smooth_entry_spec cur pose hk i p Hpk) as [L Q].
    set (s := default p (poses hk cur !! i)) in *.
    assert (Hraw : landmarks hk p = landmarks h0 p).
    { apply P4. intros j Hj Htj.
      assert (i = j) by (by eapply target_raw). by subst. }
    assert (Hs : landmarks hk s = landmarks h0 s).
    { apply P4. intros j Hj Htj.
      assert (i = j) by (by eapply target_inj). by subst. }
    split; [|split; [|split]].
    + intros q Hq. rewrite Q. destruct (decide (q = cur)); [done|]. by apply P1.
    + intros j. rewrite Q. destruct (decide (cur = cur)); [|done].
      destruct (decide (j = i)) as [->|Hji].
      * rewrite lookup_insert_eq.
        destruct (decide (i ∈ ks ++ [i])) as [_|Hn]; [done|].
        exfalso. apply Hn, elem_of_app. right.
        by apply list_elem_of_singleton.
      * rewrite lookup_insert_ne by done. rewrite P2.
        destruct (decide (j ∈ ks)) as [Hj|Hj];
          destruct (decide (j ∈ ks ++ [i])) as [Hj'|Hj']; try done.
        -- exfalso. apply Hj', elem_of_app. by left.
        -- apply elem_of_app in Hj' as [?|?%list_elem_of_singleton]; done.
    + intros j q t Hj Hq Htj. rewrite L.
      apply elem_of_app in Hj as [Hj|Hj%list_elem_of_singleton].
      * destruct (decide (t = s)) as [->|_].
        -- assert (i = j) by (by eapply target_inj). by subst.
        -- by eapply P3.
      * subst j. rewrite Hp in Hq. injection Hq as <-.
        rewrite Ht in Htj. injection Htj as <-.
        destruct (decide (s = s)); [|done]. by rewrite Hraw, Hs.
    + intros l Hl. rewrite L.
      destruct (decide (l = s)) as [->|_].
      * exfalso. apply (Hl i); [|done].
        apply elem_of_app. right. by apply list_elem_of_singleton.
      * apply P4. intros j Hj. apply Hl, elem_of_app. by left.
Qed.

End smoothing_loop.

(** The first update after a reset takes the raw frame as the state. *)
Lemma update_after_reset (h : heap) (pose : loc) :
  update (h, None) pose = (h, Some pose)
  ∧ output (update (h, None) pose) = deref h pose.
Proof. done. Qed.

(** The pose objects after an update: the state gains the indices of the
    raw frame that it did not hold, no other pose object changes. *)
Lemma update_poses (h : heap) (cur pose : loc) :
  fresh_frame h cur pose →
  (update (h, Some cur) pose).2 = Some cur
  ∧ poses (update (h, Some cur) pose).1 cur = poses h cur ∪ poses h pose
  ∧ ∀ q, q ≠ cur → poses (update (h, Some cur) pose).1 q = poses h q.
Proof.
  intros Hfresh. unfold update. cbn [fst snd].
  destruct (smoothing_loop_spec h cur pose Hfresh (keys (poses h pose)))
    as (P1 & P2 & _).
  { apply NoDup_keys. }
  { intros i. by rewrite elem_of_keys. }
  split; [done|]. split; [|done].
  apply map_eq. intros i. rewrite P2, lookup_union. unfold target.
  destruct (decide (i ∈ keys (poses h pose))) as [Hi|Hi].
  - apply elem_of_keys in Hi as [p ->]. simpl.
    by destruct (poses h cur !! i).
  - rewrite elem_of_keys, <- eq_None_not_Some in Hi. rewrite Hi.
    by destruct (poses h cur !! i).
Qed.

(** What the smoothed pose shows after an update, index by index, in
    terms of the poses before it: an index of the raw frame is smoothed
    against the state (against itself when it is new), the others keep
    the landmark of the state. *)
Lemma update_output (h : heap) (cur pose : loc) (i : nat) :
  fresh_frame h cur pose →
  output (update (h, Some cur) pose) !! i =
    match deref h pose !! i with
    | Some raw => Some (smoothed raw (default raw (deref h cur !! i)))
    | None => deref h cur !! i
    end.
Proof.
  intros Hfresh. unfold output, update. cbn [fst snd].
  destruct (smoothing_loop_spec h cur pose Hfresh (keys (poses h pose)))
    as (_ & P2 & P3 & P4).
  { apply NoDup_keys. }
  { intros j. by rewrite elem_of_keys. }
  set (h' := foldl (smooth_entry cur pose) h (keys (poses h pose))) in *.
  unfold deref. rewrite !lookup_fmap, P2.
  destruct (decide (i ∈ keys (poses h pose))) as [Hi|Hi].
  - pose proof Hi as Hi'. apply elem_of_keys in Hi' as [p Hp].
    rewrite Hp. simpl.
    destruct (target h cur pose i) as [s|] eqn:Ht; cycle 1.
    { unfold target in Ht. by rewrite Hp in Ht. }
    simpl. rewrite (P3 i p s Hi Hp Ht). do 2 f_equal.
    unfold target in Ht. rewrite Hp in Ht. simpl in Ht. injection Ht as <-.
    by destruct (poses h cur !! i).
  - pose proof Hi as Hi'.
    rewrite elem_of_keys, <- eq_None_not_Some in Hi'. rewrite Hi'. simpl.
    destruct (poses h cur !! i) as [s|] eqn:Hs; [|done]. simpl.
    rewrite P4; [done|]. intros j Hj Htj.
    assert (i = j) by (by eapply target_state). by subst.
Qed.

(** One update after the first one, on an index present in the raw
    frame: each of x, y and z of the output is 0.2 * raw + 0.8 * previous
    (the previous value being the raw one when the index is new to the
    state); the loop assigns nothing else, so the visibility of the
    output is the one of the landmark object it smooths.  The raw frame
    is a fresh object, as the pose source makes it. *)
Lemma smoother_update_present (h : heap) (cur pose : loc) (i : nat)
    (raw : Landmark) :
  fresh_frame h cur pose →
  deref h pose !! i = Some raw →
  let prev := default raw (deref h cur !! i) in
  ∃ o, output (update (h, Some cur) pose) !! i = Some o
    ∧ x o = add (mul (Fin 0.2) (x raw)) (mul (Fin 0.8) (x prev))
    ∧ y o = add (mul (Fin 0.2) (y raw)) (mul (Fin 0.8) (y prev))
    ∧ z o = add (mul (Fin 0.2) (z raw)) (mul (Fin 0.8) (z prev))
    ∧ visibility o = visibility prev.
Proof.
  intros Hfresh Hraw prev.
  exists (smoothed raw prev). split.
  - by rewrite update_output, Hraw.
  - unfold smoothed. cbn [x y z visibility]. by rewrite !ema_eq.
Qed.

(** Case analysis on lookups in pose objects built by insertions. *)
Ltac solve_lookups :=
  repeat match goal with
    | H : <[_ := _]> _ !! _ = Some _ |- _ =>
        apply lookup_insert_Some in H as [[? ?]|[? H]]; simplify_eq
    | H : ∅ !! _ = Some _ |- _ => by rewrite lookup_empty in H
    end;
  try done.

Lemma sample_heap_state_100 :
  deref sample_heap 100 !! L_SHOULDER = Some (shoulder 0.4 0.5 0 1).
Proof.
  unfold deref. cbn [poses sample_heap].
  by rewrite lookup_fmap, lookup_insert_eq.
Qed.

(** The frames of [occlusion_heap]. *)
Lemma occlusion_heap_fresh : fresh_frame occlusion_heap 200 201.
Proof.
  split; [done|].
  split; [|split]; cbn [poses occlusion_heap]; intros i j l Hi Hj;
    solve_lookups.
Qed.

Lemma occlusion_heap_first :
  deref occlusion_heap 200 !! L_SHOULDER = Some (shoulder 0.4 0.5 0 1).
Proof.
  unfold deref. cbn [poses occlusion_heap].
  by rewrite lookup_fmap, lookup_insert_eq.
Qed.

Lemma occlusion_heap_second :
  deref occlusion_heap 201 !! L_SHOULDER = Some (shoulder 0.5 0.5 0 0.1).
Proof.
  unfold deref. cbn [poses occlusion_heap].
  by rewrite lookup_fmap, lookup_insert_eq.
Qed.

(** C3. The code at the failing input: the session of [occlusion_heap],
    two detected frames after a reset, in the second of which the left
    shoulder comes with visibility 0.1.  The smoothed left shoulder has
    the averaged position 0.2 * raw + 0.8 * previous, as the claim says,
    but the visibility 1 of the first frame where the claim says the raw
    frame's 0.1: the loop assigns [s.x], [s.y] and [s.z] and never
    [s.visibility], so the occluded shoulder still counts as visible. *)
Theorem smoother_keeps_stale_visibility :
  ∃ raw o : Landmark,
    deref occlusion_heap 201 !! L_SHOULDER = Some raw
    ∧ output (run (occlusion_heap, None) [200; 201]) !! L_SHOULDER = Some o
    ∧ x o = add (mul SMOOTH_ALPHA (Fin 0.5))
                (mul (sub (Fin 1) SMOOTH_ALPHA) (Fin 0.4))
    ∧ y o = add (mul SMOOTH_ALPHA (Fin 0.5))
                (mul (sub (Fin 1) SMOOTH_ALPHA) (Fin 0.5))
    ∧ z o = add (mul SMOOTH_ALPHA (Fin 0))
                (mul (sub (Fin 1) SMOOTH_ALPHA) (Fin 0))
    ∧ visibility raw = Some (Fin 0.1)
    ∧ visibility o = Some (Fin 1)
    ∧ isVisible (Some raw) = false
    ∧ isVisible (Some o) = true.
Proof.
  exists (shoulder 0.5 0.5 0 0.1),
    (smoothed (shoulder 0.5 0.5 0 0.1) (shoulder 0.4 0.5 0 1)).
  split; [exact occlusion_heap_second|]. split.
  - change (run (occlusion_heap, None) [200; 201])
      with (update (occlusion_heap, Some 200) 201).
    rewrite update_output by apply occlusion_heap_fresh.
    by rewrite occlusion_heap_second, occlusion_heap_first.
  - repeat split.
    + simpl. unfold gt. simpl. by destruct (Rlt_dec 0.3 0.1); [lra|].
    + simpl. unfold gt. simpl. by destruct (Rlt_dec 0.3 1); [|lra].
Qed.

(** ** Landmarks the detector stops returning *)

Lemma deref_None (h : heap) (pose : loc) (i : nat) :
  deref h pose !! i = None ↔ poses h pose !! i = None.
Proof. unfold deref. by rewrite lookup_fmap, fmap_None. Qed.

(** Over a run of fresh frames the smoothed pose keeps showing, at an
    index that all of them lack, what the state held; and it shows the
    indices of the state and of all the frames. *)
Lemma run_spec (fs : list loc) (h : heap) (cur : loc) :
  cur ∉ fs → NoDup fs →
  distinct_objects (poses h cur) →
  (∀ f g j j' l, f ∈ fs → g ∈ fs →
     poses h f !! j = Some l → poses h g !! j' = Some l → f = g ∧ j = j') →
  (∀ f, f ∈ fs → separate (poses h cur) (poses h f)) →
  (run (h, Some cur) fs).2 = Some cur
  ∧ (∀ i, (∀ f, f ∈ fs → poses h f !! i = None) →
       output (run (h, Some cur) fs) !! i = deref h cur !! i)
  ∧ dom (output (run (h, Some cur) fs))
    = dom (poses h cur) ∪ ⋃ ((λ f, dom (poses h f)) <$> fs).
Proof.
  revert h. induction fs as [|f fs IH]; intros h Hcur Hnd Hd Hobj Hsep.
  - split; [done|]. split; [done|].
    unfold run, output, deref. cbn [foldl fst snd].
    rewrite dom_fmap_L, fmap_nil, union_list_nil.
    by rewrite (right_id_L ∅ (∪)).
  - apply not_elem_of_cons in Hcur as [Hcf Hcur].
    apply list.NoDup_cons in Hnd as [Hf Hnd].
    assert (Hfresh : fresh_frame h cur f).
    { split; [done|]. split; [done|]. split.
      - intros j j' l Hj Hj'.
        by destruct (Hobj f f j j' l) as [_ ?]; try apply list_elem_of_here.
      - apply Hsep, list_elem_of_here. }
    destruct (update_poses h cur f Hfresh) as (_ & Hu & Hq).
    change (run (h, Some cur) (f :: fs))
      with (run ((update (h, Some cur) f).1, Some cur) fs).
    pose proof (λ i, update_output h cur f i Hfresh) as Hout.
    change (output (update (h, Some cur) f))
      with (deref (update (h, Some cur) f).1 cur) in Hout.
    set (h1 := (update (h, Some cur) f).1) in *.
    assert (Hsame : ∀ g, g ∈ fs → poses h1 g = poses h g).
    { intros g Hg. apply Hq. by intros ->. }
    destruct (IH h1) as (IH1 & IH2 & IH3); try done.
    + rewrite Hu. intros j j' l.
      rewrite !lookup_union_Some_raw.
      intros [Hj|[_ Hj]] [Hj'|[_ Hj']].
      * by eapply Hd.
      * by destruct (Hsep f (list_elem_of_here _ _) j j' l).
      * by destruct (Hsep f (list_elem_of_here _ _) j' j l).
      * by destruct (Hobj f f j j' l) as [_ ?]; try apply list_elem_of_here.
    + intros g g' j j' l Hg Hg'. rewrite !Hsame by done.
      by apply Hobj; apply list_elem_of_further.
    + intros g Hg j j' l. rewrite Hu, (Hsame g Hg).
      rewrite lookup_union_Some_raw. intros [Hj|[_ Hj]] Hj'.
      * by destruct (Hsep g (list_elem_of_further _ _ _ Hg) j j' l).
      * destruct (Hobj f g j j' l) as [-> _]; try done.
        -- apply list_elem_of_here.
        -- by apply list_elem_of_further.
    + split; [done|]. split.
      * intros i Habs. rewrite IH2.
        -- rewrite Hout, (proj2 (deref_None h f i)); [done|].
           apply Habs, list_elem_of_here.
        -- intros g Hg. rewrite (Hsame g Hg).
           by apply Habs, list_elem_of_further.
      * rewrite IH3, Hu, dom_union_L, fmap_cons, union_list_cons.
        rewrite (list_fmap_ext (λ g, dom (poses h1 g))
                   (λ g, dom (poses h g)) fs).
        -- by rewrite (assoc_L (∪)).
        -- intros n g Hg. rewrite Hsame; [done|].
           by eapply list_elem_of_lookup_2.
Qed.

(** C6. In every state of the smoother, an index absent from the raw
    frame keeps its smoothed landmark, in the state and in the output,
    which is the whole state: the indices held before together with
    those of the frame.  So an index present in frame 1 and absent from
    frames 2 to k is still shown with the landmark of frame 1 after
    frame k, and the output after frame k shows every index a frame has
    brought.  Frames are fresh objects, as the pose source makes them. *)
Theorem smoother_keeps_absent :
  (∀ (σ : state) (pose : loc) (i : nat),
     fresh_for σ pose → deref σ.1 pose !! i = None →
     output (update σ pose) !! i = output σ !! i)
  ∧ (∀ (σ : state) (pose : loc),
       fresh_for σ pose →
       dom (output (update σ pose)) = dom (output σ) ∪ dom (deref σ.1 pose))
  ∧ (∀ (h : heap) (f1 : loc) (fs : list loc) (i : nat) (v : Landmark),
       fresh_frames h (f1 :: fs) →
       deref h f1 !! i = Some v →
       (∀ f, f ∈ fs → deref h f !! i = None) →
       output (run (h, None) (f1 :: fs)) !! i = Some v)
  ∧ (∀ (h : heap) (f1 : loc) (fs : list loc),
       fresh_frames h (f1 :: fs) →
       dom (output (run (h, None) (f1 :: fs)))
       = ⋃ ((λ f, dom (deref h f)) <$> f1 :: fs)).
Proof.
  assert (Hrun : ∀ h f1 fs, fresh_frames h (f1 :: fs) →
    (∀ i, (∀ f, f ∈ fs → poses h f !! i = None) →
       output (run (h, Some f1) fs) !! i = deref h f1 !! i)
    ∧ dom (output (run (h, Some f1) fs))
      = dom (poses h f1) ∪ ⋃ ((λ f, dom (poses h f)) <$> fs)).
  { intros h f1 fs [Hnd Hobj].
    apply list.NoDup_cons in Hnd as [Hf1 Hnd].
    apply run_spec; try done.
    + intros j j' l Hj Hj'.
      by destruct (Hobj f1 f1 j j' l) as [_ ?]; try apply list_elem_of_here.
    + intros f g j j' l Hf Hg.
      by apply Hobj; apply list_elem_of_further.
    + intros f Hf j j' l Hj Hj'.
      destruct (Hobj f1 f j j' l) as [-> _]; try done.
      * apply list_elem_of_here.
      * by apply list_elem_of_further. }
  split; [|split; [|split]].
  - intros [h [cur|]] pose i Hfresh Hi; cbn [fst snd] in Hi.
    + by rewrite update_output, Hi.
    + unfold output, update. cbn [fst snd]. by rewrite Hi, lookup_empty.
  - intros [h [cur|]] pose Hfresh.
    + destruct (update_poses h cur pose Hfresh) as (_ & Hu & _).
      unfold output, update, deref in *. cbn [fst snd] in *.
      by rewrite !dom_fmap_L, Hu, dom_union_L.
    + unfold output, update. cbn [fst snd].
      by rewrite dom_empty_L, (left_id_L ∅ (∪)).
  - intros h f1 fs i v Hfresh Hv Habs.
    change (run (h, None) (f1 :: fs)) with (run (h, Some f1) fs).
    destruct (Hrun h f1 fs Hfresh) as [H _]. rewrite H; [done|].
    intros f Hf. by apply deref_None, Habs.
  - intros h f1 fs Hfresh.
    change (run (h, None) (f1 :: fs)) with (run (h, Some f1) fs).
    destruct (Hrun h f1 fs Hfresh) as [_ ->].
    rewrite fmap_cons, union_list_cons. unfold deref.
    rewrite dom_fmap_L. f_equal. f_equal.
    apply list_fmap_ext. intros n f _. by rewrite dom_fmap_L.
Qed.

(** Case analysis on the frames of a session given as a list. *)
Ltac solve_frames :=
  repeat match goal with
    | H : _ ∈ _ :: _ |- _ => apply elem_of_cons in H as [->|H]
    | H : _ ∈ [] |- _ => by apply elem_of_nil in H
    end.

(** The frames 100 and 101 of [sample_heap] are fresh objects. *)
Lemma sample_heap_fresh_frames : fresh_frames sample_heap [100; 101].
Proof.
  split.
  - apply list.NoDup_cons. split.
    + rewrite not_elem_of_cons. split; [done | apply not_elem_of_nil].
    + apply NoDup_singleton.
  - intros f g j j' l Hf Hg Hj Hj'. solve_frames;
      cbn [poses sample_heap] in Hj, Hj'; solve_lookups.
Qed.

Lemma smoother_keeps_absent_witness :
  fresh_frames sample_heap [100; 101]
  ∧ deref sample_heap 101 !! L_SHOULDER = None
  ∧ output (run (sample_heap, None) [100; 101]) !! L_SHOULDER
    = Some (shoulder 0.4 0.5 0 1).
Proof.
  assert (Habs : deref sample_heap 101 !! L_SHOULDER = None).
  { apply deref_None. cbn [poses sample_heap].
    rewrite lookup_insert_ne by done. apply lookup_empty. }
  split; [exact sample_heap_fresh_frames|]. split; [exact Habs|].
  destruct smoother_keeps_absent as (_ & _ & H & _).
  apply (H sample_heap 100 [101] L_SHOULDER).
  - exact sample_heap_fresh_frames.
  - exact sample_heap_state_100.
  - intros f Hf. solve_frames. exact Habs.
Defined.

(** ** The render loop *)

(** A pass of the render loop on a detected pose does not throw. *)
Lemma renderLoop_total (σ : state) (buffer : buffers) (pose : loc) :
  is_Some (renderLoop σ buffer pose).
Proof.
  unfold renderLoop.
  destruct (computeAllMetrics_total (output (update σ pose))) as [raw ->].
  destruct (horizontalScoreDetailed_total (output (update σ pose)))
    as [d ->].
  by eexists.
Qed.

(** * Further properties of the scoring functions *)

Lemma hypot_Fin_inv (a b : number) (ℓ : R) :
  Math.hypot a b = Fin ℓ →
  ∃ r s, a = Fin r ∧ b = Fin s ∧ ℓ = R_sqrt.sqrt (r * r + s * s).
Proof.
  destruct a as [| | |r], b as [| | |s]; try done. simpl.
  unfold overflow.
  destruct (Rlt_dec MAX_VALUE _); [done|].
  destruct (Rlt_dec _ (- MAX_VALUE)); [done|].
  intros [= <-]. by exists r, s.
Qed.

Lemma sub_Fin_inv (a b : number) (r : R) :
  sub a b = Fin r → ∃ p q, a = Fin p ∧ b = Fin q ∧ r = (p + - q)%R.
Proof.
  destruct a as [| | |p], b as [| | |q]; try done. unfold sub. simpl.
  unfold overflow.
  destruct (Rlt_dec MAX_VALUE _); [done|].
  destruct (Rlt_dec _ (- MAX_VALUE)); [done|].
  intros [= <-]. by exists p, q.
Qed.

Lemma add_Fin_1024 (r s : R) :
  (-1024 <= r + s <= 1024)%R → add (Fin r) (Fin s) = Fin (r + s).
Proof. intros H. simpl. by apply overflow_1024. Qed.

Lemma sub_Fin_1024 (r s : R) :
  (-1024 <= r - s <= 1024)%R → sub (Fin r) (Fin s) = Fin (r - s).
Proof.
  intros H. unfold sub. simpl. by rewrite overflow_1024 by lra.
Qed.

Lemma mul_Fin_1024 (r s : R) :
  (-1024 <= r * s <= 1024)%R → mul (Fin r) (Fin s) = Fin (r * s).
Proof. intros H. simpl. by apply overflow_1024. Qed.

Lemma div_Fin_1024 (r s : R) :
  s ≠ 0%R → (-1024 <= r / s <= 1024)%R → div (Fin r) (Fin s) = Fin (r / s).
Proof.
  intros Hs H. simpl. destruct (Req_dec_T s 0); [done|].
  by apply overflow_1024.
Qed.

Lemma angle_degrees (θ : R) :
  (0 <= θ <= PI / 2)%R →
  div (mul (Fin θ) (Fin 180)) Math.PI = Fin (θ * 180 / PI)
  ∧ (0 <= θ * 180 / PI <= 90)%R.
Proof.
  intros Hθ. pose proof PI_RGT_0 as Hpi. pose proof PI_4.
  assert (Hq : (0 <= θ * 180 / PI <= 90)%R).
  { assert (E : (θ * 180 / PI * PI = θ * 180)%R) by (field; lra).
    split; nra. }
  split; [|done].
  rewrite mul_Fin_1024 by nra. unfold Math.PI.
  apply div_Fin_1024; lra.
Qed.

(** X1. On a pose whose present landmarks have finite coordinates and a
    visibility in [0,1], the debug record has its angle between 0 and 90
    degrees, its visibility symmetry in [0,1] and gaps dx, dz that are
    not negative. *)
Theorem debug_record_ranges (lm : PoseLandmarks) :
  valid_pose lm →
  ∃ d, horizontalScoreDetailed lm = Some d
    ∧ (∃ a : R, angleDeg d = Fin a ∧ (0 <= a <= 90)%R)
    ∧ in01 (visSym d)
    ∧ nonneg (dx d) ∧ nonneg (dz d).
Proof.
  intros Hv.
  assert (Hblank : ∃ d, Some blank = Some d
    ∧ (∃ a : R, angleDeg d = Fin a ∧ (0 <= a <= 90)%R)
    ∧ in01 (visSym d) ∧ nonneg (dx d) ∧ nonneg (dz d)).
  { exists blank. split; [done|]. split; [exists 90%R; simpl; split; [done|lra]|].
    split; [apply in01_Fin; lra|].
    split; right; exists 0%R; (split; [done|lra]). }
  unfold horizontalScoreDetailed.
  destruct (isVisible (lm !! L_SHOULDER)) eqn:Hl; [|done].
  destruct (isVisible (lm !! R_SHOULDER)) eqn:Hr; [|done].
  destruct (lm !! L_SHOULDER) as [ls|] eqn:El; [|done].
  destruct (lm !! R_SHOULDER) as [rs|] eqn:Er; [|done].
  cbn [negb orb mbind option_bind].
  pose proof (Hv _ _ El) as Vl. pose proof (Hv _ _ Er) as Vr.
  pose proof (visSym_in01 _ _ (visibility_in01 _ Vl) (visibility_in01 _ Vr))
    as Hsym.
  destruct Vl as (Fxl & _ & Fzl & _), Vr as (Fxr & _ & Fzr & _).
  rewrite Fzl, Fzr. cbn [negb].
  destruct (lt _ EPSILON); [done|].
  pose proof (abs_nonneg _ (sub_Fin_not_NaN _ _ Fxl Fxr)) as Hdx.
  pose proof (abs_nonneg _ (sub_Fin_not_NaN _ _ Fzl Fzr)) as Hdz.
  destruct (atan2_quadrant _ _ Hdz Hdx) as (θ & Eθ & Hθ).
  destruct (angle_degrees θ Hθ) as [Ea Ha].
  eexists. split; [done|]. cbn [angleDeg visSym dx dz].
  rewrite Eθ, Ea. split; [by eexists|]. done.
Qed.

(** The angle [Math.atan2] gives for two absolute values that are not
    both zero: its cosine, and when it is 0 or a right angle. *)
Lemma atan2_abs_angle (b a : R) :
  (0 < R_sqrt.sqrt (a * a + b * b))%R →
  ∃ θ : R,
    Math.atan2 (Fin (Rabs b)) (Fin (Rabs a)) = Fin θ
    ∧ (0 <= θ <= PI / 2)%R
    ∧ cos θ = (Rabs a / R_sqrt.sqrt (a * a + b * b))%R
    ∧ (θ = 0%R ↔ b = 0%R)
    ∧ (θ = (PI / 2)%R ↔ a = 0%R).
Proof.
  intros Hℓ. pose proof PI2_RGT_0 as Hpi.
  set (ℓ := R_sqrt.sqrt (a * a + b * b)) in *.
  assert (Hℓ2 : (ℓ * ℓ = a * a + b * b)%R) by (apply sqrt_sqrt; nra).
  pose proof (Rabs_pos a) as Ha. pose proof (Rabs_pos b) as Hb.
  assert (Ha2 : (Rabs a * Rabs a = a * a)%R).
  { unfold Rabs. destruct (Rcase_abs a); lra. }
  assert (Hb2 : (Rabs b * Rabs b = b * b)%R).
  { unfold Rabs. destruct (Rcase_abs b); lra. }
  assert (Ha0 : Rabs a = 0%R ↔ a = 0%R).
  { unfold Rabs. destruct (Rcase_abs a); lra. }
  assert (Hb0 : Rabs b = 0%R ↔ b = 0%R).
  { unfold Rabs. destruct (Rcase_abs b); lra. }
  simpl. destruct (Rlt_dec 0 (Rabs a)) as [Hpos|Hzero].
  - set (t := (Rabs b / Rabs a)%R).
    assert (Ht : (0 <= t)%R).
    { apply Rmult_le_pos; [done|]. left. by apply Rinv_0_lt_compat. }
    assert (Et : (t * Rabs a = Rabs b)%R) by (unfold t; field; lra).
    exists (atan t). split; [done|].
    pose proof (atan_bound t) as Hbound.
    pose proof (atan_nonneg t Ht) as Hnn.
    split; [lra|]. split; [|split].
    + rewrite cos_atan. unfold Rsqr.
      assert (Es : R_sqrt.sqrt (1 + t * t) = (ℓ / Rabs a)%R).
      { apply sqrt_lem_1.
        - nra.
        - apply Rmult_le_pos; [lra|]. left. by apply Rinv_0_lt_compat.
        - assert (E : (ℓ / Rabs a * (ℓ / Rabs a)
                       = ℓ * ℓ / (Rabs a * Rabs a))%R) by (field; lra).
          rewrite E, Hℓ2, <- Ha2, <- Hb2, <- Et. field. lra. }
      rewrite Es. field. lra.
    + split.
      * intros E0. apply Hb0.
        destruct Ht as [Ht|Ht].
        -- apply atan_increasing in Ht. rewrite atan_0 in Ht. lra.
        -- rewrite <- Et, <- Ht. lra.
      * intros Eb. apply Hb0 in Eb.
        assert (t = 0%R) as -> by (unfold t; rewrite Eb; field; lra).
        apply atan_0.
    + split; [lra|]. intros Ea. apply Ha0 in Ea. lra.
  - assert (Ea : Rabs a = 0%R) by lra.
    destruct (Rlt_dec (Rabs a) 0); [lra|].
    assert (Hbpos : (0 < Rabs b)%R).
    { destruct (Rle_lt_or_eq_dec _ _ Hb) as [|E]; [done|].
      exfalso. apply Ha0 in Ea. symmetry in E. apply Hb0 in E. subst.
      assert (ℓ * ℓ = 0)%R by lra. nra. }
    destruct (Rlt_dec 0 (Rabs b)); [|lra].
    exists (PI / 2)%R. split; [done|]. split; [lra|].
    split; [|split].
    + rewrite cos_PI2, Ea. field. lra.
    + split; [lra|]. intros Eb. apply Hb0 in Eb. lra.
    + split; [|done]. intros _. by apply Ha0.
Qed.

(** What [measurable] gives in real numbers. *)
Lemma measurable_reals (lm : PoseLandmarks) (ls rs : Landmark) :
  measurable lm ls rs →
  ∃ xl xr zl zr : R,
    x ls = Fin xl ∧ x rs = Fin xr ∧ z ls = Fin zl ∧ z rs = Fin zr
    ∧ sub (x ls) (x rs) = Fin (xl + - xr)
    ∧ sub (z ls) (z rs) = Fin (zl + - zr)
    ∧ Math.hypot (sub (x ls) (x rs)) (sub (z ls) (z rs))
      = Fin (R_sqrt.sqrt ((xl + - xr) * (xl + - xr)
                          + (zl + - zr) * (zl + - zr)))
    ∧ (1e-6 <= R_sqrt.sqrt ((xl + - xr) * (xl + - xr)
                            + (zl + - zr) * (zl + - zr)))%R
    ∧ lt (Math.hypot (sub (x ls) (x rs)) (sub (z ls) (z rs))) EPSILON
      = false.
Proof.
  intros (_ & _ & _ & _ & _ & _ & ℓ & Hℓ & Hge).
  destruct (hypot_Fin_inv _ _ _ Hℓ) as (a & b & Ea & Eb & ->).
  destruct (sub_Fin_inv _ _ _ Ea) as (xl & xr & Exl & Exr & ->).
  destruct (sub_Fin_inv _ _ _ Eb) as (zl & zr & Ezl & Ezr & ->).
  exists xl, xr, zl, zr. rewrite Hℓ, Ea, Eb. repeat split; try done.
  simpl. destruct (Rlt_dec _ 1e-6); [lra | done].
Qed.

(** The cosine term of a measurable pair. *)
Lemma geom_measurable (a b : R) :
  (1e-6 <= R_sqrt.sqrt (a * a + b * b))%R →
  div (Math.abs (Fin a)) (Fin (R_sqrt.sqrt (a * a + b * b)))
  = Fin (Rabs a / R_sqrt.sqrt (a * a + b * b))
  ∧ (0 <= Rabs a / R_sqrt.sqrt (a * a + b * b) <= 1)%R.
Proof.
  intros Hge. pose proof (abs_le_hypot a b) as Hle.
  pose proof (Rabs_pos a) as Hpos.
  set (ℓ := R_sqrt.sqrt (a * a + b * b)) in *.
  assert (Hq : (0 <= Rabs a / ℓ <= 1)%R).
  { assert (E : (Rabs a / ℓ * ℓ = Rabs a)%R) by (field; lra).
    split; nra. }
  split; [|done]. simpl. apply div_Fin_1024; lra.
Qed.

(** The visibilities of two usable shoulders with visibilities at most 1
    differ by less than 0.7. *)
Lemma usable_visibility (l : Landmark) :
  isVisible (Some l) = true → valid_landmark l →
  ∃ v : R, nullish (visibility l) (Fin 1) = Fin v ∧ (0.3 < v <= 1)%R.
Proof.
  intros Hvis Hval. destruct (visibility_in01 l Hval) as (v & Ev & Hv).
  exists v. split; [done|]. simpl in Hvis. rewrite Ev in Hvis.
  unfold gt in Hvis. simpl in Hvis.
  destruct (Rlt_dec 0.3 v); [lra | done].
Qed.

(** X2. The two ends of the scale.  For shoulders that pass every guard,
    with finite coordinates, visibilities in [0,1] and a finite distance
    of at least 1e-6: when they have the same depth the debug record
    shows dz = 0, the angle 0 and a score equal to the visibility
    symmetry, which is 1 when the two visibilities are equal; when they
    have the same x it shows dx = 0, the angle 90 and the score 0. *)
Theorem score_and_angle_at_the_ends (lm : PoseLandmarks) (ls rs : Landmark) :
  measurable lm ls rs → valid_landmark ls → valid_landmark rs →
  ∃ d, horizontalScoreDetailed lm = Some d
    ∧ (z ls = z rs →
       dz d = Fin 0 ∧ angleDeg d = Fin 0 ∧ score d = visSym d
       ∧ (nullish (visibility ls) (Fin 1) = nullish (visibility rs) (Fin 1) →
          score d = Fin 1))
    ∧ (x ls = x rs →
       dx d = Fin 0 ∧ angleDeg d = Fin 90 ∧ score d = Fin 0).
Proof.
  intros Hm Vl Vr. pose proof Hm as (El & Er & Hl & Hr & Hzl & Hzr & _).
  destruct (measurable_reals lm ls rs Hm)
    as (xl & xr & zl & zr & Exl & Exr & Ezl & Ezr & Edx & Edz & Elen
        & Hge & Hlt).
  destruct (usable_visibility ls Hl Vl) as (vl & Evl & Hvl).
  destruct (usable_visibility rs Hr Vr) as (vr & Evr & Hvr).
  set (a := (xl + - xr)%R) in *. set (b := (zl + - zr)%R) in *.
  set (ℓ := R_sqrt.sqrt (a * a + b * b)) in *.
  assert (Hℓ2 : (ℓ * ℓ = a * a + b * b)%R) by (apply sqrt_sqrt; nra).
  assert (Ha2 : (Rabs a * Rabs a = a * a)%R).
  { unfold Rabs. destruct (Rcase_abs a); lra. }
  assert (Hb2 : (Rabs b * Rabs b = b * b)%R).
  { unfold Rabs. destruct (Rcase_abs b); lra. }
  pose proof (Rabs_pos a) as Hapos. pose proof (Rabs_pos b) as Hbpos.
  destruct (geom_measurable a b Hge) as [Eg Hg]. fold ℓ in Eg, Hg.
  set (g := (Rabs a / ℓ)%R) in *.
  assert (Egℓ : (g * ℓ = Rabs a)%R) by (unfold g; field; lra).
  set (s := (1 - Rabs (vl - vr))%R).
  assert (Hs : (0.3 < s <= 1)%R).
  { unfold s, Rabs. destruct (Rcase_abs _); lra. }
  assert (Esym : sub (Fin 1) (Math.abs (sub (Fin vl) (Fin vr))) = Fin s).
  { rewrite sub_Fin_1024 by lra. cbn [Math.abs].
    apply sub_Fin_1024. unfold s in Hs. lra. }
  destruct (atan2_abs_angle b a) as (θ & Eθ & Hθ & _ & H0 & H90).
  { fold ℓ. lra. }
  destruct (angle_degrees θ Hθ) as [Ea _].
  pose proof PI_RGT_0 as Hpi.
  rewrite (horizontalScoreDetailed_usable lm ls rs) by done.
  eexists. split; [done|].
  cbn [dx dz angleDeg score visSym].
  rewrite Elen, Edx, Edz, Evl, Evr, Esym. cbn [Math.abs]. cbn [Math.abs] in Eg.
  rewrite Eg, Eθ, Ea, mul_Fin_1024 by nra.
  split.
  - intros Ez. rewrite Ezl, Ezr in Ez. injection Ez as Ez.
    assert (Hb : b = 0%R) by (unfold b; lra).
    assert (Hrb : Rabs b = 0%R) by (rewrite Hb; apply Rabs_R0).
    assert (Hθ0 : θ = 0%R) by (by apply H0).
    assert (Hg1 : g = 1%R).
    { assert (ℓ = Rabs a) as Eℓ by (apply sqrt_lem_1; nra).
      unfold g. rewrite <- Eℓ. field. lra. }
    split; [by rewrite Hrb|]. split; [|split].
    + f_equal. rewrite Hθ0. unfold Rdiv. lra.
    + f_equal. rewrite Hg1. lra.
    + intros [= Ev]. f_equal.
      assert (s = 1)%R.
      { unfold s. rewrite Ev. replace (vr - vr)%R with 0%R by lra.
        rewrite Rabs_R0. lra. }
      nra.
  - intros Ex. rewrite Exl, Exr in Ex. injection Ex as Ex.
    assert (Ha : a = 0%R) by (unfold a; lra).
    assert (Hra : Rabs a = 0%R) by (rewrite Ha; apply Rabs_R0).
    assert (Hθ90 : θ = (PI / 2)%R) by (by apply H90).
    assert (Hg0 : g = 0%R) by (unfold g; rewrite Hra; field; lra).
    split; [by rewrite Hra|]. split.
    + f_equal. rewrite Hθ90. field. lra.
    + f_equal. rewrite Hg0. lra.
Qed.

(** X5. When the detector gives no visibility for the two shoulders they
    count as fully visible (they pass the guard and the visibility
    symmetry is 1), while the echoes of the debug record show v = 0. *)
Theorem missing_visibility_scored_as_1_echoed_as_0
    (lm : PoseLandmarks) (ls rs : Landmark) :
  lm !! L_SHOULDER = Some ls → lm !! R_SHOULDER = Some rs →
  visibility ls = None → visibility rs = None →
  Number.isFinite (z ls) = true → Number.isFinite (z rs) = true →
  lt (Math.hypot (sub (x ls) (x rs)) (sub (z ls) (z rs))) EPSILON = false →
  isVisible (Some ls) = true ∧ isVisible (Some rs) = true
  ∧ ∃ d, horizontalScoreDetailed lm = Some d
      ∧ visSym d = Fin 1
      ∧ Snapshot.v (left d) = Fin 0
      ∧ Snapshot.v (right d) = Fin 0.
Proof.
  intros El Er Vl Vr Hzl Hzr Hlen.
  assert (Hvis : ∀ l, visibility l = None → isVisible (Some l) = true).
  { intros l E. simpl. rewrite E. unfold gt. simpl.
    destruct (Rlt_dec 0.3 1); [done | lra]. }
  split; [by apply Hvis|]. split; [by apply Hvis|].
  rewrite (horizontalScoreDetailed_usable lm ls rs) by auto.
  eexists. split; [done|]. cbn [visSym left right Snapshot.v].
  rewrite Vl, Vr. cbn [nullish default]. split; [|done].
  rewrite sub_Fin_1024 by lra. cbn [Math.abs].
  replace (1 - 1)%R with 0%R by lra. rewrite Rabs_R0.
  rewrite sub_Fin_1024 by lra. f_equal. lra.
Qed.

(** [horizontalScore] for two present shoulders, as one expression. *)
Lemma horizontalScore_present (lm : PoseLandmarks) (ls rs : Landmark) :
  lm !! L_SHOULDER = Some ls → lm !! R_SHOULDER = Some rs →
  horizontalScore lm =
    Some (if negb (isVisible (Some ls)) || negb (isVisible (Some rs))
          then Fin 0
          else if negb (Number.isFinite (z ls))
                  || negb (Number.isFinite (z rs)) then Fin 0
          else if lt (Math.hypot (sub (x ls) (x rs)) (sub (z ls) (z rs)))
                    EPSILON then Fin 0
          else mul (div (Math.abs (sub (x ls) (x rs)))
                        (Math.hypot (sub (x ls) (x rs)) (sub (z ls) (z rs))))
                   (sub (Fin 1)
                      (Math.abs (sub (nullish (visibility ls) (Fin 1))
                                     (nullish (visibility rs) (Fin 1)))))).
Proof.
  intros El Er.
  destruct (isVisible (Some ls)) eqn:Hl; cycle 1.
  { apply horizontalScore_not_visible. left. by rewrite El. }
  destruct (isVisible (Some rs)) eqn:Hr; cycle 1.
  { apply horizontalScore_not_visible. right. by rewrite Er. }
  unfold horizontalScore, horizontalScoreDetailed.
  rewrite El, Er, Hl, Hr. cbn [negb orb mbind option_bind].
  destruct (Number.isFinite (z ls)); [|done].
  destruct (Number.isFinite (z rs)); [|done]. cbn [negb orb].
  by destruct (lt _ EPSILON).
Qed.

(** [shoulderTiltScore] for two present shoulders, as one expression. *)
Lemma shoulderTiltScore_present (lm : PoseLandmarks) (ls rs : Landmark) :
  lm !! L_SHOULDER = Some ls → lm !! R_SHOULDER = Some rs →
  shoulderTiltScore lm =
    Some (if negb (isVisible (Some ls)) || negb (isVisible (Some rs))
          then Fin 0
          else if lt (Math.abs (sub (x ls) (x rs))) EPSILON
                  && lt (Math.abs (sub (y ls) (y rs))) EPSILON then Fin 0
          else sub (Fin 1)
                 (div (Math.atan2 (Math.abs (sub (y ls) (y rs)))
                                  (Math.abs (sub (x ls) (x rs))))
                      (div Math.PI (Fin 2)))).
Proof.
  intros El Er.
  destruct (isVisible (Some ls)) eqn:Hl; cycle 1.
  { apply shoulderTiltScore_not_visible. left. by rewrite El. }
  destruct (isVisible (Some rs)) eqn:Hr; cycle 1.
  { apply shoulderTiltScore_not_visible. right. by rewrite Er. }
  by rewrite (shoulderTiltScore_usable lm ls rs).
Qed.

(** X6. [horizontalScore] does not depend on the y of the shoulders, and
    [shoulderTiltScore] depends neither on their depth nor, beyond the
    usability threshold, on their visibility. *)
Theorem scores_ignore_other_axis (lm lm' : PoseLandmarks)
    (ls rs ls' rs' : Landmark) :
  lm !! L_SHOULDER = Some ls → lm !! R_SHOULDER = Some rs →
  lm' !! L_SHOULDER = Some ls' → lm' !! R_SHOULDER = Some rs' →
  x ls = x ls' → x rs = x rs' →
  (z ls = z ls' → z rs = z rs' →
   visibility ls = visibility ls' → visibility rs = visibility rs' →
   horizontalScore lm = horizontalScore lm')
  ∧ (y ls = y ls' → y rs = y rs' →
     isVisible (Some ls) = isVisible (Some ls') →
     isVisible (Some rs) = isVisible (Some rs') →
     shoulderTiltScore lm = shoulderTiltScore lm').
Proof.
  intros El Er El' Er' Exl Exr. split.
  - intros Ezl Ezr Evl Evr.
    rewrite (horizontalScore_present lm ls rs),
      (horizontalScore_present lm' ls' rs') by done.
    cbn [isVisible]. by rewrite Exl, Exr, Ezl, Ezr, Evl, Evr.
  - intros Eyl Eyr Hl Hr.
    rewrite (shoulderTiltScore_present lm ls rs),
      (shoulderTiltScore_present lm' ls' rs') by done.
    by rewrite Exl, Exr, Eyl, Eyr, Hl, Hr.
Qed.

(** The sample poses [pose_frontal] and [pose_profile] are measurable. *)
Lemma measurable_frontal :
  measurable pose_frontal (shoulder 0.4 0.5 0 1) (shoulder 0.6 0.5 0 1).
Proof.
  split; [exact pose_frontal_left|]. split; [exact pose_frontal_right|].
  split; [apply shoulder_visible|]. split; [apply shoulder_visible|].
  split; [done|]. split; [done|].
  exists 0.2%R. split; [exact pose_frontal_len | lra].
Qed.

Lemma debug_record_ranges_witness :
  valid_pose pose_frontal
  ∧ ∃ d, horizontalScoreDetailed pose_frontal = Some d
    ∧ (∃ a : R, angleDeg d = Fin a ∧ (0 <= a <= 90)%R)
    ∧ in01 (visSym d)
    ∧ nonneg (dx d) ∧ nonneg (dz d).
Proof.
  split; [exact valid_pose_frontal|].
  exact (debug_record_ranges pose_frontal valid_pose_frontal).
Defined.

Lemma pose_profile_left :
  pose_profile !! L_SHOULDER = Some (shoulder 0.5 0.5 0.1 1).
Proof. unfold pose_profile. by rewrite lookup_insert_eq. Qed.

Lemma pose_profile_right :
  pose_profile !! R_SHOULDER = Some (shoulder 0.5 0.5 (-0.1) 1).
Proof.
  unfold pose_profile. rewrite lookup_insert_ne by done.
  by rewrite lookup_insert_eq.
Qed.

Lemma measurable_profile :
  measurable pose_profile (shoulder 0.5 0.5 0.1 1)
    (shoulder 0.5 0.5 (-0.1) 1).
Proof.
  split; [exact pose_profile_left|]. split; [exact pose_profile_right|].
  split; [apply shoulder_visible|]. split; [apply shoulder_visible|].
  split; [done|]. split; [done|].
  exists 0.2%R. split; [|lra].
  unfold shoulder. cbn [x z].
  rewrite !sub_Fin_1024 by lra. cbn [Math.hypot]. 
  replace (0.5 - 0.5)%R with 0%R by lra.
  replace (0.1 - -0.1)%R with 0.2%R by lra.
  rewrite overflow_small.
  - f_equal. apply sqrt_lem_1; lra.
  - assert (R_sqrt.sqrt (0 * 0 + 0.2 * 0.2) = 0.2%R) as ->
      by (apply sqrt_lem_1; lra).
    lra.
Qed.

Lemma score_and_angle_at_the_ends_witness :
  (measurable pose_frontal (shoulder 0.4 0.5 0 1) (shoulder 0.6 0.5 0 1)
   ∧ ∃ d, horizontalScoreDetailed pose_frontal = Some d
          ∧ angleDeg d = Fin 0 ∧ score d = Fin 1)
  ∧ (measurable pose_profile (shoulder 0.5 0.5 0.1 1)
       (shoulder 0.5 0.5 (-0.1) 1)
     ∧ ∃ d, horizontalScoreDetailed pose_profile = Some d
            ∧ angleDeg d = Fin 90 ∧ score d = Fin 0).
Proof.
  split.
  - split; [exact measurable_frontal|].
    destruct (score_and_angle_at_the_ends pose_frontal _ _ measurable_frontal
                (valid_shoulder 0.4 0.5 0 1 ltac:(lra))
                (valid_shoulder 0.6 0.5 0 1 ltac:(lra)))
      as (d & Hd & Hz & _).
    destruct (Hz eq_refl) as (_ & Ha & _ & H1).
    exists d. split; [exact Hd|]. split; [exact Ha|]. by apply H1.
  - split; [exact measurable_profile|].
    destruct (score_and_angle_at_the_ends pose_profile _ _ measurable_profile
                (valid_shoulder 0.5 0.5 0.1 1 ltac:(lra))
                (valid_shoulder 0.5 0.5 (-0.1) 1 ltac:(lra)))
      as (d & Hd & _ & Hx).
    destruct (Hx eq_refl) as (_ & Ha & Hs).
    exists d. by split.
Defined.

Lemma pose_no_visibility_len :
  lt (Math.hypot (sub (Fin 0.4) (Fin 0.6)) (sub (Fin 0) (Fin 0))) EPSILON
  = false.
Proof. apply le_lt_false, pose_frontal_len_ge. Qed.

Lemma missing_visibility_witness :
  ∃ d, horizontalScoreDetailed pose_no_visibility = Some d
    ∧ visSym d = Fin 1
    ∧ Snapshot.v (left d) = Fin 0
    ∧ Snapshot.v (right d) = Fin 0.
Proof.
  apply (missing_visibility_scored_as_1_echoed_as_0 pose_no_visibility
           (mkLandmark (Fin 0.4) (Fin 0.5) (Fin 0) None)
           (mkLandmark (Fin 0.6) (Fin 0.5) (Fin 0) None)).
  - unfold pose_no_visibility. by rewrite lookup_insert_eq.
  - unfold pose_no_visibility. rewrite lookup_insert_ne by done.
    by rewrite lookup_insert_eq.
  - done.
  - done.
  - done.
  - done.
  - exact pose_no_visibility_len.
Defined.

Lemma scores_ignore_other_axis_witness :
  horizontalScore pose_frontal = horizontalScore pose_frontal_low
  ∧ shoulderTiltScore pose_frontal = shoulderTiltScore pose_frontal_deep.
Proof.
  assert (Hlow_l : pose_frontal_low !! L_SHOULDER
                   = Some (shoulder 0.4 0.8 0 1)).
  { unfold pose_frontal_low. by rewrite lookup_insert_eq. }
  assert (Hlow_r : pose_frontal_low !! R_SHOULDER
                   = Some (shoulder 0.6 0.8 0 1)).
  { unfold pose_frontal_low. rewrite lookup_insert_ne by done.
    by rewrite lookup_insert_eq. }
  assert (Hdeep_l : pose_frontal_deep !! L_SHOULDER
                    = Some (shoulder 0.4 0.5 0.3 0.9)).
  { unfold pose_frontal_deep. by rewrite lookup_insert_eq. }
  assert (Hdeep_r : pose_frontal_deep !! R_SHOULDER
                    = Some (shoulder 0.6 0.5 0.3 0.9)).
  { unfold pose_frontal_deep. rewrite lookup_insert_ne by done.
    by rewrite lookup_insert_eq. }
  assert (Hvis : ∀ a b c, isVisible (Some (shoulder a b c 1))
                          = isVisible (Some (shoulder a b 0.3 0.9))).
  { intros a b c. rewrite shoulder_visible. simpl. unfold gt. simpl.
    by destruct (Rlt_dec 0.3 0.9); [|lra]. }
  split.
  - by apply (scores_ignore_other_axis pose_frontal pose_frontal_low
                _ _ _ _ pose_frontal_left pose_frontal_right Hlow_l Hlow_r
                eq_refl eq_refl).
  - apply (scores_ignore_other_axis pose_frontal pose_frontal_deep
             _ _ _ _ pose_frontal_left pose_frontal_right Hdeep_l Hdeep_r
             eq_refl eq_refl); try done; apply Hvis.
Defined.

(** * Further properties of the landmark smoother *)

Lemma smooth_pose_lookup (st raw : PoseLandmarks) (i : nat) :
  smooth_pose st raw !! i =
    match raw !! i with
    | Some p => Some (smoothed p (default p (st !! i)))
    | None => st !! i
    end.
Proof.
  unfold smooth_pose. rewrite lookup_merge.
  by destruct (st !! i), (raw !! i).
Qed.

Lemma fresh_frames_session (h : heap) (f : loc) (fs : list loc) :
  fresh_frames h (f :: fs) → session h f fs.
Proof.
  intros [Hnd Hobj]. apply list.NoDup_cons in Hnd as [Hf Hnd].
  split; [done|]. split; [done|]. split; [|split].
  - intros j j' l Hj Hj'.
    by destruct (Hobj f f j j' l) as [_ ?]; try apply list_elem_of_here.
  - intros g g' j j' l Hg Hg'.
    by apply Hobj; apply list_elem_of_further.
  - intros g Hg j j' l Hj Hj'.
    destruct (Hobj f g j j' l) as [-> _]; try done.
    + apply list_elem_of_here.
    + by apply list_elem_of_further.
Qed.

Lemma session_fresh_frame (h : heap) (cur f : loc) (fs : list loc) :
  session h cur (f :: fs) → fresh_frame h cur f.
Proof.
  intros (Hcur & Hnd & Hd & Hobj & Hsep).
  apply not_elem_of_cons in Hcur as [Hcf Hcur].
  split; [done|]. split; [done|]. split.
  - intros j j' l Hj Hj'.
    by destruct (Hobj f f j j' l) as [_ ?]; try apply list_elem_of_here.
  - apply Hsep, list_elem_of_here.
Qed.

(** An update leaves the landmark objects of the frames to come as they
    are. *)
Lemma update_landmarks_other (h : heap) (cur pose : loc) (l : loc) :
  fresh_frame h cur pose →
  (∀ i, poses h cur !! i ≠ Some l) → (∀ i, poses h pose !! i ≠ Some l) →
  landmarks (update (h, Some cur) pose).1 l = landmarks h l.
Proof.
  intros Hfresh Hc Hp. unfold update. cbn [fst snd].
  destruct (smoothing_loop_spec h cur pose Hfresh (keys (poses h pose)))
    as (_ & _ & _ & P4).
  { apply NoDup_keys. }
  { intros j. by rewrite elem_of_keys. }
  apply P4. intros i _ [_ Ht]%target_cases.
  destruct Ht as [Ht|[_ Ht]]; [by apply (Hc i) | by apply (Hp i)].
Qed.

(** One update inside a session: the state is smoothed as [smooth_pose]
    says, the frames to come are untouched, and the rest is a session
    again. *)
Lemma session_step (h : heap) (cur f : loc) (fs : list loc) :
  session h cur (f :: fs) →
  let h1 := (update (h, Some cur) f).1 in
  session h1 cur fs
  ∧ deref h1 cur = smooth_pose (deref h cur) (deref h f)
  ∧ ∀ g, g ∈ fs → deref h1 g = deref h g.
Proof.
  intros Hs h1. pose proof (session_fresh_frame _ _ _ _ Hs) as Hfresh.
  destruct Hs as (Hcur & Hnd & Hd & Hobj & Hsep).
  apply not_elem_of_cons in Hcur as [Hcf Hcur].
  apply list.NoDup_cons in Hnd as [Hf Hnd].
  destruct (update_poses h cur f Hfresh) as (_ & Hu & Hq).
  fold h1 in Hu, Hq.
  assert (Hsame : ∀ g, g ∈ fs → poses h1 g = poses h g).
  { intros g Hg. apply Hq. by intros ->. }
  split; [|split].
  - split; [done|]. split; [done|]. split; [|split].
    + rewrite Hu. intros j j' l. rewrite !lookup_union_Some_raw.
      intros [Hj|[_ Hj]] [Hj'|[_ Hj']].
      * by eapply Hd.
      * by destruct (Hsep f (list_elem_of_here _ _) j j' l).
      * by destruct (Hsep f (list_elem_of_here _ _) j' j l).
      * by destruct (Hobj f f j j' l) as [_ ?]; try apply list_elem_of_here.
    + intros g g' j j' l Hg Hg'. rewrite !Hsame by done.
      by apply Hobj; apply list_elem_of_further.
    + intros g Hg j j' l. rewrite Hu, (Hsame g Hg).
      rewrite lookup_union_Some_raw. intros [Hj|[_ Hj]] Hj'.
      * by destruct (Hsep g (list_elem_of_further _ _ _ Hg) j j' l).
      * destruct (Hobj f g j j' l) as [-> _]; try done.
        -- apply list_elem_of_here.
        -- by apply list_elem_of_further.
  - apply map_eq. intros i. rewrite smooth_pose_lookup.
    exact (update_output h cur f i Hfresh).
  - intros g Hg. unfold deref. rewrite (Hsame g Hg).
    apply map_eq. intros i. rewrite !lookup_fmap.
    destruct (poses h g !! i) as [l|] eqn:Hl; [|done]. simpl. f_equal.
    apply update_landmarks_other; [done| |].
    + intros j Hj.
      by destruct (Hsep g (list_elem_of_further _ _ _ Hg) j i l).
    + intros j Hj. destruct (Hobj f g j i l) as [-> _]; try done.
      * apply list_elem_of_here.
      * by apply list_elem_of_further.
Qed.

(** The smoothed pose after a run, as a fold of [smooth_pose] over the
    poses the frames denoted when the run began. *)
Lemma run_values (fs : list loc) (h : heap) (cur : loc) :
  session h cur fs →
  output (run (h, Some cur) fs)
  = foldl smooth_pose (deref h cur) (deref h <$> fs).
Proof.
  revert h. induction fs as [|f fs IH]; intros h Hs; [done|].
  destruct (session_step h cur f fs Hs) as (Hs1 & Hcur & Hsame).
  pose proof (session_fresh_frame _ _ _ _ Hs) as Hfresh.
  change (run (h, Some cur) (f :: fs))
    with (run ((update (h, Some cur) f).1, Some cur) fs).
  rewrite (IH _ Hs1), Hcur, fmap_cons. cbn [foldl]. f_equal.
  apply list_fmap_ext. intros n g Hg. apply Hsame.
  by eapply list_elem_of_lookup_2.
Qed.

(** X8. The smoother with its shared, mutated objects computes what the
    pure filter computes: on a session of fresh frames the smoothed pose
    is the left fold of [smooth_pose] over the raw poses, starting from
    the first one. *)
Theorem smoother_refines_pure_filter (h : heap) (f1 : loc) (fs : list loc) :
  fresh_frames h (f1 :: fs) →
  output (run (h, None) (f1 :: fs))
  = foldl smooth_pose (deref h f1) (deref h <$> fs).
Proof.
  intros Hfresh.
  change (run (h, None) (f1 :: fs)) with (run (h, Some f1) fs).
  by apply run_values, fresh_frames_session.
Qed.

Lemma smoother_refines_pure_filter_witness :
  fresh_frames sample_heap [100; 101]
  ∧ output (run (sample_heap, None) [100; 101])
    = foldl smooth_pose (deref sample_heap 100) (deref sample_heap <$> [101]).
Proof.
  split; [exact sample_heap_fresh_frames|].
  exact (smoother_refines_pure_filter sample_heap 100 [101]
           sample_heap_fresh_frames).
Defined.

(** ** The visibility of a landmark is the one of its first sighting *)

Lemma smooth_pose_visibility (raws : list PoseLandmarks)
    (st : PoseLandmarks) (i : nat) (l0 : Landmark) :
  st !! i = Some l0 →
  ∃ o, foldl smooth_pose st raws !! i = Some o
       ∧ visibility o = visibility l0.
Proof.
  revert st l0. induction raws as [|raw raws IH]; intros st l0 Hst.
  - by exists l0.
  - cbn [foldl].
    destruct (raw !! i) as [p|] eqn:Hp.
    + destruct (IH (smooth_pose st raw) (smoothed p l0)) as (o & Ho & Hv).
      { by rewrite smooth_pose_lookup, Hp, Hst. }
      by exists o.
    + apply IH. by rewrite smooth_pose_lookup, Hp.
Qed.

Lemma detailed_not_visible (lm : PoseLandmarks) :
  isVisible (lm !! L_SHOULDER) = false ∨ isVisible (lm !! R_SHOULDER) = false →
  horizontalScoreDetailed lm = Some blank.
Proof.
  intros H. unfold horizontalScoreDetailed.
  destruct H as [-> | ->]; [done|].
  by destruct (isVisible (lm !! L_SHOULDER)).
Qed.

(** X9. Through a whole session the smoothed pose shows a landmark with
    the visibility of the first frame, whatever visibilities the later
    frames give it. *)
Theorem visibility_frozen_at_first_frame (h : heap) (f1 : loc)
    (fs : list loc) (i : nat) (l0 : Landmark) :
  fresh_frames h (f1 :: fs) →
  deref h f1 !! i = Some l0 →
  ∃ o, output (run (h, None) (f1 :: fs)) !! i = Some o
       ∧ visibility o = visibility l0
       ∧ isVisible (Some o) = isVisible (Some l0).
Proof.
  intros Hfresh Hl0.
  change (run (h, None) (f1 :: fs)) with (run (h, Some f1) fs).
  rewrite run_values by by apply fresh_frames_session.
  destruct (smooth_pose_visibility (deref h <$> fs) _ i l0 Hl0)
    as (o & Ho & Hv).
  exists o. split; [done|]. split; [done|].
  unfold isVisible. by rewrite Hv.
Qed.

(** X10. A shoulder that the first frame of a session shows with a
    visibility of at most 0.3 blanks the scores of the whole session:
    after any number of further frames, however visible the shoulder is
    in them, the debug record is the blank one and both scores are 0. *)
Theorem dim_first_frame_blanks_session (h : heap) (f1 : loc)
    (fs : list loc) (i : nat) (l0 : Landmark) :
  fresh_frames h (f1 :: fs) →
  i = L_SHOULDER ∨ i = R_SHOULDER →
  deref h f1 !! i = Some l0 →
  isVisible (Some l0) = false →
  let lm := output (run (h, None) (f1 :: fs)) in
  horizontalScoreDetailed lm = Some blank
  ∧ computeAllMetrics lm
    = Some [("horizontalScore"%string, Fin 0);
            ("shoulderTiltScore"%string, Fin 0)].
Proof.
  intros Hfresh Hi Hl0 Hdim lm.
  change (run (h, None) (f1 :: fs)) with (run (h, Some f1) fs) in lm.
  assert (Hv : isVisible (lm !! L_SHOULDER) = false
               ∨ isVisible (lm !! R_SHOULDER) = false).
  { unfold lm. rewrite run_values by by apply fresh_frames_session.
    destruct (smooth_pose_visibility (deref h <$> fs) _ i l0 Hl0)
      as (o & Ho & Hvo).
    assert (isVisible (Some o) = false) as Ho'.
    { rewrite <- Hdim. unfold isVisible. by rewrite Hvo. }
    destruct Hi as [-> | ->]; [left | right]; by rewrite Ho. }
  split; [by apply detailed_not_visible|].
  unfold computeAllMetrics.
  rewrite (horizontalScore_not_visible lm Hv).
  by rewrite (shoulderTiltScore_not_visible lm Hv).
Qed.

Lemma sample_heap_dim_first : fresh_frames sample_heap [102; 100].
Proof.
  split.
  - apply list.NoDup_cons. split.
    + rewrite not_elem_of_cons. split; [done | apply not_elem_of_nil].
    + apply NoDup_singleton.
  - intros f g j j' l Hf Hg Hj Hj'. solve_frames;
      cbn [poses sample_heap] in Hj, Hj'; solve_lookups.
Qed.

Lemma sample_heap_dim_left :
  deref sample_heap 102 !! L_SHOULDER = Some (shoulder 0.5 0.5 0 0.1).
Proof.
  unfold deref. rewrite lookup_fmap. cbn [poses sample_heap].
  by rewrite lookup_insert_eq.
Qed.

Lemma shoulder_dim (a b c : R) : isVisible (Some (shoulder a b c 0.1)) = false.
Proof.
  simpl. unfold gt. simpl. by destruct (Rlt_dec 0.3 0.1); [lra|].
Qed.

Lemma visibility_frozen_at_first_frame_witness :
  fresh_frames sample_heap [102; 100]
  ∧ deref sample_heap 102 !! L_SHOULDER = Some (shoulder 0.5 0.5 0 0.1)
  ∧ ∃ o, output (run (sample_heap, None) [102; 100]) !! L_SHOULDER = Some o
         ∧ visibility o = Some (Fin 0.1)
         ∧ isVisible (Some o) = isVisible (Some (shoulder 0.5 0.5 0 0.1)).
Proof.
  split; [exact sample_heap_dim_first|].
  split; [exact sample_heap_dim_left|].
  exact (visibility_frozen_at_first_frame sample_heap 102 [100] L_SHOULDER _
           sample_heap_dim_first sample_heap_dim_left).
Defined.

Lemma dim_first_frame_blanks_session_witness :
  fresh_frames sample_heap [102; 100]
  ∧ deref sample_heap 102 !! L_SHOULDER = Some (shoulder 0.5 0.5 0 0.1)
  ∧ isVisible (Some (shoulder 0.5 0.5 0 0.1)) = false
  ∧ horizontalScoreDetailed (output (run (sample_heap, None) [102; 100]))
    = Some blank
  ∧ computeAllMetrics (output (run (sample_heap, None) [102; 100]))
    = Some [("horizontalScore"%string, Fin 0);
            ("shoulderTiltScore"%string, Fin 0)].
Proof.
  split; [exact sample_heap_dim_first|].
  split; [exact sample_heap_dim_left|].
  split; [apply shoulder_dim|].
  exact (dim_first_frame_blanks_session sample_heap 102 [100] L_SHOULDER _
           sample_heap_dim_first (or_introl eq_refl) sample_heap_dim_left
           (shoulder_dim 0.5 0.5 0)).
Defined.

(** ** The scores of the smoothed pose *)

Lemma MAX_VALUE_pos : (0 < MAX_VALUE)%R.
Proof. pose proof MAX_VALUE_ge. lra. Qed.

Lemma ema_Fin (p s : R) :
  (- MAX_VALUE <= p <= MAX_VALUE)%R → (- MAX_VALUE <= s <= MAX_VALUE)%R →
  ema (Fin p) (Fin s) = Fin (0.2 * p + 0.8 * s).
Proof.
  intros Hp Hs. pose proof MAX_VALUE_pos. rewrite ema_eq.
  cbn [mul]. rewrite !overflow_Fin by lra.
  cbn [add]. by rewrite overflow_Fin by lra.
Qed.

Lemma ema_within (p s : number) :
  within (-100) 100 p → within (-100) 100 s → within (-100) 100 (ema p s).
Proof.
  intros (r & -> & Hr) (t & -> & Ht). pose proof MAX_VALUE_ge_1024.
  rewrite ema_Fin by lra. exists (0.2 * r + 0.8 * t)%R. split; [done | lra].
Qed.

Lemma smoothed_bounded (p s : Landmark) :
  bounded_landmark p → bounded_landmark s → bounded_landmark (smoothed p s).
Proof.
  intros (Hx & Hy & Hz & _) (Hx' & Hy' & Hz' & Hv).
  unfold smoothed. repeat split; cbn [x y z visibility];
    [by apply ema_within..|done].
Qed.

Lemma smooth_pose_bounded (st raw : PoseLandmarks) :
  bounded_pose st → bounded_pose raw → bounded_pose (smooth_pose st raw).
Proof.
  intros Hst Hraw i l. rewrite smooth_pose_lookup.
  destruct (raw !! i) as [p|] eqn:Hp; [|by apply Hst].
  intros [= <-]. apply smoothed_bounded; [by eapply Hraw|].
  destruct (st !! i) as [s|] eqn:Hs; simpl; [by eapply Hst | by eapply Hraw].
Qed.

Lemma foldl_smooth_pose_bounded (raws : list PoseLandmarks)
    (st : PoseLandmarks) :
  bounded_pose st → Forall bounded_pose raws →
  bounded_pose (foldl smooth_pose st raws).
Proof.
  revert st. induction raws as [|raw raws IH]; intros st Hst Hall; [done|].
  apply list.Forall_cons in Hall as [Hraw Hall]. cbn [foldl].
  apply IH; [by apply smooth_pose_bounded | done].
Qed.

Lemma bounded_pose_valid (lm : PoseLandmarks) :
  bounded_pose lm → valid_pose lm ∧ x_gap_finite lm.
Proof.
  intros Hb. split.
  - intros i l Hl.
    destruct (Hb i l Hl)
      as ((? & Ex & _) & (? & Ey & _) & (? & Ez & _) & Hv).
    unfold valid_landmark. rewrite Ex, Ey, Ez. by repeat split.
  - intros ls rs El Er.
    destruct (Hb _ _ El) as ((a & Ea & Ha) & _).
    destruct (Hb _ _ Er) as ((b & Eb & Hb') & _).
    rewrite Ea, Eb. by rewrite sub_Fin_1024 by lra.
Qed.

(** X12. The live scores stay scores: when every frame of a session of
    fresh frames is a pose with coordinates within [-100, 100] and
    visibilities in [0,1], the smoothed pose after any number of frames
    has finite coordinates, visibilities in [0,1] and a finite x gap
    between the shoulders, and the two scores computed from it are
    numbers in [0,1], never [NaN]. *)
Theorem live_scores_in_unit_interval (h : heap) (f1 : loc) (fs : list loc) :
  fresh_frames h (f1 :: fs) →
  (∀ f, f ∈ f1 :: fs → bounded_pose (deref h f)) →
  let lm := output (run (h, None) (f1 :: fs)) in
  valid_pose lm ∧ x_gap_finite lm
  ∧ ∃ a b, computeAllMetrics lm
           = Some [("horizontalScore"%string, a);
                   ("shoulderTiltScore"%string, b)]
           ∧ in01 a ∧ in01 b.
Proof.
  intros Hfresh Hall lm.
  assert (Hb : bounded_pose lm).
  { unfold lm.
    change (run (h, None) (f1 :: fs)) with (run (h, Some f1) fs).
    rewrite run_values by by apply fresh_frames_session.
    apply foldl_smooth_pose_bounded.
    - apply Hall, list_elem_of_here.
    - apply Forall_fmap, list.Forall_forall. intros f Hf.
      by apply Hall, list_elem_of_further. }
  destruct (bounded_pose_valid lm Hb) as [Hv Hgap].
  split; [done|]. split; [done|].
  destruct (horizontalScore_valid lm Hv) as (a & Ea & Ha).
  destruct Ha as [Ha | (_ & ls & rs & El & Er & Hinf)]; cycle 1.
  { by rewrite (Hgap ls rs El Er) in Hinf. }
  destruct (shoulderTiltScore_valid lm Hv) as (b & Eb & Hb').
  exists a, b. unfold computeAllMetrics. rewrite Ea, Eb. by split.
Qed.

Lemma bounded_shoulder (a b c v : R) :
  (-100 <= a <= 100)%R → (-100 <= b <= 100)%R → (-100 <= c <= 100)%R →
  (0 <= v <= 1)%R → bounded_landmark (shoulder a b c v).
Proof.
  intros Ha Hb Hc Hv. unfold shoulder.
  split; [by exists a|]. split; [by exists b|]. split; [by exists c|].
  intros w [= <-]. by apply in01_Fin.
Qed.

Lemma sample_heap_bounded (f : loc) : bounded_pose (deref sample_heap f).
Proof.
  intros i l. unfold deref. rewrite lookup_fmap.
  destruct (poses sample_heap f !! i) as [q|]; [|done]. intros [= <-].
  destruct q as [|[|[|q]]]; apply bounded_shoulder; lra.
Qed.

Lemma live_scores_in_unit_interval_witness :
  fresh_frames sample_heap [100; 101]
  ∧ ∃ a b, computeAllMetrics (output (run (sample_heap, None) [100; 101]))
           = Some [("horizontalScore"%string, a);
                   ("shoulderTiltScore"%string, b)]
           ∧ in01 a ∧ in01 b.
Proof.
  split; [exact sample_heap_fresh_frames|].
  exact (proj2 (proj2
    (live_scores_in_unit_interval sample_heap 100 [101]
       sample_heap_fresh_frames (λ f _, sample_heap_bounded f)))).
Defined.

(** * Further properties of the score buffer *)

Lemma window_all_new (old vs : list number) :
  BUFFER_SIZE ≤ length vs → window (old ++ vs) = window vs.
Proof.
  intros H. unfold window. rewrite length_app.
  replace (length old + length vs - BUFFER_SIZE)
    with (length old + (length vs - BUFFER_SIZE)) by lia.
  apply drop_app_add.
Qed.

Lemma length_window_min (l : list number) :
  length (window l) = BUFFER_SIZE `min` length l.
Proof. unfold window. rewrite length_drop. lia. Qed.

(** X13. The array of a metric is a sliding window: after the buffer
    loop has run on any entries, the array holds the last [BUFFER_SIZE]
    of the values it held followed by the values observed for the
    metric, in order; nothing is dropped while they are at most
    [BUFFER_SIZE], and the older values are all gone once [BUFFER_SIZE]
    values were observed.  The values of other metrics play no part. *)
Theorem buffer_is_sliding_window (k : string) (buffer : buffers)
    (entries : list (string * number)) :
  length (default [] (buffer !! k)) ≤ BUFFER_SIZE →
  let old := default [] (buffer !! k) in
  let vs := values_for k entries in
  let arr := default [] (observeAll buffer entries !! k) in
  arr = window (old ++ vs)
  ∧ length arr = BUFFER_SIZE `min` (length old + length vs)
  ∧ (length old + length vs ≤ BUFFER_SIZE → arr = old ++ vs)
  ∧ (BUFFER_SIZE ≤ length vs → arr = window vs).
Proof.
  intros Hold old vs arr.
  assert (Harr : arr = window (old ++ vs)).
  { unfold arr. rewrite (observeAll_window k entries buffer Hold).
    fold vs old. destruct vs as [|v vs'].
    - rewrite app_nil_r. by rewrite window_short.
    - done. }
  split; [done|]. rewrite Harr. split; [|split].
  - by rewrite length_window_min, length_app.
  - intros H. apply window_short. by rewrite length_app.
  - apply window_all_new.
Qed.

Lemma buffer_is_sliding_window_witness :
  length (default [] ((∅ : buffers) !! "horizontalScore"%string))
    ≤ BUFFER_SIZE
  ∧ default [] (observeAll ∅ forty_scores !! "horizontalScore"%string)
    = window (values_for "horizontalScore"%string forty_scores).
Proof.
  assert (H : length (default [] ((∅ : buffers) !! "horizontalScore"%string))
              ≤ BUFFER_SIZE).
  { rewrite lookup_empty. simpl. lia. }
  split; [exact H|].
  exact (proj1 (buffer_is_sliding_window "horizontalScore"%string ∅
                  forty_scores H)).
Defined.

(** ** The invariant of the buffer *)

Lemma observe_ok (b : buffers) (k : string) (v : number) :
  buffer_ok b → buffer_ok (observe b k v).
Proof.
  intros Hb k' arr. destruct (decide (k' = k)) as [->|Hne].
  - rewrite observe_same. intros [= <-].
    assert (Hlen : length (default [] (b !! k)) ≤ BUFFER_SIZE).
    { destruct (b !! k) as [old|] eqn:E; simpl; [|lia].
      by destruct (Hb k old E). }
    cbv zeta. rewrite (observe_window _ v Hlen).
    rewrite length_window_min, length_app. cbn [length].
    unfold BUFFER_SIZE. lia.
  - rewrite observe_other by done. apply Hb.
Qed.

Lemma observe_scores_ok (b : buffers) (k : string) (v : number) :
  buffer_ok b → scores_ok b → in01 v → scores_ok (observe b k v).
Proof.
  intros Hb Hs Hv k' arr. destruct (decide (k' = k)) as [->|Hne].
  - rewrite observe_same. intros [= <-].
    assert (Hlen : length (default [] (b !! k)) ≤ BUFFER_SIZE).
    { destruct (b !! k) as [old|] eqn:E; simpl; [|lia].
      by destruct (Hb k old E). }
    cbv zeta. rewrite (observe_window _ v Hlen).
    unfold window. apply Forall_drop, Forall_app. split.
    + destruct (b !! k) as [old|] eqn:E; simpl; [by eapply Hs | done].
    + by apply Forall_singleton.
  - rewrite observe_other by done. apply Hs.
Qed.

Lemma dom_observe (b : buffers) (k : string) (v : number) :
  dom (observe b k v) = {[ k ]} ∪ dom b.
Proof. unfold observe. by rewrite dom_insert_L. Qed.

(** X14. The buffer loop keeps the buffer well formed: when every array
    holds between 1 and [BUFFER_SIZE] values before the loop, so it does
    after it, and scores in [0,1] keep the buffer one of scores in
    [0,1]; the metrics of the buffer afterwards are the ones it had and
    the ones observed, none is ever removed. *)
Theorem buffer_loop_invariant (buffer : buffers)
    (entries : list (string * number)) :
  buffer_ok buffer →
  buffer_ok (observeAll buffer entries)
  ∧ dom (observeAll buffer entries) = dom buffer ∪ list_to_set entries.*1
  ∧ (scores_ok buffer → Forall (λ kv, in01 kv.2) entries →
     scores_ok (observeAll buffer entries)).
Proof.
  revert buffer. induction entries as [|[k v] entries IH]; intros buffer Hb.
  - split; [done|]. split; [|done]. simpl.
    by rewrite (right_id_L ∅ (∪)).
  - change (observeAll buffer ((k, v) :: entries))
      with (observeAll (observe buffer k v) entries).
    destruct (IH (observe buffer k v)) as (IH1 & IH2 & IH3);
      [by apply observe_ok|].
    split; [done|]. split.
    + rewrite IH2, dom_observe. simpl.
      rewrite (comm_L (∪) {[ k ]} (dom buffer)).
      by rewrite (assoc_L (∪)).
    + intros Hs [Hv Hall]%list.Forall_cons. apply IH3; [|done].
      by apply observe_scores_ok.
Qed.

Lemma buffer_ok_empty : buffer_ok ∅.
Proof. intros k arr. by rewrite lookup_empty. Qed.

Lemma buffer_loop_invariant_witness :
  buffer_ok ∅
  ∧ buffer_ok (observeAll ∅ forty_scores)
  ∧ dom (observeAll ∅ forty_scores)
    = dom (∅ : buffers) ∪ list_to_set forty_scores.*1.
Proof.
  split; [exact buffer_ok_empty|].
  destruct (buffer_loop_invariant ∅ forty_scores buffer_ok_empty)
    as (H1 & H2 & _).
  by split.
Defined.

(** ** The averages *)

Lemma mean_in01 (arr : list number) :
  1 ≤ length arr ≤ BUFFER_SIZE → Forall in01 arr → in01 (mean arr).
Proof.
  intros [Hpos Hlen] Harr. unfold BUFFER_SIZE in Hlen.
  rewrite mean_scores by (done || lia).
  assert (HposR : (0 < INR (length arr))%R) by (apply lt_0_INR; lia).
  assert (HlenR : (INR (length arr) <= 30)%R).
  { replace 30%R with (INR 30) by (rewrite INR_IZR_INZ; done).
    by apply le_INR. }
  destruct (foldl_add_scores arr 0%R) as [_ Hsum]; [done | lra | lra |].
  set (S := foldl Rplus 0%R (to_R <$> arr)) in *.
  apply in01_Fin.
  assert (E : (S / INR (length arr) * INR (length arr) = S)%R)
    by (field; lra).
  split; nra.
Qed.

(** X15. Every average handed to [onScores] is a number in [0,1] when
    the buffer is well formed and holds scores in [0,1]: the division is
    never by zero and the sum never overflows. *)
Theorem averages_in_unit_interval (buffer : buffers) (k : string)
    (v : number) :
  buffer_ok buffer → scores_ok buffer →
  avgScores buffer !! k = Some v → in01 v.
Proof.
  intros Hb Hs. unfold avgScores. rewrite lookup_fmap.
  destruct (buffer !! k) as [arr|] eqn:E; [|done].
  intros [= <-]. apply mean_in01; [by eapply Hb | by eapply Hs].
Qed.

Lemma foldl_add_NaN (arr : list number) : foldl add NaN arr = NaN.
Proof. induction arr as [|a arr IH]; [done|]. cbn [foldl]. exact IH. Qed.

Lemma mean_NaN (arr : list number) : NaN ∈ arr → mean arr = NaN.
Proof.
  intros (l1 & l2 & ->)%list_elem_of_split. unfold mean.
  rewrite foldl_app. cbn [foldl].
  replace (add (foldl add (Fin 0) l1) NaN) with NaN
    by (by destruct (foldl add (Fin 0) l1)).
  by rewrite foldl_add_NaN.
Qed.

(** X16. A single [NaN] score spoils the average of its metric for as
    long as it sits in the window: while fewer than [BUFFER_SIZE] values
    have been observed for the metric after it, the average is [NaN]. *)
Theorem NaN_score_poisons_average (k : string) (buffer : buffers)
    (entries : list (string * number)) (before after : list number) :
  length (default [] (buffer !! k)) ≤ BUFFER_SIZE →
  values_for k entries = before ++ NaN :: after →
  length after < BUFFER_SIZE →
  avgScores (observeAll buffer entries) !! k = Some NaN.
Proof.
  intros Hold Hvs Hafter. unfold avgScores. rewrite lookup_fmap.
  rewrite (observeAll_window k entries buffer Hold), Hvs.
  destruct (before ++ NaN :: after) as [|w ws] eqn:E.
  { by destruct before. }
  rewrite <- E. simpl. f_equal. apply mean_NaN.
  unfold window. set (old := default [] (buffer !! k)).
  replace (old ++ before ++ NaN :: after)
    with ((old ++ before) ++ NaN :: after) by (by rewrite <- app_assoc).
  rewrite length_app. cbn [length].
  rewrite drop_app_le by lia.
  apply elem_of_app. right. apply list_elem_of_here.
Qed.

Lemma sample_buffer_ok : buffer_ok sample_buffer ∧ scores_ok sample_buffer.
Proof.
  split; intros k arr; unfold sample_buffer;
    intros [? ?]%lookup_singleton_Some; subst.
  - simpl. unfold BUFFER_SIZE. lia.
  - repeat constructor; apply in01_Fin; lra.
Qed.

Lemma averages_in_unit_interval_witness :
  buffer_ok sample_buffer ∧ scores_ok sample_buffer
  ∧ in01 (mean [Fin 1; Fin 0]).
Proof.
  split; [exact (proj1 sample_buffer_ok)|].
  split; [exact (proj2 sample_buffer_ok)|].
  apply (averages_in_unit_interval sample_buffer "horizontalScore"%string).
  - exact (proj1 sample_buffer_ok).
  - exact (proj2 sample_buffer_ok).
  - done.
Defined.

Lemma NaN_score_poisons_average_witness :
  avgScores (observeAll ∅ [("horizontalScore"%string, NaN);
                           ("horizontalScore"%string, Fin 1)])
    !! "horizontalScore"%string = Some NaN.
Proof.
  apply (NaN_score_poisons_average "horizontalScore"%string ∅ _ [] [Fin 1]).
  - rewrite lookup_empty. simpl. lia.
  - done.
  - simpl. unfold BUFFER_SIZE. lia.
Defined.

(** ** The buffer over a session *)

Lemma buffer_ok_length (b : buffers) (k : string) :
  buffer_ok b → length (default [] (b !! k)) ≤ BUFFER_SIZE.
Proof.
  intros Hb. destruct (b !! k) as [old|] eqn:E; simpl; [|lia].
  by destruct (Hb k old E).
Qed.

(** The buffer after one pass that scored [a] and [t]. *)
Lemma observeAll_pass (b : buffers) (a t : number) :
  buffer_ok b →
  let b' := observeAll b [("horizontalScore"%string, a);
                          ("shoulderTiltScore"%string, t)] in
  buffer_ok b'
  ∧ b' !! "horizontalScore"%string
    = Some (window (default [] (b !! "horizontalScore"%string) ++ [a]))
  ∧ b' !! "shoulderTiltScore"%string
    = Some (window (default [] (b !! "shoulderTiltScore"%string) ++ [t]))
  ∧ ∀ k, k ≠ "horizontalScore"%string → k ≠ "shoulderTiltScore"%string →
         b' !! k = b !! k.
Proof.
  intros Hb b'. unfold b', observeAll. cbn [foldl fst snd].
  split; [by do 2 apply observe_ok|]. split; [|split].
  - rewrite observe_other by done. rewrite observe_same. cbv zeta.
    by rewrite observe_window by by apply buffer_ok_length.
  - rewrite observe_same. cbv zeta. rewrite observe_other by done.
    by rewrite observe_window by by apply buffer_ok_length.
  - intros k H1 H2. by rewrite !observe_other.
Qed.

(** X17. Over the passes of a session the render loop never throws, its
    smoother state is the one [run] gives, and the array of each metric
    is the sliding window of the scores of the successive smoothed poses:
    what the array held, followed by one score for each pass, cut to the
    last [BUFFER_SIZE].  No other metric enters the buffer. *)
Theorem session_buffer (frames : list loc) (σ : state) (buffer : buffers) :
  buffer_ok buffer →
  ∃ (buffer' : buffers) (hs ts : list number),
    renderLoops σ buffer frames = Some (run σ frames, buffer')
    ∧ Forall2 (λ lm s, horizontalScore lm = Some s)
        (smoothed_poses σ frames) hs
    ∧ Forall2 (λ lm s, shoulderTiltScore lm = Some s)
        (smoothed_poses σ frames) ts
    ∧ default [] (buffer' !! "horizontalScore"%string)
      = window (default [] (buffer !! "horizontalScore"%string) ++ hs)
    ∧ default [] (buffer' !! "shoulderTiltScore"%string)
      = window (default [] (buffer !! "shoulderTiltScore"%string) ++ ts)
    ∧ ∀ k, k ≠ "horizontalScore"%string → k ≠ "shoulderTiltScore"%string →
           buffer' !! k = buffer !! k.
Proof.
  revert σ buffer. induction frames as [|f frames IH]; intros σ buffer Hb.
  - exists buffer, [], []. split; [done|].
    split; [constructor|]. split; [constructor|].
    rewrite !app_nil_r.
    by rewrite !window_short by by apply buffer_ok_length.
  - cbn [renderLoops smoothed_poses]. unfold renderLoop.
    set (σ1 := update σ f).
    destruct (horizontalScore_total (output σ1)) as [a Ha].
    destruct (shoulderTiltScore_total (output σ1)) as [t Ht].
    destruct (horizontalScoreDetailed_total (output σ1)) as [d Hd].
    unfold computeAllMetrics. rewrite Ha, Ht, Hd. cbn [mbind option_bind].
    cbn [fst snd].
    destruct (observeAll_pass buffer a t Hb) as (Hb1 & Hh1 & Ht1 & Hk1).
    set (b1 := observeAll buffer _) in *.
    destruct (IH σ1 b1 Hb1) as (b' & hs & ts & Hr & Hhs & Hts & Hh & Htt & Hk).
    exists b', (a :: hs), (t :: ts).
    split; [exact Hr|].
    split; [by constructor|]. split; [by constructor|].
    split; [|split].
    + rewrite Hh, Hh1. cbn [from_option]. unfold Datatypes.id.
      by rewrite window_push by by apply buffer_ok_length.
    + rewrite Htt, Ht1. cbn [from_option]. unfold Datatypes.id.
      by rewrite window_push by by apply buffer_ok_length.
    + intros k H1 H2. by rewrite Hk, Hk1.
Qed.

Lemma session_buffer_witness :
  buffer_ok ∅
  ∧ ∃ (buffer' : buffers) (hs ts : list number),
      renderLoops (sample_heap, None) ∅ [100; 101]
      = Some (run (sample_heap, None) [100; 101], buffer')
      ∧ Forall2 (λ lm s, horizontalScore lm = Some s)
          (smoothed_poses (sample_heap, None) [100; 101]) hs
      ∧ Forall2 (λ lm s, shoulderTiltScore lm = Some s)
          (smoothed_poses (sample_heap, None) [100; 101]) ts
      ∧ default [] (buffer' !! "horizontalScore"%string)
        = window (default [] ((∅ : buffers) !! "horizontalScore"%string)
                  ++ hs)
      ∧ default [] (buffer' !! "shoulderTiltScore"%string)
        = window (default [] ((∅ : buffers) !! "shoulderTiltScore"%string)
                  ++ ts)
      ∧ ∀ k, k ≠ "horizontalScore"%string → k ≠ "shoulderTiltScore"%string →
             buffer' !! k = (∅ : buffers) !! k.
Proof.
  split; [exact buffer_ok_empty|].
  exact (session_buffer [100; 101] (sample_heap, None) ∅ buffer_ok_empty).
Defined.

(** * Properties of the label parser *)

(** ** The matcher decides the language of the pattern *)

Lemma nullable_lang (r : regex) : nullable r = true ↔ lang r [].
Proof.
  induction r as [| |c|lo hi|r1 IH1 r2 IH2|r1 IH1 r2 IH2|r IH]; simpl.
  - done.
  - done.
  - done.
  - split; [done|]. by intros (c & ? & _).
  - rewrite andb_true_iff, IH1, IH2. split.
    + intros [H1 H2]. by exists [], [].
    + intros (s1 & s2 & Hs & H1 & H2). symmetry in Hs.
      apply app_eq_nil in Hs as [-> ->]. done.
  - by rewrite orb_true_iff, IH1, IH2.
  - split; [intros _; constructor | done].
Qed.

Lemma star_lang_cons (L : list N → Prop) (c : N) (s : list N) :
  star_lang L (c :: s) →
  ∃ s1 s2, s = s1 ++ s2 ∧ L (c :: s1) ∧ star_lang L s2.
Proof.
  intros H. remember (c :: s) as t eqn:Et. revert Et.
  induction H as [|s1 s2 H1 H2 IH]; intros Et; [done|].
  destruct s1 as [|c' s1'].
  - by apply IH.
  - simpl in Et. injection Et as -> <-. by exists s1', s2.
Qed.

Lemma deriv_lang (c : N) (r : regex) (s : list N) :
  lang (deriv c r) s ↔ lang r (c :: s).
Proof.
  revert s.
  induction r as [| |c'|lo hi|r1 IH1 r2 IH2|r1 IH1 r2 IH2|r IH]; intros s;
    simpl.
  - done.
  - done.
  - destruct (decide (c = c')) as [->|Hne]; simpl.
    + split; [by intros -> | by intros [= ->]].
    + split; [done | by intros [= -> _]].
  - destruct (decide (lo ≤ c ≤ hi)%N) as [Hc|Hc]; simpl.
    + split; [intros ->; by exists c|].
      by intros (c' & [= -> ->] & _).
    + split; [done|]. by intros (c' & [= -> ->] & ?).
  - destruct (nullable r1) eqn:Hn; simpl.
    + split.
      * intros [(s1 & s2 & -> & H1 & H2)|H].
        -- exists (c :: s1), s2. split; [done|]. by rewrite <- IH1.
        -- exists [], (c :: s). split; [done|]. split.
           ++ by apply nullable_lang.
           ++ by apply IH2.
      * intros (s1 & s2 & Hs & H1 & H2). destruct s1 as [|c' s1'].
        -- right. simpl in Hs. subst s2. by apply IH2.
        -- left. simpl in Hs. injection Hs as <- ->.
           exists s1', s2. split; [done|]. by rewrite IH1.
    + split.
      * intros (s1 & s2 & -> & H1 & H2).
        exists (c :: s1), s2. split; [done|]. by rewrite <- IH1.
      * intros (s1 & s2 & Hs & H1 & H2). destruct s1 as [|c' s1'].
        -- apply nullable_lang in H1. congruence.
        -- simpl in Hs. injection Hs as <- ->.
           exists s1', s2. split; [done|]. by rewrite IH1.
  - by rewrite IH1, IH2.
  - split.
    + intros (s1 & s2 & -> & H1 & H2).
      apply (star_app _ (c :: s1) s2); [by apply IH | done].
    + intros (s1 & s2 & -> & H1 & H2)%star_lang_cons.
      exists s1, s2. split; [done|]. by rewrite IH.
Qed.

Lemma test_lang (r : regex) (s : list N) : test r s = true ↔ lang r s.
Proof.
  unfold test. revert r. induction s as [|c s IH]; intros r; simpl.
  - apply nullable_lang.
  - by rewrite IH, deriv_lang.
Qed.

Lemma test_false (r : regex) (s : list N) : ¬ lang r s → test r s = false.
Proof.
  intros H. destruct (test r s) eqn:E; [|done].
  by apply test_lang in E.
Qed.

(** ** The four patterns *)

Lemma star_digits (lo hi : N) (s : list N) :
  star_lang (lang (Range lo hi)) s ↔ Forall (λ c, (lo ≤ c ≤ hi)%N) s.
Proof.
  split.
  - induction 1 as [|s1 s2 (c & -> & Hc) _ IH]; [constructor|].
    by constructor.
  - induction 1 as [|c s Hc _ IH]; [constructor|].
    apply (star_app _ [c] s); [by exists c | done].
Qed.

Lemma lang_one_decimal (s : list N) :
  lang RE_one_decimal s ↔ ∃ c, s = [code "0"; code "."; c] ∧ is_digit c.
Proof.
  simpl. split.
  - intros (s1 & s2 & -> & -> & s3 & s4 & -> & -> & c & -> & Hc).
    by exists c.
  - intros (c & -> & Hc). exists [code "0"], [code "."; c].
    split; [done|]. split; [done|].
    exists [code "."], [c]. split; [done|]. split; [done|]. by exists c.
Qed.

Lemma lang_zero_digit (s : list N) :
  lang RE_zero_digit s ↔ ∃ c, s = [code "0"; c] ∧ is_digit c.
Proof.
  simpl. split.
  - intros (s1 & s2 & -> & -> & c & -> & Hc). by exists c.
  - intros (c & -> & Hc). exists [code "0"], [c].
    split; [done|]. split; [done|]. by exists c.
Qed.

Lemma lang_first_digit (s : list N) :
  lang RE_first_digit s
  ↔ ∃ c ds, s = c :: ds ∧ (code "2" ≤ c ≤ code "9")%N ∧ Forall is_digit ds.
Proof.
  unfold RE_first_digit. cbn [lang]. split.
  - intros (s1 & s2 & -> & (c & -> & Hc) & Hds).
    exists c, s2. split; [done|]. split; [done|]. by apply star_digits.
  - intros (c & ds & -> & Hc & Hds). exists [c], ds.
    split; [done|]. split; [by exists c|]. by apply star_digits.
Qed.

Lemma star_zeros (s : list N) :
  star_lang (lang (Chr (code "0"))) s → Forall (λ c, c = code "0") s.
Proof.
  induction 1 as [|s1 s2 H1 _ IH]; [constructor|].
  simpl in H1. subst s1. by constructor.
Qed.

(** A token of zeros holds only the digit 0 and the dot, and starts
    with 0. *)
Lemma lang_zero (s : list N) :
  lang RE_zero s →
  head s = Some (code "0")
  ∧ Forall (λ c, c = code "0" ∨ c = code ".") s.
Proof.
  unfold RE_zero, Plus, Opt. cbn [lang].
  intros (s1 & s2 & -> & (z & zs & -> & -> & Hzs%star_zeros) & Htail).
  split; [done|].
  apply Forall_app. split.
  - constructor; [by left|]. eapply list.Forall_impl; [exact Hzs|].
    intros c ->. by left.
  - destruct Htail as [(p & q & -> & -> & f & fs & -> & -> & Hfs%star_zeros)
                      | ->]; [|constructor].
    constructor; [by right|]. constructor; [by left|].
    eapply list.Forall_impl; [exact Hfs|]. intros c ->. by left.
Qed.

(** ** The numbers of the tokens *)

Lemma digit_Some (c : N) :
  is_digit c → digit c = Some (N.to_nat (c - code "0")) ∧
               N.to_nat (c - code "0") ≤ 9.
Proof.
  unfold is_digit, digit. intros Hc.
  destruct (decide _) as [_|?]; [|done]. split; [done|].
  change (code "0") with 48%N in *. change (code "9") with 57%N in *. lia.
Qed.

Lemma INR_le_9 (d : nat) : d ≤ 9 → (0 <= INR d <= 9)%R.
Proof.
  intros H. split; [apply pos_INR|].
  replace 9%R with (INR 9) by (rewrite INR_IZR_INZ; done). by apply le_INR.
Qed.

Lemma to_number_digit (c : N) :
  is_digit c → to_number [c] = Fin (INR (N.to_nat (c - code "0"))).
Proof.
  intros Hc.
  assert (Hne : c ≠ code ".").
  { unfold is_digit in Hc. change (code "0") with 48%N in Hc.
    change (code "9") with 57%N in Hc. change (code ".") with 46%N. lia. }
  destruct (digit_Some c Hc) as [Hd Hle].
  unfold to_number. cbn [before_dot].
  destruct (decide (c = code ".")) as [?|_]; [done|].
  cbn [before_dot length drop].
  destruct (decide ([c] = [])) as [?|_]; [done|].
  destruct (decide ([c] = [] ∧ [] = [])) as [[? _]|_]; [done|].
  cbn [digits_value]. rewrite Hd. cbn [mbind option_bind digits_value].
  cbn [length pow]. pose proof (INR_le_9 _ Hle) as Hb.
  set (d := N.to_nat (c - code "0")) in *. clearbody d.
  replace (10 * 0 + d) with d by lia.
  replace (INR 0) with 0%R by done.
  rewrite overflow_1024 by lra. f_equal. lra.
Qed.

Lemma to_number_one_decimal (c : N) :
  is_digit c →
  to_number [code "0"; code "."; c]
  = Fin (INR (N.to_nat (c - code "0")) / 10).
Proof.
  intros Hc. destruct (digit_Some c Hc) as [Hd Hle].
  unfold to_number. cbn [before_dot].
  destruct (decide (code "0" = code ".")) as [?|_]; [done|].
  cbn [before_dot].
  destruct (decide (code "." = code ".")) as [_|?]; [|done].
  cbn [length drop].
  destruct (decide (_ = [])) as [?|_]; [done|].
  destruct (decide (_ ∧ _)) as [[? _]|_]; [done|].
  cbn [digits_value]. rewrite Hd.
  replace (digit (code "0")) with (Some 0) by done.
  cbn [mbind option_bind digits_value length].
  pose proof (INR_le_9 _ Hle) as Hb.
  set (d := N.to_nat (c - code "0")) in *. clearbody d.
  replace (10 * 0 + 0) with 0 by lia.
  replace (10 * 0 + d) with d by lia.
  replace (INR 0) with 0%R by done. cbn [pow].
  rewrite overflow_1024 by lra. f_equal. lra.
Qed.

Lemma div_10 (d : nat) :
  d ≤ 9 → div (Fin (INR d)) (Fin 10) = Fin (INR d / 10).
Proof.
  intros Hd. pose proof (INR_le_9 d Hd).
  apply div_Fin_1024; lra.
Qed.

Lemma parse_tenth (raw : list N) (v : number) :
  parseLabelToken raw = Some v →
  ∃ k : nat, k ≤ 10 ∧ v = Fin (INR k / 10).
Proof.
  unfold parseLabelToken. set (tok := norm raw). clearbody tok.
  destruct (decide (tok = [])) as [?|_]; [done|].
  destruct (test RE_zero tok); [intros [= <-]|].
  { exists 0. split; [lia|]. f_equal. simpl. lra. }
  destruct (startsWith tok (units "1")); [intros [= <-]|].
  { exists 10. split; [lia|]. f_equal.
    replace (INR 10) with 10%R by (rewrite INR_IZR_INZ; done). lra. }
  destruct (test RE_one_decimal tok) eqn:E1.
  { apply test_lang, lang_one_decimal in E1 as (c & -> & Hc).
    intros [= <-]. destruct (digit_Some c Hc) as [_ Hle].
    exists (N.to_nat (c - code "0")). split; [lia|].
    by apply to_number_one_decimal. }
  destruct (test RE_zero_digit tok) eqn:E2.
  { apply test_lang, lang_zero_digit in E2 as (c & -> & Hc).
    intros [= <-]. destruct (digit_Some c Hc) as [_ Hle].
    exists (N.to_nat (c - code "0")). split; [lia|].
    unfold unit_to_number. cbn [lookup list_lookup].
    rewrite to_number_digit by done. by apply div_10. }
  destruct (test RE_first_digit tok) eqn:E3; [|done].
  apply test_lang, lang_first_digit in E3 as (c & ds & -> & Hc & Hds).
  intros [= <-].
  assert (Hc' : is_digit c).
  { unfold is_digit. change (code "2") with 50%N in Hc.
    change (code "0") with 48%N. lia. }
  destruct (digit_Some c Hc') as [_ Hle].
  exists (N.to_nat (c - code "0")). split; [lia|].
  unfold unit_to_number. cbn [lookup list_lookup].
  rewrite to_number_digit by done. by apply div_10.
Qed.

(** X18. A label is a tenth: whenever [parseLabelToken] returns a
    number, it is k/10 for a whole k between 0 and 10, so a number of
    [0,1] with one decimal. *)
Theorem label_is_a_tenth (raw : list N) (v : number) :
  parseLabelToken raw = Some v →
  in01 v ∧ ∃ k : nat, k ≤ 10 ∧ v = Fin (INR k / 10).
Proof.
  intros (k & Hk & ->)%parse_tenth. split; [|by exists k].
  apply in01_Fin.
  assert (H10 : INR 10 = 10%R) by (rewrite INR_IZR_INZ; done).
  pose proof (pos_INR k) as Hpos.
  pose proof (le_INR k 10 Hk) as Hle.
  rewrite H10 in Hle. lra.
Qed.

(** ** Normalisation of plain tokens *)

Ltac codes :=
  change (code "0") with 48%N in *; change (code "9") with 57%N in *;
  change (code "1") with 49%N in *; change (code "2") with 50%N in *;
  change (code ".") with 46%N in *; change (code ",") with 44%N in *.

Lemma is_ws_cases (c : N) :
  is_ws c →
  c ∈ [9; 10; 11; 12; 13; 32; 160; 5760; 8192; 8193; 8194; 8195; 8196;
       8197; 8198; 8199; 8200; 8201; 8202; 8232; 8233; 8239; 8287; 12288;
       65279]%N.
Proof. unfold is_ws, isWhiteSpace. apply bool_decide_eq_true_1. Qed.

Ltac ws_cases H :=
  apply is_ws_cases in H;
  repeat (apply elem_of_cons in H as [->|H]);
  [..|by apply elem_of_nil in H].

Lemma ws_not_comma (c : N) : is_ws c → c ≠ code ",".
Proof. intros H. ws_cases H; done. Qed.

Lemma ws_no_alias (c : N) : is_ws c → property ALIAS c = None.
Proof. intros H. ws_cases H; done. Qed.

Lemma plain_not_ws (c : N) : plain c → isWhiteSpace c = false.
Proof.
  intros Hp. destruct (isWhiteSpace c) eqn:E; [|done].
  unfold plain, is_digit in Hp. codes.
  ws_cases E; lia.
Qed.

Lemma plain_not_comma (c : N) : plain c → c ≠ code ",".
Proof. unfold plain, is_digit. codes. lia. Qed.

Lemma plain_no_alias (c : N) : plain c → property ALIAS c = None.
Proof.
  intros Hp. unfold plain, is_digit in Hp. codes.
  unfold ALIAS. cbn [property].
  repeat (destruct (decide _) as [E|_];
          [vm_compute in E; lia|]).
  done.
Qed.

Lemma replace_first_none (s : list N) :
  Forall (λ c, c ≠ code ",") s →
  replace_first (code ",") (code ".") s = s.
Proof.
  induction 1 as [|c s Hc _ IH]; [done|]. cbn [replace_first].
  destruct (decide (c = code ",")) as [?|_]; [done|]. by rewrite IH.
Qed.

Lemma replace_first_app (s t : list N) :
  Forall (λ c, c ≠ code ",") s →
  replace_first (code ",") (code ".") (s ++ t)
  = s ++ replace_first (code ",") (code ".") t.
Proof.
  induction 1 as [|c s Hc _ IH]; [done|]. cbn [app replace_first].
  destruct (decide (c = code ",")) as [?|_]; [done|]. by rewrite IH.
Qed.

Lemma alias_none (s : list N) :
  Forall (λ c, property ALIAS c = None) s →
  s ≫= (λ ch, default [ch] (property ALIAS ch)) = s.
Proof.
  induction 1 as [|c s Hc _ IH]; [done|].
  rewrite bind_cons, Hc, IH. done.
Qed.

Lemma trimStart_ws (ws s : list N) :
  Forall is_ws ws → trimStart (ws ++ s) = trimStart s.
Proof.
  induction 1 as [|c ws Hc _ IH]; [done|]. cbn [app trimStart].
  by rewrite Hc.
Qed.

Lemma trimStart_keep (c : N) (s : list N) :
  isWhiteSpace c = false → trimStart (c :: s) = c :: s.
Proof. intros H. cbn [trimStart]. by rewrite H. Qed.

Lemma trimEnd_ws (s ws : list N) :
  Forall is_ws ws → trimEnd (s ++ ws) = trimEnd s.
Proof.
  intros H. unfold trimEnd. rewrite reverse_app.
  rewrite trimStart_ws; [done|]. by apply Forall_reverse.
Qed.

Lemma trimEnd_keep (s : list N) (c : N) :
  isWhiteSpace c = false → trimEnd (s ++ [c]) = s ++ [c].
Proof.
  intros H. unfold trimEnd. rewrite reverse_app. simpl.
  rewrite H. by rewrite reverse_cons, reverse_involutive.
Qed.

(** The first unit of a string survives [trimEnd] when it is no white
    space. *)
Lemma trimEnd_head (c : N) (s : list N) :
  isWhiteSpace c = false → ∃ s', trimEnd (c :: s) = c :: s'.
Proof.
  intros H. unfold trimEnd. rewrite reverse_cons.
  assert (E : ∀ l, ∃ l', trimStart (l ++ [c]) = l' ++ [c]).
  { induction l as [|a l [l' IH]].
    - exists []. simpl. by rewrite H.
    - cbn [app trimStart]. destruct (isWhiteSpace a).
      + by exists l'.
      + by exists (a :: l). }
  destruct (E (reverse s)) as [l' ->].
  exists (reverse l'). by rewrite reverse_app.
Qed.

Lemma trim_plain (ws1 body ws2 : list N) :
  Forall is_ws ws1 → Forall is_ws ws2 → Forall plain body →
  trim (ws1 ++ body ++ ws2) = body.
Proof.
  intros H1 H2 Hb. unfold trim. rewrite trimStart_ws by done.
  destruct body as [|c body].
  - simpl. replace (trimStart ws2) with (trimStart (ws2 ++ []))
      by (by rewrite app_nil_r).
    by rewrite trimStart_ws.
  - apply list.Forall_cons in Hb as [Hc Hb].
    cbn [app]. rewrite trimStart_keep by by apply plain_not_ws.
    change (c :: body ++ ws2) with ((c :: body) ++ ws2).
    rewrite trimEnd_ws by done.
    destruct (list.Forall_cons plain c body) as [_ Hcb].
    specialize (Hcb (conj Hc Hb)).
    destruct (c :: body) as [|a l] eqn:E using rev_ind; [done|].
    apply Forall_app in Hcb as [_ Ha].
    apply list.Forall_cons in Ha as [Ha _].
    apply trimEnd_keep. by apply plain_not_ws.
Qed.

(** A plain decimal literal between white space is its own
    normalisation; so is one written with a decimal comma, the comma
    turned into a dot. *)
Lemma norm_plain (ws1 body ws2 : list N) :
  Forall is_ws ws1 → Forall is_ws ws2 → Forall plain body →
  norm (ws1 ++ body ++ ws2) = body.
Proof.
  intros H1 H2 Hb. unfold norm.
  rewrite replace_first_none, alias_none; [by apply trim_plain| |].
  - rewrite !Forall_app. split; [|split].
    + eapply list.Forall_impl; [exact H1|]. apply ws_no_alias.
    + eapply list.Forall_impl; [exact Hb|]. apply plain_no_alias.
    + eapply list.Forall_impl; [exact H2|]. apply ws_no_alias.
  - rewrite !Forall_app. split; [|split].
    + eapply list.Forall_impl; [exact H1|]. apply ws_not_comma.
    + eapply list.Forall_impl; [exact Hb|]. apply plain_not_comma.
    + eapply list.Forall_impl; [exact H2|]. apply ws_not_comma.
Qed.

Lemma norm_comma (ws1 pre post ws2 : list N) :
  Forall is_ws ws1 → Forall is_ws ws2 →
  Forall plain pre → Forall plain post →
  norm (ws1 ++ (pre ++ code "," :: post) ++ ws2) = pre ++ code "." :: post.
Proof.
  intros H1 H2 Hpre Hpost.
  assert (Hpp : Forall plain (pre ++ code "." :: post)).
  { apply Forall_app. split; [done|]. constructor; [by right | done]. }
  rewrite <- (norm_plain ws1 (pre ++ code "." :: post) ws2) by done.
  assert (E : replace_first (code ",") (code ".")
                (ws1 ++ (pre ++ code "," :: post) ++ ws2)
              = replace_first (code ",") (code ".")
                  (ws1 ++ (pre ++ code "." :: post) ++ ws2)).
  { rewrite (replace_first_none (ws1 ++ (pre ++ code "." :: post) ++ ws2)).
    - rewrite (replace_first_app ws1).
      + rewrite <- !app_assoc. rewrite (replace_first_app pre).
        * cbn [app replace_first].
          by destruct (decide (code "," = code ",")) as [_|?].
        * eapply list.Forall_impl; [exact Hpre|]. apply plain_not_comma.
      + eapply list.Forall_impl; [exact H1|]. apply ws_not_comma.
    - rewrite Forall_app. split; [|rewrite Forall_app; split].
      + eapply list.Forall_impl; [exact H1|]. apply ws_not_comma.
      + eapply list.Forall_impl; [exact Hpp|]. apply plain_not_comma.
      + eapply list.Forall_impl; [exact H2|]. apply ws_not_comma. }
  unfold norm. by rewrite E.
Qed.

(** ** What the parser reads *)

Lemma digit_unit_spec (d : nat) :
  d ≤ 9 →
  is_digit (digit_unit d) ∧ N.to_nat (digit_unit d - code "0") = d.
Proof. unfold is_digit, digit_unit. codes. lia. Qed.

Lemma startsWith_1 (c : N) (s : list N) :
  startsWith (c :: s) (units "1") = bool_decide (c = code "1").
Proof.
  unfold startsWith. apply bool_decide_ext. split.
  - intros [k Hk]. simpl in Hk. by injection Hk.
  - intros ->. by exists s.
Qed.

Lemma test_zero_head (c : N) (s : list N) :
  c ≠ code "0" → test RE_zero (c :: s) = false.
Proof.
  intros Hc. apply test_false. intros [Hh _]%lang_zero.
  injection Hh as Hh. exact (Hc Hh).
Qed.

Lemma plain_0 : plain (code "0").
Proof. left. by vm_compute. Qed.

(** The two shapes of a one-decimal token, once normalised. *)
Lemma parse_0_dot_d (raw : list N) (d : nat) :
  d ≤ 9 → norm raw = [code "0"; code "."; digit_unit d] →
  parseLabelToken raw = Some (Fin (INR d / 10)).
Proof.
  intros Hd Hnorm. destruct (digit_unit_spec d Hd) as [Hdu Hval].
  unfold parseLabelToken. rewrite Hnorm.
  destruct (decide (_ = [])) as [?|_]; [done|].
  destruct (decide (d = 0)) as [->|Hd0].
  { replace (test RE_zero [code "0"; code "."; digit_unit 0]) with true
      by done.
    do 2 f_equal. simpl. lra. }
  rewrite test_false; cycle 1.
  { intros [_ Hall]%lang_zero.
    apply list.Forall_cons in Hall as [_ Hall].
    apply list.Forall_cons in Hall as [_ Hall].
    apply list.Forall_cons in Hall as [Hall _].
    unfold digit_unit in Hall. codes. lia. }
  rewrite startsWith_1, bool_decide_eq_false_2 by done.
  replace (test RE_one_decimal [code "0"; code "."; digit_unit d])
    with true; cycle 1.
  { symmetry. apply test_lang, lang_one_decimal. by eexists. }
  by rewrite to_number_one_decimal, Hval.
Qed.

Lemma parse_0_d (raw : list N) (d : nat) :
  d ≤ 9 → norm raw = [code "0"; digit_unit d] →
  parseLabelToken raw = Some (Fin (INR d / 10)).
Proof.
  intros Hd Hnorm. destruct (digit_unit_spec d Hd) as [Hdu Hval].
  unfold parseLabelToken. rewrite Hnorm.
  destruct (decide (_ = [])) as [?|_]; [done|].
  destruct (decide (d = 0)) as [->|Hd0].
  { replace (test RE_zero [code "0"; digit_unit 0]) with true by done.
    do 2 f_equal. simpl. lra. }
  rewrite test_false; cycle 1.
  { intros [_ Hall]%lang_zero.
    apply list.Forall_cons in Hall as [_ Hall].
    apply list.Forall_cons in Hall as [Hall _].
    unfold digit_unit in Hall. codes. lia. }
  rewrite startsWith_1, bool_decide_eq_false_2 by done.
  rewrite test_false; cycle 1.
  { by intros (c & [=] & _)%lang_one_decimal. }
  replace (test RE_zero_digit [code "0"; digit_unit d]) with true; cycle 1.
  { symmetry. apply test_lang, lang_zero_digit. by eexists. }
  unfold unit_to_number. cbn [lookup list_lookup].
  rewrite to_number_digit, Hval by done. by rewrite div_10.
Qed.

(** X19. The labels of the tag set are read back: for every digit d the
    tokens 0.d, 0,d and 0d, with any white space around them, give
    d/10. *)
Theorem one_decimal_labels_read_back (ws1 ws2 mid : list N) (d : nat) :
  Forall is_ws ws1 → Forall is_ws ws2 → d ≤ 9 →
  mid = [] ∨ mid = [code "."] ∨ mid = [code ","] →
  parseLabelToken (ws1 ++ (code "0" :: mid ++ [digit_unit d]) ++ ws2)
  = Some (Fin (INR d / 10)).
Proof.
  intros H1 H2 Hd Hmid.
  destruct (digit_unit_spec d Hd) as [Hdu Hval].
  assert (Hpd : Forall plain [digit_unit d]).
  { constructor; [by left | constructor]. }
  destruct Hmid as [-> | [-> | ->]].
  - apply parse_0_d; [done|].
    apply (norm_plain ws1 [code "0"; digit_unit d] ws2); try done.
    constructor; [apply plain_0 | done].
  - apply parse_0_dot_d; [done|].
    apply (norm_plain ws1 [code "0"; code "."; digit_unit d] ws2); try done.
    constructor; [apply plain_0|]. constructor; [by right | done].
  - apply parse_0_dot_d; [done|].
    apply (norm_comma ws1 [code "0"] [digit_unit d] ws2); try done.
    constructor; [apply plain_0 | constructor].
Qed.

Lemma ws_space : Forall is_ws (units " ").
Proof. by repeat constructor. Qed.

Lemma one_decimal_labels_read_back_witness :
  parseLabelToken (units " 0,7 ") = Some (Fin (INR 7 / 10)).
Proof.
  apply (one_decimal_labels_read_back (units " ") (units " ")
           [code ","] 7).
  - exact ws_space.
  - exact ws_space.
  - lia.
  - right. by right.
Defined.

Lemma looks_like_1_alias (c : N) :
  looks_like_1 c →
  c ≠ code "," ∧ default [c] (property ALIAS c) = [code "1"].
Proof.
  unfold looks_like_1. intros H.
  repeat (apply elem_of_cons in H as [->|H]); try done.
  by apply elem_of_nil in H.
Qed.

(** X20. Whatever starts with the digit 1, or with one of its
    look-alikes I, i, l, | and !, is read as the label 1.0, after any
    white space and whatever follows: 1, 1.0, 17 and l7 alike. *)
Theorem leading_one_reads_as_1 (ws rest : list N) (c : N) :
  Forall is_ws ws → looks_like_1 c →
  parseLabelToken (ws ++ c :: rest) = Some (Fin 1).
Proof.
  intros Hws Hc. destruct (looks_like_1_alias c Hc) as [Hcomma Halias].
  assert (Hnorm : ∃ s, norm (ws ++ c :: rest) = code "1" :: s).
  { unfold norm. rewrite replace_first_app; cycle 1.
    { eapply list.Forall_impl; [exact Hws|]. apply ws_not_comma. }
    cbn [replace_first].
    destruct (decide (c = code ",")) as [?|_]; [done|].
    rewrite bind_app, bind_cons, Halias.
    rewrite alias_none; cycle 1.
    { eapply list.Forall_impl; [exact Hws|]. apply ws_no_alias. }
    unfold trim. rewrite trimStart_ws by done. cbn [app].
    rewrite trimStart_keep by done.
    by apply trimEnd_head. }
  destruct Hnorm as [s Hnorm].
  unfold parseLabelToken. rewrite Hnorm.
  destruct (decide (_ = [])) as [?|_]; [done|].
  rewrite test_zero_head by done.
  rewrite startsWith_1. by rewrite bool_decide_eq_true_2.
Qed.

Lemma leading_one_reads_as_1_witness :
  parseLabelToken (units " l7") = Some (Fin 1).
Proof.
  apply (leading_one_reads_as_1 (units " ") (units "7") (code "l")).
  - exact ws_space.
  - unfold looks_like_1. set_solver.
Defined.

(** X21. A token of digits that starts with a digit d from 2 to 9 is
    read as d/10, the digits after the first are ignored: 7 gives 0.7
    and so does 74. *)
Theorem first_digit_rule (ws1 ws2 ds : list N) (d : nat) :
  Forall is_ws ws1 → Forall is_ws ws2 → 2 ≤ d ≤ 9 → Forall is_digit ds →
  parseLabelToken (ws1 ++ (digit_unit d :: ds) ++ ws2)
  = Some (Fin (INR d / 10)).
Proof.
  intros H1 H2 Hd Hds.
  destruct (digit_unit_spec d) as [Hdu Hval]; [lia|].
  unfold parseLabelToken. rewrite norm_plain; try done; cycle 1.
  { constructor; [by left|].
    eapply list.Forall_impl; [exact Hds|]. by left. }
  destruct (decide (_ = [])) as [?|_]; [done|].
  assert (Hne0 : digit_unit d ≠ code "0").
  { unfold digit_unit. codes. lia. }
  assert (Hne1 : digit_unit d ≠ code "1").
  { unfold digit_unit. codes. lia. }
  rewrite test_zero_head by done.
  rewrite startsWith_1, bool_decide_eq_false_2 by done.
  rewrite test_false; cycle 1.
  { intros (c & [= ? _] & _)%lang_one_decimal. done. }
  rewrite test_false; cycle 1.
  { intros (c & [= ? _] & _)%lang_zero_digit. done. }
  replace (test RE_first_digit (digit_unit d :: ds)) with true; cycle 1.
  { symmetry. apply test_lang, lang_first_digit.
    exists (digit_unit d), ds. split; [done|]. split; [|done].
    unfold digit_unit. codes. lia. }
  unfold unit_to_number. cbn [lookup list_lookup].
  rewrite to_number_digit, Hval by done. f_equal. apply div_10. lia.
Qed.

Lemma first_digit_rule_witness :
  parseLabelToken (units "74") = Some (Fin (INR 7 / 10)).
Proof.
  apply (first_digit_rule [] [] (units "4") 7).
  - constructor.
  - constructor.
  - lia.
  - repeat constructor; by vm_compute.
Defined.

(** X22. No label is read from white space alone, nor from a token
    whose first unit, once normalised, is not a digit (a sign, a letter,
    a dot): the parser returns [null]. *)
Theorem no_digit_no_label (raw : list N) :
  (Forall is_ws raw → parseLabelToken raw = None)
  ∧ (∀ c rest, norm raw = c :: rest → ¬ is_digit c →
       parseLabelToken raw = None).
Proof.
  split.
  - intros Hws. unfold parseLabelToken.
    replace raw with (raw ++ [] ++ []) by (by rewrite !app_nil_r).
    rewrite norm_plain by (done || constructor). done.
  - intros c rest Hnorm Hc. unfold parseLabelToken. rewrite Hnorm.
    destruct (decide (_ = [])) as [?|_]; [done|].
    rewrite test_zero_head; cycle 1.
    { intros ->. apply Hc. by vm_compute. }
    rewrite startsWith_1, bool_decide_eq_false_2; cycle 1.
    { intros ->. apply Hc. by vm_compute. }
    rewrite test_false; cycle 1.
    { intros (c' & [= -> _] & _)%lang_one_decimal. apply Hc. by vm_compute. }
    rewrite test_false; cycle 1.
    { intros (c' & [= -> _] & _)%lang_zero_digit. apply Hc. by vm_compute. }
    rewrite test_false; [done|].
    intros (c' & ds & [= <- _] & Hc' & _)%lang_first_digit. apply Hc.
    unfold is_digit. codes. lia.
Qed.

Lemma no_digit_no_label_witness :
  parseLabelToken (units "  ") = None
  ∧ parseLabelToken (units "-0.5") = None.
Proof.
  split.
  - apply (no_digit_no_label (units "  ")). by repeat constructor.
  - apply (proj2 (no_digit_no_label (units "-0.5")) (code "-") (units "0.5")).
    + by vm_compute.
    + unfold is_digit. vm_compute. intros [H _]. by apply H.
Defined.

(** X23. A label written with two or more decimals is rejected, unless
    all of them are 0: 0.47 gives [null] (while 47 gives 0.4). *)
Theorem more_decimals_rejected (ws1 ws2 frac : list N) :
  Forall is_ws ws1 → Forall is_ws ws2 →
  Forall is_digit frac → 2 ≤ length frac →
  ¬ Forall (λ c, c = code "0") frac →
  parseLabelToken (ws1 ++ (code "0" :: code "." :: frac) ++ ws2) = None.
Proof.
  intros H1 H2 Hfrac Hlen Hnz.
  unfold parseLabelToken. rewrite norm_plain; try done; cycle 1.
  { constructor; [left; by vm_compute|]. constructor; [by right|].
    eapply list.Forall_impl; [exact Hfrac|]. by left. }
  destruct (decide (_ = [])) as [?|_]; [done|].
  rewrite test_false; cycle 1.
  { intros [_ Hall]%lang_zero. apply Hnz.
    apply list.Forall_cons in Hall as [_ Hall].
    apply list.Forall_cons in Hall as [_ Hall].
    rewrite list.Forall_forall in Hall, Hfrac. apply list.Forall_forall.
    intros c Hc. destruct (Hall c Hc) as [->| ->]; [done|].
    specialize (Hfrac _ Hc). unfold is_digit in Hfrac. codes. lia. }
  rewrite startsWith_1, bool_decide_eq_false_2 by done.
  rewrite test_false; cycle 1.
  { intros (c & [= ->] & _)%lang_one_decimal. simpl in Hlen. lia. }
  rewrite test_false; cycle 1.
  { intros (c & [= ? ?] & _)%lang_zero_digit. subst. simpl in Hlen. lia. }
  rewrite test_false; [done|].
  intros (c & ds & [= <- _] & Hc & _)%lang_first_digit. codes. lia.
Qed.

Lemma more_decimals_rejected_witness :
  parseLabelToken (units "0.47") = None.
Proof.
  apply (more_decimals_rejected [] [] (units "47")).
  - constructor.
  - constructor.
  - repeat constructor; by vm_compute.
  - simpl. lia.
  - intros [H _]%list.Forall_cons. by vm_compute in H.
Defined.

Lemma label_is_a_tenth_witness :
  parseLabelToken (units "0.7") = Some (Fin (INR 7 / 10))
  ∧ in01 (Fin (INR 7 / 10))
  ∧ ∃ k : nat, k ≤ 10 ∧ Fin (INR 7 / 10) = Fin (INR k / 10).
Proof.
  assert (H : parseLabelToken (units "0.7") = Some (Fin (INR 7 / 10))).
  { apply parse_0_dot_d; [lia | by vm_compute]. }
  split; [exact H|]. exact (label_is_a_tenth _ _ H).
Defined.

(** * Properties of the image analysis *)

(** X24. The error shown for a labelled image is a number in [0,1]:
    the label is one that [parseLabelToken] read and the score is in
    [0,1]. *)
Theorem abs_error_in_unit_interval (raw : list N) (m s : number) :
  parseLabelToken raw = Some m → in01 s →
  ∃ e, abs_error (Some m) s = Some e ∧ in01 e.
Proof.
  intros (k & Hk & ->)%parse_tenth (r & -> & Hr).
  assert (Hk' : (0 <= INR k <= 10)%R).
  { split; [apply pos_INR|].
    replace 10%R with (INR 10) by (rewrite INR_IZR_INZ; done).
    by apply le_INR. }
  eexists. split; [done|].
  rewrite sub_Fin_1024 by lra. cbn [Math.abs].
  apply in01_Fin. unfold Rabs. destruct (Rcase_abs _); lra.
Qed.

Lemma abs_error_in_unit_interval_witness :
  parseLabelToken (units "0.7") = Some (Fin (INR 7 / 10))
  ∧ in01 (Fin 1)
  ∧ ∃ e, abs_error (Some (Fin (INR 7 / 10))) (Fin 1) = Some e ∧ in01 e.
Proof.
  assert (H : parseLabelToken (units "0.7") = Some (Fin (INR 7 / 10))).
  { apply parse_0_dot_d; [lia | by vm_compute]. }
  assert (H1 : in01 (Fin 1)) by (apply in01_Fin; lra).
  split; [exact H|]. split; [exact H1|].
  exact (abs_error_in_unit_interval _ _ _ H H1).
Defined.

Lemma le_le (d : number) (a b : R) :
  (a <= b)%R → le d (Fin a) = true → le d (Fin b) = true.
Proof.
  intros Hab. destruct d as [| | |r]; try done. simpl.
  destruct (Rle_dec r a); [|done]. intros _.
  by destruct (Rle_dec r b); [|lra].
Qed.

(** X25. The tint of a card and the badge of its error row agree: the
    badge is the check mark exactly when the tint is the green or the
    blue one, and the cross exactly when it is the yellow or the red
    one; an error that is [NaN] gets the red tint and the cross. *)
Theorem tint_agrees_with_badge (d : number) :
  (badge (Some d) = Some "✅"%string
   ↔ getTint (Some d) = "#e8fbe8"%string ∨ getTint (Some d) = "#e6f1ff"%string)
  ∧ (badge (Some d) = Some "❌"%string
     ↔ getTint (Some d) = "#fff9d9"%string
       ∨ getTint (Some d) = "#ffecec"%string)
  ∧ (d = NaN → getTint (Some d) = "#ffecec"%string
               ∧ badge (Some d) = Some "❌"%string).
Proof.
  unfold badge, getTint. cbn [mbind option_bind].
  destruct (le d (Fin 0.10)) eqn:E1.
  { rewrite (le_le d 0.10 0.25) by (lra || done).
    split; [|split].
    - split; [intros _; by left | done].
    - split; [done | by intros [?|?]].
    - intros ->. by simpl in E1. }
  destruct (le d (Fin 0.25)) eqn:E2.
  { split; [|split].
    - split; [intros _; by right | done].
    - split; [done | by intros [?|?]].
    - intros ->. by simpl in E2. }
  destruct (le d (Fin 0.50)) eqn:E3.
  - split; [|split].
    + split; [done | by intros [?|?]].
    + split; [intros _; by left | done].
    + intros ->. by simpl in E3.
  - split; [|split].
    + split; [done | by intros [?|?]].
    + split; [intros _; by right | done].
    + done.
Qed.

(** X26. [process] hands on the first detected pose, indexed by
    position, and nothing when there is none; a pose cut short of the
    shoulders (at most 12 landmarks) is scored as the blank record and
    two scores of 0. *)
Theorem process_first_pose (landmarkArray : list Landmark)
    (others : list (list Landmark)) :
  process (A := Landmark) None = None
  ∧ process (A := Landmark) (Some []) = None
  ∧ ∃ lm, process (Some (landmarkArray :: others)) = Some lm
          ∧ (∀ i, lm !! i = landmarkArray !! i)
          ∧ (length landmarkArray ≤ 12 →
             horizontalScoreDetailed lm = Some blank
             ∧ computeAllMetrics lm
               = Some [("horizontalScore"%string, Fin 0);
                       ("shoulderTiltScore"%string, Fin 0)]).
Proof.
  split; [done|]. split; [done|].
  set (lm := (map_seq 0 landmarkArray : gmap nat Landmark)).
  exists lm. split; [done|].
  assert (Hl : ∀ i, lm !! i = landmarkArray !! i).
  { intros i. unfold lm. by rewrite lookup_map_seq_0. }
  split; [done|]. intros Hlen.
  assert (Hv : isVisible (lm !! L_SHOULDER) = false
               ∨ isVisible (lm !! R_SHOULDER) = false).
  { right. rewrite Hl, lookup_ge_None_2; [done|]. unfold R_SHOULDER. lia. }
  split; [by apply detailed_not_visible|].
  unfold computeAllMetrics.
  rewrite (horizontalScore_not_visible _ Hv).
  by rewrite (shoulderTiltScore_not_visible _ Hv).
Qed.

Lemma tint_agrees_with_badge_witness :
  getTint (Some NaN) = "#ffecec"%string
  ∧ badge (Some NaN) = Some "❌"%string.
Proof.
  exact (proj2 (proj2 (tint_agrees_with_badge NaN)) eq_refl).
Defined.

Lemma process_first_pose_witness :
  length [shoulder 0.4 0.5 0 1] ≤ 12
  ∧ ∃ lm, process (Some [[shoulder 0.4 0.5 0 1]]) = Some lm
          ∧ horizontalScoreDetailed lm = Some blank.
Proof.
  split; [simpl; lia|].
  destruct (process_first_pose [shoulder 0.4 0.5 0 1] [])
    as (_ & _ & lm & Hp & _ & H).
  exists lm. split; [exact Hp|]. apply H. simpl. lia.
Defined.
